(** * The PSA crypto secure partition (psa_crypto_partition.c)

    A shallow embedding of the message dispatch and resource custody layer of
    the crypto service: the hash clone slot pool, the crypto subsystem
    reference count, the per-kind call handlers, [message_handler] and the
    body of the dispatch loop [crypto_main].

    The Crypto Engine, the Secure Channel and the allocator are collaborators
    outside the file.  They are modelled as oracles that answer from the log
    of the calls made so far, and every call that leaves the file is appended
    to that log, so that a statement such as "the engine is not invoked" is a
    statement about the log.  The operations on the clone pool are appended
    as well, so that the log also tells whether a slot was cleared before or
    after a call. *)

From Stdlib Require Import ZArith List Lia Bool.
From stdpp Require Import base decidable option list gmap.

Local Open Scope Z_scope.

(** ** Status codes, operation codes, message kinds *)

(** [psa_status_t].  The numeric values live in a header that is not part of
    the partition; only the distinctness of the named codes is used. *)
Inductive psa_status_t : Type :=
| PSA_SUCCESS
| PSA_ERROR_NOT_SUPPORTED
| PSA_ERROR_INVALID_ARGUMENT
| PSA_ERROR_INVALID_HANDLE
| PSA_ERROR_BAD_STATE
| PSA_ERROR_INSUFFICIENT_MEMORY
| PSA_ERROR_COMMUNICATION_FAILURE
| PSA_ERROR_OTHER (code : Z).

#[global] Instance psa_status_eq_dec : EqDecision psa_status_t.
Proof. solve_decision. Defined.

(** [psa_sec_function_t]: the operation code carried in the fixed header.  A
    code that names no operation is [PSA_SEC_FUNCTION_UNKNOWN]. *)
Inductive psa_sec_function_t : Type :=
| PSA_MAC_SIGN_SETUP | PSA_MAC_VERIFY_SETUP | PSA_MAC_UPDATE
| PSA_MAC_SIGN_FINISH | PSA_MAC_VERIFY_FINISH | PSA_MAC_ABORT
| PSA_HASH_SETUP | PSA_HASH_UPDATE | PSA_HASH_FINISH | PSA_HASH_VERIFY
| PSA_HASH_ABORT | PSA_HASH_CLONE_BEGIN | PSA_HASH_CLONE_END
| PSA_ASYMMETRIC_SIGN | PSA_ASYMMETRIC_VERIFY
| PSA_ASYMMETRIC_ENCRYPT | PSA_ASYMMETRIC_DECRYPT
| PSA_AEAD_ENCRYPT | PSA_AEAD_DECRYPT
| PSA_CIPHER_ENCRYPT_SETUP | PSA_CIPHER_DECRYPT_SETUP | PSA_CIPHER_GENERATE_IV
| PSA_CIPHER_SET_IV | PSA_CIPHER_UPDATE | PSA_CIPHER_FINISH | PSA_CIPHER_ABORT
| PSA_GET_KEY_LIFETIME | PSA_SET_KEY_POLICY | PSA_GET_KEY_POLICY
| PSA_IMPORT_KEY | PSA_DESTROY_KEY | PSA_GET_KEY_INFORMATION
| PSA_EXPORT_KEY | PSA_EXPORT_PUBLIC_KEY | PSA_GENERATE_KEY
| PSA_ALLOCATE_KEY | PSA_CREATE_KEY | PSA_OPEN_KEY | PSA_CLOSE_KEY
| PSA_GET_GENERATOR_CAPACITY | PSA_GENERATOR_READ | PSA_GENERATOR_IMPORT_KEY
| PSA_GENERATOR_ABORT | PSA_KEY_DERIVATION | PSA_KEY_AGREEMENT
| PSA_SEC_FUNCTION_UNKNOWN (code : Z).

#[global] Instance psa_sec_function_eq_dec : EqDecision psa_sec_function_t.
Proof. solve_decision. Defined.

(** [msg->type]. *)
Inductive psa_ipc_type : Type :=
| PSA_IPC_CONNECT | PSA_IPC_CALL | PSA_IPC_DISCONNECT
| PSA_IPC_OTHER (code : Z).

(** The signals of [crypto_main], one per service kind, in the order the loop
    tests them. *)
Inductive psa_signal_t : Type :=
| PSA_CRYPTO_INIT | PSA_MAC | PSA_HASH | PSA_SYMMETRIC | PSA_ASYMMETRIC
| PSA_AEAD | PSA_KEY_MNG | PSA_RNG | PSA_CRYPTO_FREE | PSA_GENERATOR
| PSA_ENTROPY_INJECT.

#[global] Instance psa_signal_eq_dec : EqDecision psa_signal_t.
Proof. solve_decision. Defined.

(** ** Fixed headers and messages *)

(** [psa_crypto_ipc_t], the header of the hash, MAC and cipher kinds. *)
Record psa_crypto_ipc_t : Type := {
  ipc_func : psa_sec_function_t;
  ipc_handle : Z;
  ipc_alg : Z
}.

(** [psa_crypto_ipc_asymmetric_t]. *)
Record psa_crypto_ipc_asymmetric_t : Type := {
  asym_func : psa_sec_function_t;
  asym_handle : Z;
  asym_alg : Z;
  asym_input_length : Z;
  asym_salt_length : Z
}.

(** [psa_crypto_ipc_aead_t] (the nonce bytes are not modelled). *)
Record psa_crypto_ipc_aead_t : Type := {
  aead_func : psa_sec_function_t;
  aead_handle : Z;
  aead_alg : Z;
  aead_nonce_size : Z;
  aead_additional_data_length : Z;
  aead_input_length : Z
}.

(** [psa_key_mng_ipc_t]. *)
Record psa_key_mng_ipc_t : Type := {
  mng_func : psa_sec_function_t;
  mng_handle : Z;
  mng_lifetime : Z;
  mng_type : Z
}.

(** [psa_crypto_derivation_ipc_t]. *)
Record psa_crypto_derivation_ipc_t : Type := {
  drv_func : psa_sec_function_t;
  drv_handle : Z;
  drv_alg : Z;
  drv_capacity : Z
}.

(** What the client's input vectors hold, as the handlers decode them: vector
    0 under each header layout, and a vector read into an integer local
    ([mac_size], [index], [bits], [id.key_id], ...).  Byte buffers are opaque:
    only their lengths matter to the partition. *)
Record psa_invec : Type := {
  vec_crypto_ipc : psa_crypto_ipc_t;
  vec_asymmetric : psa_crypto_ipc_asymmetric_t;
  vec_aead : psa_crypto_ipc_aead_t;
  vec_key_mng : psa_key_mng_ipc_t;
  vec_derivation : psa_crypto_derivation_ipc_t;
  vec_word : nat -> Z
}.

(** [psa_msg_t], together with the input vectors reachable through
    [msg->handle]. *)
Record psa_msg_t : Type := {
  msg_type : psa_ipc_type;
  msg_handle : Z;
  client_id : Z;
  rhandle : Z;
  msg_in_size : list Z;
  msg_out_size : list Z;
  msg_in_vec : psa_invec
}.

Definition in_size (msg : psa_msg_t) (i : nat) : Z := nth i (msg_in_size msg) 0.
Definition out_size (msg : psa_msg_t) (i : nat) : Z := nth i (msg_out_size msg) 0.

(** The null pointer. *)
Definition NULL : Z := 0.

(** ** Calls that leave the partition *)

(** Crypto Engine entry points, with the arguments the partition passes
    (operation contexts and buffers by address or length). *)
Inductive engine_call : Type :=
| psa_crypto_init
| mbedtls_psa_crypto_free
| psa_mac_sign_setup (operation handle alg : Z)
| psa_mac_verify_setup (operation handle alg : Z)
| psa_mac_update (operation input_length : Z)
| psa_mac_sign_finish (operation mac_size : Z)
| psa_mac_verify_finish (operation mac_length : Z)
| psa_mac_abort (operation : Z)
| psa_hash_setup (operation alg : Z)
| psa_hash_update (operation input_length : Z)
| psa_hash_finish (operation hash_size : Z)
| psa_hash_verify (operation hash_length : Z)
| psa_hash_abort (operation : Z)
| psa_hash_clone (source_operation target_operation : Z)
| psa_asymmetric_sign (handle alg hash_size signature_size : Z)
| psa_asymmetric_verify (handle alg hash_size signature_size : Z)
| psa_asymmetric_encrypt (handle alg input_length salt_length output_size : Z)
| psa_asymmetric_decrypt (handle alg input_length salt_length output_size : Z)
| psa_aead_encrypt (handle alg nonce_size additional_data_length input_length output_size : Z)
| psa_aead_decrypt (handle alg nonce_size additional_data_length input_length output_size : Z)
| psa_cipher_encrypt_setup (operation handle alg : Z)
| psa_cipher_decrypt_setup (operation handle alg : Z)
| psa_cipher_generate_iv (operation iv_size : Z)
| psa_cipher_set_iv (operation iv_length : Z)
| psa_cipher_update (operation input_size output_size : Z)
| psa_cipher_finish (operation output_size : Z)
| psa_cipher_abort (operation : Z)
| psa_get_key_lifetime (handle : Z)
| psa_set_key_policy (handle : Z)
| psa_get_key_policy (handle : Z)
| psa_import_key (handle type key_length : Z)
| psa_destroy_key (handle : Z)
| psa_get_key_information (handle : Z)
| psa_export_key (handle key_length : Z)
| psa_export_public_key (handle key_length : Z)
| psa_generate_key (handle type bits parameter parameter_size : Z)
| psa_allocate_key
| psa_create_key (lifetime owner key_id : Z)
| psa_open_key (lifetime owner key_id : Z)
| psa_close_key (handle : Z)
| mbedtls_psa_inject_entropy (seed_size : Z)
| psa_generate_random (random_size : Z)
| psa_get_generator_capacity (generator : Z)
| psa_generator_read (generator output_length : Z)
| psa_generator_import_key (handle type bits generator : Z)
| psa_generator_abort (generator : Z)
| psa_key_derivation (generator handle alg salt_length label_length capacity : Z)
| psa_key_agreement (generator handle private_key_length alg : Z).

(** What an engine call hands back: its status and the values it stores
    through its output pointers (a length, a handle, a lifetime, a key type;
    [er_out2] is the second output of [psa_get_key_information]). *)
Record engine_result : Type := {
  er_status : psa_status_t;
  er_out : Z;
  er_out2 : Z
}.

(** Calls into the access control module. *)
Inductive access_call : Type :=
| access_init
| access_destroy
| access_register (key_handle pid : Z)
| access_unregister (key_handle : Z).

(** What [psa_write] copies out: an integer local or an opaque buffer. *)
Inductive write_data : Type :=
| WValue (v : Z)
| WBuffer.

(** ** The hash clone slot pool *)

Record psa_spm_hash_clone_t : Type := {
  partition_id : Z;
  source_operation : Z;
  ref_count : Z
}.

#[global] Instance psa_spm_hash_clone_eq_dec : EqDecision psa_spm_hash_clone_t.
Proof. solve_decision. Defined.

(** A slot after [memset(.., 0, ..)]. *)
Definition zero_clone : psa_spm_hash_clone_t :=
  {| partition_id := 0; source_operation := NULL; ref_count := 0 |}.

(** The array [psa_spm_hash_clones] is a list; its length is
    [MAX_CONCURRENT_HASH_CLONES]. *)
Abbreviation hash_clones := (list psa_spm_hash_clone_t).

(** The log.  The newest event is at the head of the list.  [EvClones] is
    not a call that leaves the partition: it records an operation of the
    partition on its clone pool ([memset], [reserve_hash_clone],
    [release_hash_clone], [destroy_hash_clone]) with the pool that the
    operation leaves, so that the log orders those operations with the calls
    around them. *)
Inductive Event : Type :=
| EvEngine (c : engine_call)
| EvRead (handle : Z) (index : nat) (size bytes_read : Z)
| EvWrite (handle : Z) (index : nat) (data : write_data) (len : Z)
| EvReply (handle : Z) (status : psa_status_t)
| EvSetRhandle (handle p : Z)
| EvCalloc (size p : Z)
| EvFree (p : Z)
| EvAccess (c : access_call)
| EvWait (signals : list psa_signal_t)
| EvGet (signal : psa_signal_t) (delivered : bool)
| EvClones (clones : hash_clones).

(** ** The environment of the partition

    Sizes and build options that come from headers outside the partition, and
    the collaborators, each answering from the log so far. *)
Record Env : Type := {
  sizeof_size_t : Z;
  sizeof_psa_key_type_t : Z;
  sizeof_psa_key_mng_ipc_t : Z;
  sizeof_psa_crypto_derivation_ipc_t : Z;
  sizeof_psa_mac_operation_t : Z;
  sizeof_psa_hash_operation_t : Z;
  sizeof_psa_cipher_operation_t : Z;
  sizeof_psa_crypto_generator_t : Z;
  PSA_KEY_TYPE_RSA_KEYPAIR : Z;
  MBEDTLS_ENTROPY_MAX_SEED_SIZE : Z;
  (** [MBEDTLS_ENTROPY_NV_SEED && MBEDTLS_PSA_HAS_ITS_IO] *)
  entropy_injection_built : bool;
  (** the value an automatic variable holds before its first assignment *)
  indeterminate_status : psa_status_t;
  indeterminate_index : Z;
  crypto_engine : list Event -> engine_call -> engine_result;
  channel_read : list Event -> Z -> nat -> Z -> Z;
  channel_get : list Event -> psa_signal_t -> option psa_msg_t;
  channel_wait : list Event -> list psa_signal_t;
  allocator : list Event -> Z -> Z
}.

(** [sizeof(psa_key_handle_t)]: [psa_key_handle_t] is [uint16_t]
    (crypto_platform.h). *)
Definition sizeof_psa_key_handle_t : Z := 2.

(** [MAX_DATA_CHUNK_SIZE_IN_BYTES], the default of the file. *)
Definition MAX_DATA_CHUNK_SIZE_IN_BYTES : Z := 400.

Definition CLIENT_PSA_KEY_ID_SIZE_IN_BYTES : Z := 4.

(** The [MIN] macro. *)
Definition MIN (a b : Z) : Z := if decide (a < b) then a else b.

(** [int] on the target: 32 bits, two's complement.  The counter of init
    requests is an [int]; an increment past [INT_MAX] is undefined in C, and
    the model takes the wrap of the target for it. *)
Definition INT_MAX : Z := 2 ^ 31 - 1.
Definition int_wrap (x : Z) : Z := (x + 2 ^ 31) mod 2 ^ 32 - 2 ^ 31.

(** [uint8_t] arithmetic wraps modulo 256. *)
Definition uint8 (x : Z) : Z := x mod 256.

(** *** The operations on the pool *)

(** [reserve_hash_clone].  Each [for] loop stops at the first index whose
    slot passes its test, which is what [list_find] returns.  The result is
    the status, the value left in [*index], and the pool. *)
Definition reserve_hash_clone (pid src : Z) (clones : hash_clones)
  : psa_status_t * nat * hash_clones :=
  match list_find (λ c, partition_id c = pid ∧ source_operation c = src) clones with
  | Some (index, c) =>
      (PSA_SUCCESS, index,
       <[index := {| partition_id := partition_id c;
                     source_operation := source_operation c;
                     ref_count := uint8 (ref_count c + 1) |}]> clones)
  | None =>
      match list_find (λ c, partition_id c = 0 ∧ source_operation c = NULL) clones with
      | Some (index, c) =>
          (PSA_SUCCESS, index,
           <[index := {| partition_id := pid;
                         source_operation := src;
                         ref_count := uint8 (ref_count c + 1) |}]> clones)
      | None => (PSA_ERROR_BAD_STATE, length clones, clones)
      end
  end.

(** The body of [release_hash_clone] on the slot it is given. *)
Definition release_slot (c : psa_spm_hash_clone_t) : psa_spm_hash_clone_t :=
  let r := uint8 (ref_count c - 1) in
  if decide (r = 0) then zero_clone
  else {| partition_id := partition_id c;
          source_operation := source_operation c;
          ref_count := r |}.

(** [release_hash_clone], the slot pointer being the index of the slot. *)
Definition release_hash_clone (hash_clone : nat) (clones : hash_clones) : hash_clones :=
  alter release_slot hash_clone clones.

(** [destroy_hash_clone]: the first slot holding the source is cleared, and
    the loop breaks. *)
Definition destroy_hash_clone (src : Z) (clones : hash_clones) : hash_clones :=
  match list_find (λ c, source_operation c = src) clones with
  | Some (i, _) => <[i := zero_clone]> clones
  | None => clones
  end.

(** [get_hash_clone]: the status, and the slot pointer on success.  [index]
    is a [size_t], so it is never negative. *)
Definition get_hash_clone (index pid : Z) (clones : hash_clones)
  : psa_status_t * option nat :=
  if decide (Z.of_nat (length clones) <= index) then (PSA_ERROR_BAD_STATE, None)
  else
    match clones !! Z.to_nat index with
    | Some c =>
        if decide (partition_id c ≠ pid) then (PSA_ERROR_BAD_STATE, None)
        else if decide (source_operation c = NULL) then (PSA_ERROR_BAD_STATE, None)
        else (PSA_SUCCESS, Some (Z.to_nat index))
    | None => (PSA_ERROR_BAD_STATE, None)
    end.

(** ** The access control registry *)

(** Modelled from the spec: the access control module is declared in
    psa_crypto_access_control.h; its definitions are not in the partition.
    The registry maps a key handle to the identity of its owner. *)
Definition registry_init : gmap Z Z := ∅.

(** Modelled from the spec: the registry of psa_crypto_access_control_destroy,
    whose definition is missing, holds no record. *)
Definition registry_destroy : gmap Z Z := ∅.

(** Modelled from the spec: psa_crypto_access_control_register_handle, whose
    definition is missing, records ownership unconditionally. *)
Definition register_handle (key_handle pid : Z) (reg : gmap Z Z) : gmap Z Z :=
  <[key_handle := pid]> reg.

(** Modelled from the spec: psa_crypto_access_control_unregister_handle, whose
    definition is missing, removes the record. *)
Definition unregister_handle (key_handle : Z) (reg : gmap Z Z) : gmap Z Z :=
  delete key_handle reg.

(** Modelled from the spec: psa_crypto_access_control_is_handle_permitted,
    whose definition is missing, holds iff a record exists for the handle
    whose owner is the caller. *)
Definition is_handle_permitted (key_handle pid : Z) (reg : gmap Z Z) : bool :=
  bool_decide (reg !! key_handle = Some pid).

(** ** The state of the partition and the monad of its code *)

Record World : Type := {
  psa_spm_init_refence_counter : Z;
  psa_spm_hash_clones : hash_clones;
  access_control : gmap Z Z;
  trace : list Event
}.

(** A handler returns, or the process stops in [SPM_PANIC]; a loop of the
    model that is cut short by its bound ends in [OutOfFuel]. *)
Inductive outcome (A : Type) : Type :=
| Done (a : A) (w : World)
| Panicked (w : World)
| OutOfFuel.
Arguments Done {A} a w.
Arguments Panicked {A} w.
Arguments OutOfFuel {A}.

Definition M (A : Type) : Type := World -> outcome A.

Definition ret {A} (a : A) : M A := fun w => Done a w.

Definition bind {A B} (m : M A) (k : A -> M B) : M B :=
  fun w => match m w with
           | Done a w' => k a w'
           | Panicked w' => Panicked w'
           | OutOfFuel => OutOfFuel
           end.

Notation "x <- c ;; k" := (bind c (fun x => k))
  (at level 100, c at next level, right associativity).
Notation "c ;;; k" := (bind c (fun _ => k))
  (at level 100, right associativity).

Definition SPM_PANIC {A} : M A := fun w => Panicked w.

Definition log (e : Event) (w : World) : World :=
  {| psa_spm_init_refence_counter := psa_spm_init_refence_counter w;
     psa_spm_hash_clones := psa_spm_hash_clones w;
     access_control := access_control w;
     trace := e :: trace w |}.

Definition set_clones (clones : hash_clones) (w : World) : World :=
  {| psa_spm_init_refence_counter := psa_spm_init_refence_counter w;
     psa_spm_hash_clones := clones;
     access_control := access_control w;
     trace := trace w |}.

Definition set_counter (n : Z) (w : World) : World :=
  {| psa_spm_init_refence_counter := n;
     psa_spm_hash_clones := psa_spm_hash_clones w;
     access_control := access_control w;
     trace := trace w |}.

Definition set_access (reg : gmap Z Z) (w : World) : World :=
  {| psa_spm_init_refence_counter := psa_spm_init_refence_counter w;
     psa_spm_hash_clones := psa_spm_hash_clones w;
     access_control := reg;
     trace := trace w |}.

(** ** The partition *)

Section Partition.

Context (env : Env).

(** *** Calls to the collaborators *)

Definition emit (e : Event) : M unit := fun w => Done tt (log e w).

Definition engine (c : engine_call) : M engine_result :=
  fun w => Done (crypto_engine env (trace w) c) (log (EvEngine c) w).

Definition engine_status (c : engine_call) : M psa_status_t :=
  r <- engine c ;; ret (er_status r).

Definition psa_read (handle : Z) (index : nat) (size : Z) : M Z :=
  fun w => let bytes_read := channel_read env (trace w) handle index size in
           Done bytes_read (log (EvRead handle index size bytes_read) w).

Definition psa_write (handle : Z) (index : nat) (data : write_data) (len : Z) : M unit :=
  emit (EvWrite handle index data len).

Definition psa_reply (handle : Z) (status : psa_status_t) : M unit :=
  emit (EvReply handle status).

Definition psa_set_rhandle (handle p : Z) : M unit :=
  emit (EvSetRhandle handle p).

Definition psa_wait : M (list psa_signal_t) :=
  fun w => let signal := channel_wait env (trace w) in
           Done signal (log (EvWait signal) w).

Definition psa_get (signal : psa_signal_t) : M (option psa_msg_t) :=
  fun w => let got := channel_get env (trace w) signal in
           Done got (log (EvGet signal (bool_decide (is_Some got))) w).

(** [mbedtls_calloc(1, size)] *)
Definition mbedtls_calloc (size : Z) : M Z :=
  fun w => let p := allocator env (trace w) size in
           Done p (log (EvCalloc size p) w).

Definition mbedtls_free (p : Z) : M unit := emit (EvFree p).

Definition psa_crypto_access_control_init : M unit :=
  fun w => Done tt (log (EvAccess access_init) (set_access registry_init w)).

Definition psa_crypto_access_control_destroy : M unit :=
  fun w => Done tt (log (EvAccess access_destroy) (set_access registry_destroy w)).

Definition psa_crypto_access_control_register_handle (key_handle pid : Z) : M unit :=
  fun w => Done tt (log (EvAccess (access_register key_handle pid))
                        (set_access (register_handle key_handle pid (access_control w)) w)).

Definition psa_crypto_access_control_unregister_handle (key_handle : Z) : M unit :=
  fun w => Done tt (log (EvAccess (access_unregister key_handle))
                        (set_access (unregister_handle key_handle (access_control w)) w)).

Definition psa_crypto_access_control_is_handle_permitted (key_handle pid : Z) : M bool :=
  fun w => Done (is_handle_permitted key_handle pid (access_control w)) w.

(** *** The globals *)

Definition get_clones : M hash_clones := fun w => Done (psa_spm_hash_clones w) w.
Definition put_clones (clones : hash_clones) : M unit :=
  fun w => Done tt (log (EvClones clones) (set_clones clones w)).
Definition get_counter : M Z := fun w => Done (psa_spm_init_refence_counter w) w.
Definition put_counter (n : Z) : M unit := fun w => Done tt (set_counter n w).

(** [memset(psa_spm_hash_clones, 0, sizeof(psa_spm_hash_clones))] *)
Definition memset_hash_clones : M unit :=
  clones <- get_clones ;; put_clones (replicate (length clones) zero_clone).

(** [destroy_hash_clone] on the global pool. *)
Definition do_destroy_hash_clone (src : Z) : M unit :=
  clones <- get_clones ;; put_clones (destroy_hash_clone src clones).

(** *** Internal helpers *)

(** What [read_message_param] leaves in a [size_t] local that was not
    initialised: the word of the vector when the vector has the size of the
    local, and otherwise a value that the message does not determine, since
    a shorter vector leaves bytes of the local as they were. *)
Definition read_size_t (msg : psa_msg_t) (param_index : nat) : Z :=
  if decide (in_size msg param_index = sizeof_size_t env) then
    vec_word (msg_in_vec msg) param_index
  else indeterminate_index env.

Definition read_message_param (msg : psa_msg_t) (param_index : nat) : M unit :=
  bytes_read <- psa_read (msg_handle msg) param_index (in_size msg param_index) ;;
  if decide (bytes_read ≠ in_size msg param_index) then SPM_PANIC else ret tt.

(** The [while (data_remaining > 0)] loop of [PSA_MAC_UPDATE] and
    [PSA_HASH_UPDATE]; [sink] is [psa_mac_update] or [psa_hash_update] on the
    connection's context and [status] is the value of the local before the
    loop.  The loop is bounded by [fuel]. *)
Fixpoint update_loop (sink : Z -> engine_call) (msg : psa_msg_t) (fuel : nat)
    (data_remaining : Z) (status : psa_status_t) : M psa_status_t :=
  if decide (data_remaining > 0) then
    match fuel with
    | O => fun _ => OutOfFuel
    | S fuel' =>
        let size_to_read := MIN data_remaining MAX_DATA_CHUNK_SIZE_IN_BYTES in
        bytes_read <- psa_read (msg_handle msg) 1 size_to_read ;;
        if decide (bytes_read ≠ size_to_read) then SPM_PANIC
        else
          status <- engine_status (sink bytes_read) ;;
          if decide (status ≠ PSA_SUCCESS) then ret status
          else update_loop sink msg fuel' (data_remaining - bytes_read) status
    end
  else ret status.

(** The whole case: allocation of the scratch buffer, the loop, the release
    of the buffer.  Each turn of the loop consumes at least one byte, so
    [data_remaining] turns are enough. *)
Definition chunked_update (sink : Z -> engine_call) (msg : psa_msg_t) : M psa_status_t :=
  let data_remaining := in_size msg 1 in
  input_buffer <- mbedtls_calloc (MIN data_remaining MAX_DATA_CHUNK_SIZE_IN_BYTES) ;;
  if decide (input_buffer = NULL) then ret PSA_ERROR_INSUFFICIENT_MEMORY
  else
    status <- update_loop sink msg (Z.to_nat data_remaining) data_remaining
                (indeterminate_status env) ;;
    mbedtls_free input_buffer ;;;
    ret status.

(** *** Crypto lifecycle *)

(** The counter is an [int]: [++psa_spm_init_refence_counter] is the
    increment of [int]. *)
Definition crypto_init_on_call (msg : psa_msg_t) : M psa_status_t :=
  status <- engine_status psa_crypto_init ;;
  (if decide (status = PSA_SUCCESS) then
     n <- get_counter ;;
     put_counter (int_wrap (n + 1)) ;;;
     if decide (int_wrap (n + 1) = 1) then
       memset_hash_clones ;;;
       psa_crypto_access_control_init
     else ret tt
   else ret tt) ;;;
  ret status.

Definition crypto_free_on_call (msg : psa_msg_t) : M psa_status_t :=
  n <- get_counter ;;
  (if decide (n > 0) then put_counter (n - 1) else ret tt) ;;;
  n <- get_counter ;;
  (if decide (n = 0) then
     memset_hash_clones ;;;
     psa_crypto_access_control_destroy ;;;
     engine mbedtls_psa_crypto_free ;;;
     ret tt
   else ret tt) ;;;
  ret PSA_SUCCESS.

(** *** MAC *)

Definition mac_on_connect (msg : psa_msg_t) : M psa_status_t :=
  operation <- mbedtls_calloc (sizeof_psa_mac_operation_t env) ;;
  if decide (operation = NULL) then ret PSA_ERROR_INSUFFICIENT_MEMORY
  else psa_set_rhandle (msg_handle msg) operation ;;; ret PSA_SUCCESS.

Definition mac_on_call (msg : psa_msg_t) : M psa_status_t :=
  read_message_param msg 0 ;;;
  let crypto_ipc := vec_crypto_ipc (msg_in_vec msg) in
  match ipc_func crypto_ipc with
  | PSA_MAC_SIGN_SETUP =>
      permitted <- psa_crypto_access_control_is_handle_permitted
                     (ipc_handle crypto_ipc) (client_id msg) ;;
      if negb permitted then ret PSA_ERROR_INVALID_HANDLE
      else engine_status (psa_mac_sign_setup (rhandle msg) (ipc_handle crypto_ipc)
                            (ipc_alg crypto_ipc))
  | PSA_MAC_VERIFY_SETUP =>
      permitted <- psa_crypto_access_control_is_handle_permitted
                     (ipc_handle crypto_ipc) (client_id msg) ;;
      if negb permitted then ret PSA_ERROR_INVALID_HANDLE
      else engine_status (psa_mac_verify_setup (rhandle msg) (ipc_handle crypto_ipc)
                            (ipc_alg crypto_ipc))
  | PSA_MAC_UPDATE => chunked_update (psa_mac_update (rhandle msg)) msg
  | PSA_MAC_SIGN_FINISH =>
      read_message_param msg 1 ;;;
      let mac_size := vec_word (msg_in_vec msg) 1 in
      mac <- mbedtls_calloc mac_size ;;
      if decide (mac = NULL) then ret PSA_ERROR_INSUFFICIENT_MEMORY
      else
        r <- engine (psa_mac_sign_finish (rhandle msg) mac_size) ;;
        let mac_length := er_out r in
        (if decide (er_status r = PSA_SUCCESS) then
           psa_write (msg_handle msg) 0 WBuffer mac_length ;;;
           psa_write (msg_handle msg) 1 (WValue mac_length) (sizeof_size_t env)
         else ret tt) ;;;
        mbedtls_free mac ;;;
        ret (er_status r)
  | PSA_MAC_VERIFY_FINISH =>
      read_message_param msg 1 ;;;
      let mac_length := vec_word (msg_in_vec msg) 1 in
      mac <- mbedtls_calloc mac_length ;;
      if decide (mac = NULL) then ret PSA_ERROR_INSUFFICIENT_MEMORY
      else
        read_message_param msg 2 ;;;
        status <- engine_status (psa_mac_verify_finish (rhandle msg) mac_length) ;;
        mbedtls_free mac ;;;
        ret status
  | PSA_MAC_ABORT => engine_status (psa_mac_abort (rhandle msg))
  | _ => ret PSA_ERROR_NOT_SUPPORTED
  end.

Definition mac_on_disconnect (msg : psa_msg_t) : M psa_status_t :=
  engine (psa_mac_abort (rhandle msg)) ;;;
  (if decide (rhandle msg ≠ NULL) then mbedtls_free (rhandle msg) else ret tt) ;;;
  ret PSA_SUCCESS.

(** *** Hash *)

Definition hash_on_connect (msg : psa_msg_t) : M psa_status_t :=
  operation <- mbedtls_calloc (sizeof_psa_hash_operation_t env) ;;
  if decide (operation = NULL) then ret PSA_ERROR_INSUFFICIENT_MEMORY
  else psa_set_rhandle (msg_handle msg) operation ;;; ret PSA_SUCCESS.

Definition hash_on_call (msg : psa_msg_t) : M psa_status_t :=
  read_message_param msg 0 ;;;
  let crypto_ipc := vec_crypto_ipc (msg_in_vec msg) in
  match ipc_func crypto_ipc with
  | PSA_HASH_SETUP => engine_status (psa_hash_setup (rhandle msg) (ipc_alg crypto_ipc))
  | PSA_HASH_UPDATE => chunked_update (psa_hash_update (rhandle msg)) msg
  | PSA_HASH_FINISH =>
      read_message_param msg 1 ;;;
      let hash_size := vec_word (msg_in_vec msg) 1 in
      hash <- mbedtls_calloc hash_size ;;
      if decide (hash = NULL) then ret PSA_ERROR_INSUFFICIENT_MEMORY
      else
        r <- engine (psa_hash_finish (rhandle msg) hash_size) ;;
        let hash_length := er_out r in
        (if decide (er_status r = PSA_SUCCESS) then
           psa_write (msg_handle msg) 0 WBuffer hash_length ;;;
           psa_write (msg_handle msg) 1 (WValue hash_length) (sizeof_size_t env)
         else ret tt) ;;;
        mbedtls_free hash ;;;
        do_destroy_hash_clone (rhandle msg) ;;;
        ret (er_status r)
  | PSA_HASH_VERIFY =>
      read_message_param msg 1 ;;;
      let hash_length := vec_word (msg_in_vec msg) 1 in
      hash <- mbedtls_calloc hash_length ;;
      if decide (hash = NULL) then ret PSA_ERROR_INSUFFICIENT_MEMORY
      else
        read_message_param msg 2 ;;;
        status <- engine_status (psa_hash_verify (rhandle msg) hash_length) ;;
        mbedtls_free hash ;;;
        do_destroy_hash_clone (rhandle msg) ;;;
        ret status
  | PSA_HASH_ABORT =>
      status <- engine_status (psa_hash_abort (rhandle msg)) ;;
      do_destroy_hash_clone (rhandle msg) ;;;
      ret status
  | PSA_HASH_CLONE_BEGIN =>
      clones <- get_clones ;;
      let '(status, index, clones') :=
        reserve_hash_clone (client_id msg) (rhandle msg) clones in
      put_clones clones' ;;;
      (if decide (status = PSA_SUCCESS) then
         psa_write (msg_handle msg) 0 (WValue (Z.of_nat index)) (sizeof_size_t env)
       else ret tt) ;;;
      ret status
  | PSA_HASH_CLONE_END =>
      read_message_param msg 1 ;;;
      let index := read_size_t msg 1 in
      clones <- get_clones ;;
      match get_hash_clone index (client_id msg) clones with
      | (PSA_SUCCESS, Some hash_clone) =>
          let src := default zero_clone (clones !! hash_clone) in
          status <- engine_status (psa_hash_clone (source_operation src) (rhandle msg)) ;;
          clones <- get_clones ;;
          put_clones (release_hash_clone hash_clone clones) ;;;
          ret status
      | (status, _) => ret status
      end
  | _ => ret PSA_ERROR_NOT_SUPPORTED
  end.

Definition hash_on_disconnect (msg : psa_msg_t) : M psa_status_t :=
  engine (psa_hash_abort (rhandle msg)) ;;;
  (if decide (rhandle msg ≠ NULL) then
     do_destroy_hash_clone (rhandle msg) ;;;
     mbedtls_free (rhandle msg)
   else ret tt) ;;;
  ret PSA_SUCCESS.

(** *** Asymmetric *)

Definition asymmetric_on_call (msg : psa_msg_t) : M psa_status_t :=
  read_message_param msg 0 ;;;
  let crypto_ipc := vec_asymmetric (msg_in_vec msg) in
  permitted <- psa_crypto_access_control_is_handle_permitted
                 (asym_handle crypto_ipc) (client_id msg) ;;
  if negb permitted then ret PSA_ERROR_INVALID_HANDLE
  else
    match asym_func crypto_ipc with
    | PSA_ASYMMETRIC_SIGN =>
        let signature_size := out_size msg 0 in
        let hash_size := in_size msg 1 in
        signature <- mbedtls_calloc signature_size ;;
        if decide (signature = NULL) then ret PSA_ERROR_INSUFFICIENT_MEMORY
        else
          hash <- mbedtls_calloc hash_size ;;
          if decide (hash = NULL) then
            mbedtls_free signature ;;; ret PSA_ERROR_INSUFFICIENT_MEMORY
          else
            read_message_param msg 1 ;;;
            r <- engine (psa_asymmetric_sign (asym_handle crypto_ipc) (asym_alg crypto_ipc)
                           hash_size signature_size) ;;
            let signature_length := er_out r in
            (if decide (er_status r = PSA_SUCCESS) then
               psa_write (msg_handle msg) 0 WBuffer signature_length
             else ret tt) ;;;
            psa_write (msg_handle msg) 1 (WValue signature_length) (sizeof_size_t env) ;;;
            mbedtls_free hash ;;;
            mbedtls_free signature ;;;
            ret (er_status r)
    | PSA_ASYMMETRIC_VERIFY =>
        let signature_size := in_size msg 1 in
        let hash_size := in_size msg 2 in
        signature <- mbedtls_calloc signature_size ;;
        if decide (signature = NULL) then ret PSA_ERROR_INSUFFICIENT_MEMORY
        else
          hash <- mbedtls_calloc hash_size ;;
          if decide (hash = NULL) then
            mbedtls_free signature ;;; ret PSA_ERROR_INSUFFICIENT_MEMORY
          else
            read_message_param msg 1 ;;;
            read_message_param msg 2 ;;;
            status <- engine_status (psa_asymmetric_verify (asym_handle crypto_ipc)
                                       (asym_alg crypto_ipc) hash_size signature_size) ;;
            mbedtls_free signature ;;;
            mbedtls_free hash ;;;
            ret status
    | PSA_ASYMMETRIC_ENCRYPT | PSA_ASYMMETRIC_DECRYPT =>
        let output_size := out_size msg 0 in
        buffer <- mbedtls_calloc (in_size msg 1) ;;
        if decide (buffer = NULL) then ret PSA_ERROR_INSUFFICIENT_MEMORY
        else
          output <- mbedtls_calloc output_size ;;
          if decide (output = NULL) then
            mbedtls_free buffer ;;; ret PSA_ERROR_INSUFFICIENT_MEMORY
          else
            read_message_param msg 1 ;;;
            r <- engine
                   (if decide (asym_func crypto_ipc = PSA_ASYMMETRIC_ENCRYPT) then
                      psa_asymmetric_encrypt (asym_handle crypto_ipc) (asym_alg crypto_ipc)
                        (asym_input_length crypto_ipc) (asym_salt_length crypto_ipc) output_size
                    else
                      psa_asymmetric_decrypt (asym_handle crypto_ipc) (asym_alg crypto_ipc)
                        (asym_input_length crypto_ipc) (asym_salt_length crypto_ipc) output_size) ;;
            let output_length := er_out r in
            (if decide (er_status r = PSA_SUCCESS) then
               psa_write (msg_handle msg) 0 WBuffer output_length
             else ret tt) ;;;
            psa_write (msg_handle msg) 1 (WValue output_length) (sizeof_size_t env) ;;;
            mbedtls_free output ;;;
            mbedtls_free buffer ;;;
            ret (er_status r)
    | _ => ret PSA_ERROR_NOT_SUPPORTED
    end.

(** *** AEAD *)

Definition aead_on_call (msg : psa_msg_t) : M psa_status_t :=
  read_message_param msg 0 ;;;
  let crypto_ipc := vec_aead (msg_in_vec msg) in
  permitted <- psa_crypto_access_control_is_handle_permitted
                 (aead_handle crypto_ipc) (client_id msg) ;;
  if negb permitted then ret PSA_ERROR_INVALID_HANDLE
  else
    match aead_func crypto_ipc with
    | PSA_AEAD_ENCRYPT | PSA_AEAD_DECRYPT =>
        let output_size := out_size msg 0 in
        buffer <- mbedtls_calloc (in_size msg 1) ;;
        if decide (buffer = NULL) then ret PSA_ERROR_INSUFFICIENT_MEMORY
        else
          output <- mbedtls_calloc output_size ;;
          if decide (output = NULL) then
            mbedtls_free buffer ;;; ret PSA_ERROR_INSUFFICIENT_MEMORY
          else
            read_message_param msg 1 ;;;
            r <- engine
                   (if decide (aead_func crypto_ipc = PSA_AEAD_ENCRYPT) then
                      psa_aead_encrypt (aead_handle crypto_ipc) (aead_alg crypto_ipc)
                        (aead_nonce_size crypto_ipc) (aead_additional_data_length crypto_ipc)
                        (aead_input_length crypto_ipc) output_size
                    else
                      psa_aead_decrypt (aead_handle crypto_ipc) (aead_alg crypto_ipc)
                        (aead_nonce_size crypto_ipc) (aead_additional_data_length crypto_ipc)
                        (aead_input_length crypto_ipc) output_size) ;;
            let output_length := er_out r in
            (if decide (er_status r = PSA_SUCCESS) then
               psa_write (msg_handle msg) 0 WBuffer output_length ;;;
               psa_write (msg_handle msg) 1 (WValue output_length) (sizeof_size_t env)
             else ret tt) ;;;
            mbedtls_free buffer ;;;
            mbedtls_free output ;;;
            ret (er_status r)
    | _ => ret PSA_ERROR_NOT_SUPPORTED
    end.

(** *** Symmetric cipher *)

Definition symmetric_on_connect (msg : psa_msg_t) : M psa_status_t :=
  operation <- mbedtls_calloc (sizeof_psa_cipher_operation_t env) ;;
  if decide (operation = NULL) then ret PSA_ERROR_INSUFFICIENT_MEMORY
  else psa_set_rhandle (msg_handle msg) operation ;;; ret PSA_SUCCESS.

Definition symmetric_on_call (msg : psa_msg_t) : M psa_status_t :=
  read_message_param msg 0 ;;;
  let crypto_ipc := vec_crypto_ipc (msg_in_vec msg) in
  match ipc_func crypto_ipc with
  | PSA_CIPHER_ENCRYPT_SETUP =>
      permitted <- psa_crypto_access_control_is_handle_permitted
                     (ipc_handle crypto_ipc) (client_id msg) ;;
      if negb permitted then ret PSA_ERROR_INVALID_HANDLE
      else engine_status (psa_cipher_encrypt_setup (rhandle msg) (ipc_handle crypto_ipc)
                            (ipc_alg crypto_ipc))
  | PSA_CIPHER_DECRYPT_SETUP =>
      permitted <- psa_crypto_access_control_is_handle_permitted
                     (ipc_handle crypto_ipc) (client_id msg) ;;
      if negb permitted then ret PSA_ERROR_INVALID_HANDLE
      else engine_status (psa_cipher_decrypt_setup (rhandle msg) (ipc_handle crypto_ipc)
                            (ipc_alg crypto_ipc))
  | PSA_CIPHER_GENERATE_IV =>
      r <- engine (psa_cipher_generate_iv (rhandle msg) (out_size msg 0)) ;;
      let iv_length := er_out r in
      (if decide (er_status r = PSA_SUCCESS) then
         psa_write (msg_handle msg) 0 WBuffer iv_length ;;;
         psa_write (msg_handle msg) 1 (WValue iv_length) (sizeof_size_t env)
       else ret tt) ;;;
      ret (er_status r)
  | PSA_CIPHER_SET_IV =>
      read_message_param msg 1 ;;;
      engine_status (psa_cipher_set_iv (rhandle msg) (in_size msg 1))
  | PSA_CIPHER_UPDATE =>
      let input_size := in_size msg 1 in
      let output_size := out_size msg 0 in
      input <- mbedtls_calloc input_size ;;
      if decide (input = NULL) then ret PSA_ERROR_INSUFFICIENT_MEMORY
      else
        output <- mbedtls_calloc output_size ;;
        if decide (output = NULL) then
          mbedtls_free input ;;; ret PSA_ERROR_INSUFFICIENT_MEMORY
        else
          read_message_param msg 1 ;;;
          r <- engine (psa_cipher_update (rhandle msg) input_size output_size) ;;
          let output_length := er_out r in
          (if decide (er_status r = PSA_SUCCESS) then
             psa_write (msg_handle msg) 0 WBuffer output_length ;;;
             psa_write (msg_handle msg) 1 (WValue output_length) (sizeof_size_t env)
           else ret tt) ;;;
          mbedtls_free input ;;;
          mbedtls_free output ;;;
          ret (er_status r)
  | PSA_CIPHER_FINISH =>
      let output_size := out_size msg 0 in
      output <- mbedtls_calloc output_size ;;
      if decide (output = NULL) then ret PSA_ERROR_INSUFFICIENT_MEMORY
      else
        r <- engine (psa_cipher_finish (rhandle msg) output_size) ;;
        let output_length := er_out r in
        (if decide (er_status r = PSA_SUCCESS) then
           psa_write (msg_handle msg) 0 WBuffer output_length ;;;
           psa_write (msg_handle msg) 1 (WValue output_length) (sizeof_size_t env)
         else ret tt) ;;;
        mbedtls_free output ;;;
        ret (er_status r)
  | PSA_CIPHER_ABORT => engine_status (psa_cipher_abort (rhandle msg))
  | _ => ret PSA_ERROR_NOT_SUPPORTED
  end.

Definition symmetric_on_disconnect (msg : psa_msg_t) : M psa_status_t :=
  engine (psa_cipher_abort (rhandle msg)) ;;;
  (if decide (rhandle msg ≠ NULL) then mbedtls_free (rhandle msg) else ret tt) ;;;
  ret PSA_SUCCESS.

(** *** Key management *)

(** The inner [switch (psa_key_mng.func)] of [psa_key_management_operation];
    [bytes_read] checks that end in [SPM_PANIC] are kept as written. *)
Definition key_management_call (msg : psa_msg_t) (psa_key_mng : psa_key_mng_ipc_t)
  : M psa_status_t :=
  let partition_id := client_id msg in
  let handle := mng_handle psa_key_mng in
  match mng_func psa_key_mng with
  | PSA_GET_KEY_LIFETIME =>
      let lifetime_length := out_size msg 0 in
      permitted <- psa_crypto_access_control_is_handle_permitted handle partition_id ;;
      if negb permitted then ret PSA_ERROR_INVALID_HANDLE
      else
        r <- engine (psa_get_key_lifetime handle) ;;
        (if decide (er_status r = PSA_SUCCESS) then
           psa_write (msg_handle msg) 0 (WValue (er_out r)) lifetime_length
         else ret tt) ;;;
        ret (er_status r)
  | PSA_SET_KEY_POLICY =>
      let policy_length := in_size msg 1 in
      permitted <- psa_crypto_access_control_is_handle_permitted handle partition_id ;;
      if negb permitted then ret PSA_ERROR_INVALID_HANDLE
      else
        bytes_read <- psa_read (msg_handle msg) 1 policy_length ;;
        if decide (bytes_read ≠ policy_length) then SPM_PANIC
        else engine_status (psa_set_key_policy handle)
  | PSA_GET_KEY_POLICY =>
      let policy_size := out_size msg 0 in
      permitted <- psa_crypto_access_control_is_handle_permitted handle partition_id ;;
      if negb permitted then ret PSA_ERROR_INVALID_HANDLE
      else
        r <- engine (psa_get_key_policy handle) ;;
        (if decide (er_status r = PSA_SUCCESS) then
           psa_write (msg_handle msg) 0 WBuffer policy_size
         else ret tt) ;;;
        ret (er_status r)
  | PSA_IMPORT_KEY =>
      let key_length := in_size msg 1 in
      permitted <- psa_crypto_access_control_is_handle_permitted handle partition_id ;;
      if negb permitted then ret PSA_ERROR_INVALID_HANDLE
      else
        key <- mbedtls_calloc key_length ;;
        if decide (key = NULL) then ret PSA_ERROR_INSUFFICIENT_MEMORY
        else
          bytes_read <- psa_read (msg_handle msg) 1 key_length ;;
          if decide (bytes_read ≠ key_length) then SPM_PANIC
          else
            status <- engine_status (psa_import_key handle (mng_type psa_key_mng) key_length) ;;
            mbedtls_free key ;;;
            ret status
  | PSA_DESTROY_KEY =>
      permitted <- psa_crypto_access_control_is_handle_permitted handle partition_id ;;
      if negb permitted then ret PSA_ERROR_INVALID_HANDLE
      else
        status <- engine_status (psa_destroy_key handle) ;;
        (if decide (status = PSA_SUCCESS) then
           psa_crypto_access_control_unregister_handle handle
         else ret tt) ;;;
        ret status
  | PSA_GET_KEY_INFORMATION =>
      permitted <- psa_crypto_access_control_is_handle_permitted handle partition_id ;;
      info <-
        (if permitted then
           r <- engine (psa_get_key_information handle) ;;
           ret (er_status r, er_out r, er_out2 r)
         else ret (PSA_ERROR_INVALID_HANDLE, 0, 0)) ;;
      let '(status, type, bits) := info in
      (if decide (out_size msg 0 >= sizeof_psa_key_type_t env) then
         psa_write (msg_handle msg) 0 (WValue type) (sizeof_psa_key_type_t env)
       else ret tt) ;;;
      (if decide (out_size msg 1 >= sizeof_size_t env) then
         psa_write (msg_handle msg) 1 (WValue bits) (sizeof_size_t env)
       else ret tt) ;;;
      ret status
  | PSA_EXPORT_KEY =>
      let key_length := out_size msg 0 in
      permitted <- psa_crypto_access_control_is_handle_permitted handle partition_id ;;
      if negb permitted then ret PSA_ERROR_INVALID_HANDLE
      else
        key <- mbedtls_calloc key_length ;;
        if decide (key = NULL) then ret PSA_ERROR_INSUFFICIENT_MEMORY
        else
          r <- engine (psa_export_key handle key_length) ;;
          let data_length := er_out r in
          (if decide (er_status r = PSA_SUCCESS) then
             psa_write (msg_handle msg) 0 WBuffer data_length
           else ret tt) ;;;
          psa_write (msg_handle msg) 1 (WValue data_length) (sizeof_size_t env) ;;;
          mbedtls_free key ;;;
          ret (er_status r)
  | PSA_EXPORT_PUBLIC_KEY =>
      let key_length := out_size msg 0 in
      permitted <- psa_crypto_access_control_is_handle_permitted handle partition_id ;;
      if negb permitted then ret PSA_ERROR_INVALID_HANDLE
      else
        key <- mbedtls_calloc key_length ;;
        if decide (key = NULL) then ret PSA_ERROR_INSUFFICIENT_MEMORY
        else
          r <- engine (psa_export_public_key handle key_length) ;;
          let data_length := er_out r in
          (if decide (er_status r = PSA_SUCCESS) then
             psa_write (msg_handle msg) 0 WBuffer data_length
           else ret tt) ;;;
          psa_write (msg_handle msg) 1 (WValue data_length) (sizeof_size_t env) ;;;
          mbedtls_free key ;;;
          ret (er_status r)
  | PSA_GENERATE_KEY =>
      let bits_size := in_size msg 1 in
      let parameter_size := in_size msg 2 in
      permitted <- psa_crypto_access_control_is_handle_permitted handle partition_id ;;
      if negb permitted then ret PSA_ERROR_INVALID_HANDLE
      else
        bytes_read <- psa_read (msg_handle msg) 1 bits_size ;;
        if decide (bytes_read ≠ bits_size) then SPM_PANIC
        else
          let bits := vec_word (msg_in_vec msg) 1 in
          let generate (parameter : Z) : M psa_status_t :=
            status <- engine_status (psa_generate_key handle (mng_type psa_key_mng) bits
                                       parameter parameter_size) ;;
            mbedtls_free parameter ;;;
            ret status in
          if decide (PSA_KEY_TYPE_RSA_KEYPAIR env = mng_type psa_key_mng
                     ∧ parameter_size ≠ 0) then
            parameter <- mbedtls_calloc parameter_size ;;
            if decide (parameter = NULL) then ret PSA_ERROR_INSUFFICIENT_MEMORY
            else
              bytes_read <- psa_read (msg_handle msg) 2 parameter_size ;;
              if decide (bytes_read ≠ parameter_size) then SPM_PANIC
              else generate parameter
          else generate NULL
  | PSA_ALLOCATE_KEY =>
      r <- engine psa_allocate_key ;;
      let handle := er_out r in
      (if decide (er_status r = PSA_SUCCESS) then
         psa_crypto_access_control_register_handle handle partition_id ;;;
         psa_write (msg_handle msg) 0 (WValue handle) sizeof_psa_key_handle_t
       else ret tt) ;;;
      ret (er_status r)
  | PSA_CREATE_KEY =>
      bytes_read <- psa_read (msg_handle msg) 1 (in_size msg 1) ;;
      if decide (bytes_read ≠ in_size msg 1) then SPM_PANIC
      else if decide (in_size msg 1 ≠ CLIENT_PSA_KEY_ID_SIZE_IN_BYTES) then SPM_PANIC
      else
        r <- engine (psa_create_key (mng_lifetime psa_key_mng) (client_id msg)
                       (vec_word (msg_in_vec msg) 1)) ;;
        let handle := er_out r in
        (if decide (er_status r = PSA_SUCCESS) then
           psa_crypto_access_control_register_handle handle partition_id ;;;
           psa_write (msg_handle msg) 0 (WValue handle) sizeof_psa_key_handle_t
         else ret tt) ;;;
        ret (er_status r)
  | PSA_OPEN_KEY =>
      bytes_read <- psa_read (msg_handle msg) 1 (in_size msg 1) ;;
      if decide (bytes_read ≠ in_size msg 1) then SPM_PANIC
      else if decide (in_size msg 1 ≠ CLIENT_PSA_KEY_ID_SIZE_IN_BYTES) then SPM_PANIC
      else
        r <- engine (psa_open_key (mng_lifetime psa_key_mng) (client_id msg)
                       (vec_word (msg_in_vec msg) 1)) ;;
        let handle := er_out r in
        (if decide (er_status r = PSA_SUCCESS) then
           psa_crypto_access_control_register_handle handle partition_id ;;;
           psa_write (msg_handle msg) 0 (WValue handle) sizeof_psa_key_handle_t
         else ret tt) ;;;
        ret (er_status r)
  | PSA_CLOSE_KEY =>
      permitted <- psa_crypto_access_control_is_handle_permitted handle partition_id ;;
      if negb permitted then ret PSA_ERROR_INVALID_HANDLE
      else
        status <- engine_status (psa_close_key handle) ;;
        (if decide (status = PSA_SUCCESS) then
           psa_crypto_access_control_unregister_handle handle
         else ret tt) ;;;
        ret status
  | _ => ret PSA_ERROR_NOT_SUPPORTED
  end.

Definition psa_key_management_operation (msg : psa_msg_t) : M unit :=
  status <-
    match msg_type msg with
    | PSA_IPC_CONNECT | PSA_IPC_DISCONNECT => ret PSA_SUCCESS
    | PSA_IPC_CALL =>
        if decide (in_size msg 0 ≠ sizeof_psa_key_mng_ipc_t env) then
          ret PSA_ERROR_COMMUNICATION_FAILURE
        else
          bytes_read <- psa_read (msg_handle msg) 0 (in_size msg 0) ;;
          if decide (bytes_read ≠ in_size msg 0) then SPM_PANIC
          else key_management_call msg (vec_key_mng (msg_in_vec msg))
    | PSA_IPC_OTHER _ => SPM_PANIC
    end ;;
  psa_reply (msg_handle msg) status.

(** *** Entropy injection and random numbers *)

Definition entropy_on_call (msg : psa_msg_t) : M psa_status_t :=
  if entropy_injection_built env then
    let seed_size := in_size msg 0 in
    if decide (MBEDTLS_ENTROPY_MAX_SEED_SIZE env < seed_size) then
      ret PSA_ERROR_INVALID_ARGUMENT
    else
      seed <- mbedtls_calloc seed_size ;;
      if decide (seed = NULL) then ret PSA_ERROR_INSUFFICIENT_MEMORY
      else
        read_message_param msg 0 ;;;
        status <- engine_status (mbedtls_psa_inject_entropy seed_size) ;;
        mbedtls_free seed ;;;
        ret status
  else ret PSA_ERROR_NOT_SUPPORTED.

Definition rng_on_call (msg : psa_msg_t) : M psa_status_t :=
  let random_size := out_size msg 0 in
  random <- mbedtls_calloc random_size ;;
  if decide (random = NULL) then ret PSA_ERROR_INSUFFICIENT_MEMORY
  else
    status <- engine_status (psa_generate_random random_size) ;;
    (if decide (status = PSA_SUCCESS) then
       psa_write (msg_handle msg) 0 WBuffer random_size
     else ret tt) ;;;
    mbedtls_free random ;;;
    ret status.

(** *** Generators, key derivation and key agreement *)

Definition generator_call (msg : psa_msg_t) (psa_crypto_ipc : psa_crypto_derivation_ipc_t)
  : M psa_status_t :=
  let handle := drv_handle psa_crypto_ipc in
  match drv_func psa_crypto_ipc with
  | PSA_GET_GENERATOR_CAPACITY =>
      r <- engine (psa_get_generator_capacity (rhandle msg)) ;;
      (if decide (er_status r = PSA_SUCCESS) then
         psa_write (msg_handle msg) 0 (WValue (er_out r)) (sizeof_size_t env)
       else ret tt) ;;;
      ret (er_status r)
  | PSA_GENERATOR_READ =>
      let output_length := out_size msg 0 in
      output <- mbedtls_calloc output_length ;;
      if decide (output = NULL) then ret PSA_ERROR_INSUFFICIENT_MEMORY
      else
        status <- engine_status (psa_generator_read (rhandle msg) output_length) ;;
        (if decide (status = PSA_SUCCESS) then
           psa_write (msg_handle msg) 0 WBuffer output_length
         else ret tt) ;;;
        mbedtls_free output ;;;
        ret status
  | PSA_GENERATOR_IMPORT_KEY =>
      permitted <- psa_crypto_access_control_is_handle_permitted handle (client_id msg) ;;
      if negb permitted then ret PSA_ERROR_INVALID_HANDLE
      else
        bytes_read <- psa_read (msg_handle msg) 1 (in_size msg 1) ;;
        if decide (bytes_read ≠ sizeof_psa_key_type_t env) then SPM_PANIC
        else
          bytes_read <- psa_read (msg_handle msg) 2 (in_size msg 2) ;;
          if decide (bytes_read ≠ sizeof_size_t env) then SPM_PANIC
          else
            engine_status (psa_generator_import_key handle (vec_word (msg_in_vec msg) 1)
                             (vec_word (msg_in_vec msg) 2) (rhandle msg))
  | PSA_GENERATOR_ABORT => engine_status (psa_generator_abort (rhandle msg))
  | PSA_KEY_DERIVATION =>
      permitted <- psa_crypto_access_control_is_handle_permitted handle (client_id msg) ;;
      if negb permitted then ret PSA_ERROR_INVALID_HANDLE
      else
        salt <- mbedtls_calloc (in_size msg 1) ;;
        if decide (salt = NULL) then ret PSA_ERROR_INSUFFICIENT_MEMORY
        else
          bytes_read <- psa_read (msg_handle msg) 1 (in_size msg 1) ;;
          if decide (bytes_read ≠ in_size msg 1) then SPM_PANIC
          else
            label <- mbedtls_calloc (in_size msg 2) ;;
            if decide (label = NULL) then
              mbedtls_free salt ;;; ret PSA_ERROR_INSUFFICIENT_MEMORY
            else
              bytes_read <- psa_read (msg_handle msg) 2 (in_size msg 2) ;;
              if decide (bytes_read ≠ in_size msg 2) then SPM_PANIC
              else
                status <- engine_status
                            (psa_key_derivation (rhandle msg) handle (drv_alg psa_crypto_ipc)
                               (in_size msg 1) (in_size msg 2) (drv_capacity psa_crypto_ipc)) ;;
                mbedtls_free label ;;;
                mbedtls_free salt ;;;
                ret status
  | PSA_KEY_AGREEMENT =>
      permitted <- psa_crypto_access_control_is_handle_permitted handle (client_id msg) ;;
      if negb permitted then ret PSA_ERROR_INVALID_HANDLE
      else
        private_key <- mbedtls_calloc (in_size msg 1) ;;
        if decide (private_key = NULL) then ret PSA_ERROR_INSUFFICIENT_MEMORY
        else
          bytes_read <- psa_read (msg_handle msg) 1 (in_size msg 1) ;;
          if decide (bytes_read ≠ in_size msg 1) then SPM_PANIC
          else
            status <- engine_status
                        (psa_key_agreement (rhandle msg) handle (in_size msg 1)
                           (drv_alg psa_crypto_ipc)) ;;
            mbedtls_free private_key ;;;
            ret status
  | _ => ret PSA_ERROR_NOT_SUPPORTED
  end.

Definition psa_crypto_generator_operations (msg : psa_msg_t) : M unit :=
  status <-
    match msg_type msg with
    | PSA_IPC_CONNECT =>
        psa_operation <- mbedtls_calloc (sizeof_psa_crypto_generator_t env) ;;
        if decide (psa_operation = NULL) then ret PSA_ERROR_INSUFFICIENT_MEMORY
        else psa_set_rhandle (msg_handle msg) psa_operation ;;; ret PSA_SUCCESS
    | PSA_IPC_CALL =>
        if decide (in_size msg 0 ≠ sizeof_psa_crypto_derivation_ipc_t env) then
          ret PSA_ERROR_COMMUNICATION_FAILURE
        else
          bytes_read <- psa_read (msg_handle msg) 0 (in_size msg 0) ;;
          if decide (bytes_read ≠ in_size msg 0) then SPM_PANIC
          else generator_call msg (vec_derivation (msg_in_vec msg))
    | PSA_IPC_DISCONNECT =>
        engine (psa_generator_abort (rhandle msg)) ;;;
        (if decide (rhandle msg ≠ NULL) then mbedtls_free (rhandle msg) else ret tt) ;;;
        ret PSA_SUCCESS
    | PSA_IPC_OTHER _ => SPM_PANIC
    end ;;
  psa_reply (msg_handle msg) status.

(** *** Dispatch *)

(** A [handler], or [NULL]. *)
Definition handler : Type := option (psa_msg_t -> M psa_status_t).

Definition run_handler (h : handler) (msg : psa_msg_t) : M psa_status_t :=
  match h with
  | Some f => f msg
  | None => ret PSA_SUCCESS
  end.

Definition message_handler (msg : psa_msg_t)
    (connect_handler call_handler disconnect_handler : handler) : M unit :=
  status <-
    match msg_type msg with
    | PSA_IPC_CONNECT => run_handler connect_handler msg
    | PSA_IPC_CALL => run_handler call_handler msg
    | PSA_IPC_DISCONNECT => run_handler disconnect_handler msg
    | PSA_IPC_OTHER _ => SPM_PANIC
    end ;;
  psa_reply (msg_handle msg) status.

(** What [crypto_main] runs on a message of each service kind. *)
Definition serve (signal : psa_signal_t) (msg : psa_msg_t) : M unit :=
  match signal with
  | PSA_CRYPTO_INIT => message_handler msg None (Some crypto_init_on_call) None
  | PSA_MAC =>
      message_handler msg (Some mac_on_connect) (Some mac_on_call) (Some mac_on_disconnect)
  | PSA_HASH =>
      message_handler msg (Some hash_on_connect) (Some hash_on_call) (Some hash_on_disconnect)
  | PSA_SYMMETRIC =>
      message_handler msg (Some symmetric_on_connect) (Some symmetric_on_call)
        (Some symmetric_on_disconnect)
  | PSA_ASYMMETRIC => message_handler msg None (Some asymmetric_on_call) None
  | PSA_AEAD => message_handler msg None (Some aead_on_call) None
  | PSA_KEY_MNG => psa_key_management_operation msg
  | PSA_RNG => message_handler msg None (Some rng_on_call) None
  | PSA_CRYPTO_FREE => message_handler msg None (Some crypto_free_on_call) None
  | PSA_GENERATOR => psa_crypto_generator_operations msg
  | PSA_ENTROPY_INJECT => message_handler msg None (Some entropy_on_call) None
  end.

(** One [if (signal & S) { if (psa_get(S, &msg) != PSA_SUCCESS) continue; ... }]
    block followed by the rest of the loop body: [continue] leaves the body. *)
Definition on_signal (signal : list psa_signal_t) (s : psa_signal_t) (rest : M unit)
  : M unit :=
  if decide (s ∈ signal) then
    got <- psa_get s ;;
    match got with
    | None => ret tt
    | Some msg => serve s msg ;;; rest
    end
  else rest.

(** The body of the [while (1)] loop of [crypto_main]. *)
Definition crypto_main_iteration : M unit :=
  signal <- psa_wait ;;
  on_signal signal PSA_CRYPTO_INIT
  (on_signal signal PSA_MAC
  (on_signal signal PSA_HASH
  (on_signal signal PSA_SYMMETRIC
  (on_signal signal PSA_ASYMMETRIC
  (on_signal signal PSA_AEAD
  (on_signal signal PSA_KEY_MNG
  (on_signal signal PSA_RNG
  (on_signal signal PSA_CRYPTO_FREE
  (on_signal signal PSA_GENERATOR
  (on_signal signal PSA_ENTROPY_INJECT (ret tt))))))))))).

(** [crypto_main] never returns; its first [n] iterations. *)
Fixpoint crypto_main (n : nat) : M unit :=
  match n with
  | O => ret tt
  | S n' => crypto_main_iteration ;;; crypto_main n'
  end.

End Partition.

(** ** Vocabulary of the statements *)

(** A slot is live when its reference count is positive. *)
Definition clone_live (c : psa_spm_hash_clone_t) : Prop := ref_count c > 0.

(** The sentinel that the free-slot search of [reserve_hash_clone] matches. *)
Definition clone_free (c : psa_spm_hash_clone_t) : Prop :=
  partition_id c = 0 ∧ source_operation c = NULL.

(** The slot holds the pair (caller identity, source operation). *)
Definition clone_holds (pid src : Z) (c : psa_spm_hash_clone_t) : Prop :=
  partition_id c = pid ∧ source_operation c = src.

(** Reference count 0 iff partition id 0 and null source operation. *)
Definition clone_inv (c : psa_spm_hash_clone_t) : Prop :=
  ref_count c = 0 ↔ clone_free c.

#[global] Instance clone_live_dec c : Decision (clone_live c).
Proof. unfold clone_live. apply _. Defined.
#[global] Instance clone_free_dec c : Decision (clone_free c).
Proof. unfold clone_free. apply _. Defined.
#[global] Instance clone_holds_dec pid src c : Decision (clone_holds pid src c).
Proof. unfold clone_holds. apply _. Defined.
#[global] Instance clone_inv_dec c : Decision (clone_inv c).
Proof. unfold clone_inv. apply _. Defined.

#[global] Typeclasses Opaque clone_live clone_free clone_holds clone_inv.

(** The pool left by [n] calls of [reserve_hash_clone] for the same pair. *)
Definition reserve_times (n : nat) (pid src : Z) (clones : hash_clones) : hash_clones :=
  Nat.iter n (λ cl, (reserve_hash_clone pid src cl).2) clones.

(** A pool of capacity 2 whose slots are both live. *)
Definition two_live_clones : hash_clones :=
  [ {| partition_id := 1; source_operation := 100; ref_count := 1 |};
    {| partition_id := 2; source_operation := 200; ref_count := 3 |} ].

(** *** Reading the log *)

Definition engine_calls (t : list Event) : list engine_call :=
  omap (λ e, match e with EvEngine c => Some c | _ => None end) t.

Definition replies (t : list Event) : list (Z * psa_status_t) :=
  omap (λ e, match e with EvReply h s => Some (h, s) | _ => None end) t.

Definition writes (t : list Event) : list (nat * write_data * Z) :=
  omap (λ e, match e with EvWrite _ i d n => Some (i, d, n) | _ => None end) t.

Definition frees (t : list Event) : list Z :=
  omap (λ e, match e with EvFree p => Some p | _ => None end) t.

Definition callocs (t : list Event) : list Z :=
  omap (λ e, match e with EvCalloc _ p => Some p | _ => None end) t.

(** *** Calls that take a caller-supplied key handle *)

(** The key handle of a Call of the given service kind, when the operation
    code in its header names a sub-operation that takes one. *)
Definition caller_handle (signal : psa_signal_t) (msg : psa_msg_t) : option Z :=
  let v := msg_in_vec msg in
  match signal with
  | PSA_MAC =>
      match ipc_func (vec_crypto_ipc v) with
      | PSA_MAC_SIGN_SETUP | PSA_MAC_VERIFY_SETUP => Some (ipc_handle (vec_crypto_ipc v))
      | _ => None
      end
  | PSA_SYMMETRIC =>
      match ipc_func (vec_crypto_ipc v) with
      | PSA_CIPHER_ENCRYPT_SETUP | PSA_CIPHER_DECRYPT_SETUP =>
          Some (ipc_handle (vec_crypto_ipc v))
      | _ => None
      end
  | PSA_ASYMMETRIC =>
      match asym_func (vec_asymmetric v) with
      | PSA_ASYMMETRIC_SIGN | PSA_ASYMMETRIC_VERIFY
      | PSA_ASYMMETRIC_ENCRYPT | PSA_ASYMMETRIC_DECRYPT =>
          Some (asym_handle (vec_asymmetric v))
      | _ => None
      end
  | PSA_AEAD =>
      match aead_func (vec_aead v) with
      | PSA_AEAD_ENCRYPT | PSA_AEAD_DECRYPT => Some (aead_handle (vec_aead v))
      | _ => None
      end
  | PSA_KEY_MNG =>
      match mng_func (vec_key_mng v) with
      | PSA_GET_KEY_LIFETIME | PSA_SET_KEY_POLICY | PSA_GET_KEY_POLICY
      | PSA_IMPORT_KEY | PSA_DESTROY_KEY | PSA_GET_KEY_INFORMATION
      | PSA_EXPORT_KEY | PSA_EXPORT_PUBLIC_KEY | PSA_GENERATE_KEY
      | PSA_CLOSE_KEY => Some (mng_handle (vec_key_mng v))
      | _ => None
      end
  | PSA_GENERATOR =>
      match drv_func (vec_derivation v) with
      | PSA_GENERATOR_IMPORT_KEY | PSA_KEY_DERIVATION | PSA_KEY_AGREEMENT =>
          Some (drv_handle (vec_derivation v))
      | _ => None
      end
  | _ => None
  end.

(** The operation code of a Call of the given service kind. *)
Definition call_func (signal : psa_signal_t) (msg : psa_msg_t) : option psa_sec_function_t :=
  let v := msg_in_vec msg in
  match signal with
  | PSA_MAC | PSA_HASH | PSA_SYMMETRIC => Some (ipc_func (vec_crypto_ipc v))
  | PSA_ASYMMETRIC => Some (asym_func (vec_asymmetric v))
  | PSA_AEAD => Some (aead_func (vec_aead v))
  | PSA_KEY_MNG => Some (mng_func (vec_key_mng v))
  | PSA_GENERATOR => Some (drv_func (vec_derivation v))
  | _ => None
  end.

(** The size of the fixed header of a service kind, where the partition
    knows it: the key management and generator kinds compare
    [msg->in_size[0]] with it. *)
Definition checked_header_size (env : Env) (signal : psa_signal_t) : option Z :=
  match signal with
  | PSA_KEY_MNG => Some (sizeof_psa_key_mng_ipc_t env)
  | PSA_GENERATOR => Some (sizeof_psa_crypto_derivation_ipc_t env)
  | _ => None
  end.

(** The declared length of input vector 0 passes the check of the kind, if
    the kind has one. *)
Definition header_accepted (env : Env) (signal : psa_signal_t) (msg : psa_msg_t) : Prop :=
  ∀ n, checked_header_size env signal = Some n → in_size msg 0 = n.

(** What a rejected Call writes to the caller's output vectors, newest
    first: nothing, except for [PSA_GET_KEY_INFORMATION], which writes the
    zero key type to vector 0 and the zero bit size to vector 1, each when the
    declared capacity of the vector holds the field. *)
Definition rejected_writes (env : Env) (signal : psa_signal_t) (msg : psa_msg_t)
  : list (nat * write_data * Z) :=
  if decide (call_func signal msg = Some PSA_GET_KEY_INFORMATION) then
    (if decide (out_size msg 1 >= sizeof_size_t env)
     then [(1%nat, WValue 0, sizeof_size_t env)] else []) ++
    (if decide (out_size msg 0 >= sizeof_psa_key_type_t env)
     then [(0%nat, WValue 0, sizeof_psa_key_type_t env)] else [])
  else [].

(** *** Test doubles *)

(** An engine that reports success everywhere, a channel that delivers what
    is asked and has no message pending, an allocator that hands out a new
    address at every call. *)
Definition nominal_env : Env := {|
  sizeof_size_t := 4;
  sizeof_psa_key_type_t := 4;
  sizeof_psa_key_mng_ipc_t := 16;
  sizeof_psa_crypto_derivation_ipc_t := 16;
  sizeof_psa_mac_operation_t := 64;
  sizeof_psa_hash_operation_t := 64;
  sizeof_psa_cipher_operation_t := 64;
  sizeof_psa_crypto_generator_t := 64;
  PSA_KEY_TYPE_RSA_KEYPAIR := 1879113728;
  MBEDTLS_ENTROPY_MAX_SEED_SIZE := 1024;
  entropy_injection_built := false;
  indeterminate_status := PSA_ERROR_OTHER 3735928559;
  indeterminate_index := 3735928559;
  crypto_engine := λ _ _, {| er_status := PSA_SUCCESS; er_out := 7; er_out2 := 256 |};
  channel_read := λ _ _ _ size, size;
  channel_get := λ _ _, None;
  channel_wait := λ _, [];
  allocator := λ t _, 4096 + Z.of_nat (length t)
|}.

Definition with_engine (f : list Event → engine_call → engine_result) (env : Env) : Env := {|
  sizeof_size_t := sizeof_size_t env;
  sizeof_psa_key_type_t := sizeof_psa_key_type_t env;
  sizeof_psa_key_mng_ipc_t := sizeof_psa_key_mng_ipc_t env;
  sizeof_psa_crypto_derivation_ipc_t := sizeof_psa_crypto_derivation_ipc_t env;
  sizeof_psa_mac_operation_t := sizeof_psa_mac_operation_t env;
  sizeof_psa_hash_operation_t := sizeof_psa_hash_operation_t env;
  sizeof_psa_cipher_operation_t := sizeof_psa_cipher_operation_t env;
  sizeof_psa_crypto_generator_t := sizeof_psa_crypto_generator_t env;
  PSA_KEY_TYPE_RSA_KEYPAIR := PSA_KEY_TYPE_RSA_KEYPAIR env;
  MBEDTLS_ENTROPY_MAX_SEED_SIZE := MBEDTLS_ENTROPY_MAX_SEED_SIZE env;
  entropy_injection_built := entropy_injection_built env;
  indeterminate_status := indeterminate_status env;
  indeterminate_index := indeterminate_index env;
  crypto_engine := f;
  channel_read := channel_read env;
  channel_get := channel_get env;
  channel_wait := channel_wait env;
  allocator := allocator env
|}.

Definition with_channel (wait : list Event → list psa_signal_t)
    (get : list Event → psa_signal_t → option psa_msg_t) (env : Env) : Env := {|
  sizeof_size_t := sizeof_size_t env;
  sizeof_psa_key_type_t := sizeof_psa_key_type_t env;
  sizeof_psa_key_mng_ipc_t := sizeof_psa_key_mng_ipc_t env;
  sizeof_psa_crypto_derivation_ipc_t := sizeof_psa_crypto_derivation_ipc_t env;
  sizeof_psa_mac_operation_t := sizeof_psa_mac_operation_t env;
  sizeof_psa_hash_operation_t := sizeof_psa_hash_operation_t env;
  sizeof_psa_cipher_operation_t := sizeof_psa_cipher_operation_t env;
  sizeof_psa_crypto_generator_t := sizeof_psa_crypto_generator_t env;
  PSA_KEY_TYPE_RSA_KEYPAIR := PSA_KEY_TYPE_RSA_KEYPAIR env;
  MBEDTLS_ENTROPY_MAX_SEED_SIZE := MBEDTLS_ENTROPY_MAX_SEED_SIZE env;
  entropy_injection_built := entropy_injection_built env;
  indeterminate_status := indeterminate_status env;
  indeterminate_index := indeterminate_index env;
  crypto_engine := crypto_engine env;
  channel_read := channel_read env;
  channel_get := get;
  channel_wait := wait;
  allocator := allocator env
|}.

(** The state after [memset] of a pool of two slots, with an empty registry
    and an empty log. *)
Definition initial_world : World := {|
  psa_spm_init_refence_counter := 0;
  psa_spm_hash_clones := replicate 2 zero_clone;
  access_control := registry_init;
  trace := []
|}.

Definition zero_invec : psa_invec := {|
  vec_crypto_ipc := {| ipc_func := PSA_SEC_FUNCTION_UNKNOWN 0; ipc_handle := 0; ipc_alg := 0 |};
  vec_asymmetric := {| asym_func := PSA_SEC_FUNCTION_UNKNOWN 0; asym_handle := 0; asym_alg := 0;
                       asym_input_length := 0; asym_salt_length := 0 |};
  vec_aead := {| aead_func := PSA_SEC_FUNCTION_UNKNOWN 0; aead_handle := 0; aead_alg := 0;
                 aead_nonce_size := 0; aead_additional_data_length := 0;
                 aead_input_length := 0 |};
  vec_key_mng := {| mng_func := PSA_SEC_FUNCTION_UNKNOWN 0; mng_handle := 0;
                    mng_lifetime := 0; mng_type := 0 |};
  vec_derivation := {| drv_func := PSA_SEC_FUNCTION_UNKNOWN 0; drv_handle := 0; drv_alg := 0;
                       drv_capacity := 0 |};
  vec_word := λ _, 0
|}.

(** A Call on channel 1 from partition 5 with context [rh], whose header
    carries the operation code [f] and the key handle 7 under every layout. *)
Definition test_call (f : psa_sec_function_t) (rh : Z) (ins outs : list Z) : psa_msg_t := {|
  msg_type := PSA_IPC_CALL;
  msg_handle := 1;
  client_id := 5;
  rhandle := rh;
  msg_in_size := ins;
  msg_out_size := outs;
  msg_in_vec := {|
    vec_crypto_ipc := {| ipc_func := f; ipc_handle := 7; ipc_alg := 0 |};
    vec_asymmetric := {| asym_func := f; asym_handle := 7; asym_alg := 0;
                         asym_input_length := 0; asym_salt_length := 0 |};
    vec_aead := {| aead_func := f; aead_handle := 7; aead_alg := 0;
                   aead_nonce_size := 0; aead_additional_data_length := 0;
                   aead_input_length := 0 |};
    vec_key_mng := {| mng_func := f; mng_handle := 7; mng_lifetime := 0; mng_type := 0 |};
    vec_derivation := {| drv_func := f; drv_handle := 7; drv_alg := 0; drv_capacity := 0 |};
    vec_word := λ _, 0
  |}
|}.

(** *** Assumptions on the collaborators *)

(** The channel delivers as many bytes as are asked for. *)
Definition reliable_channel (env : Env) : Prop :=
  ∀ t h i n, channel_read env t h i n = n.

(** *** Key management sub-operations that create or retire a handle *)

(** The engine call behind allocate, create and open. *)
Definition acquire_call (msg : psa_msg_t) : option engine_call :=
  let psa_key_mng := vec_key_mng (msg_in_vec msg) in
  match mng_func psa_key_mng with
  | PSA_ALLOCATE_KEY => Some psa_allocate_key
  | PSA_CREATE_KEY =>
      Some (psa_create_key (mng_lifetime psa_key_mng) (client_id msg)
              (vec_word (msg_in_vec msg) 1))
  | PSA_OPEN_KEY =>
      Some (psa_open_key (mng_lifetime psa_key_mng) (client_id msg)
              (vec_word (msg_in_vec msg) 1))
  | _ => None
  end.

(** Create and open read the client's 32-bit key identifier from input
    vector 1. *)
Definition key_id_accepted (msg : psa_msg_t) : Prop :=
  mng_func (vec_key_mng (msg_in_vec msg)) = PSA_ALLOCATE_KEY ∨
  in_size msg 1 = CLIENT_PSA_KEY_ID_SIZE_IN_BYTES.

(** The engine call behind destroy and close. *)
Definition retire_call (msg : psa_msg_t) : option engine_call :=
  let psa_key_mng := vec_key_mng (msg_in_vec msg) in
  match mng_func psa_key_mng with
  | PSA_DESTROY_KEY => Some (psa_destroy_key (mng_handle psa_key_mng))
  | PSA_CLOSE_KEY => Some (psa_close_key (mng_handle psa_key_mng))
  | _ => None
  end.

(** The initial state with key handle 7 registered to partition 5. *)
Definition world_with_key : World := {|
  psa_spm_init_refence_counter := 1;
  psa_spm_hash_clones := replicate 2 zero_clone;
  access_control := register_handle 7 5 registry_init;
  trace := []
|}.

(** *** Chunked transfer *)

(** The sizes of the first [n] chunks of a payload of which [remaining]
    bytes are left: each chunk is [MIN remaining MAX_DATA_CHUNK_SIZE_IN_BYTES]. *)
Fixpoint chunks (n : nat) (remaining : Z) : list Z :=
  match n with
  | O => []
  | S n' =>
      let size := MIN remaining MAX_DATA_CHUNK_SIZE_IN_BYTES in
      size :: chunks n' (remaining - size)
  end.

(** ceil(L / C) for the chunk size C of the file. *)
Definition chunk_count (L : Z) : nat :=
  Z.to_nat ((L + (MAX_DATA_CHUNK_SIZE_IN_BYTES - 1)) / MAX_DATA_CHUNK_SIZE_IN_BYTES).

Definition sum_list_Z (l : list Z) : Z := foldr Z.add 0 l.

(** The update sink of a hash or MAC update Call. *)
Definition update_sink (signal : psa_signal_t) (msg : psa_msg_t) : option (Z → engine_call) :=
  let f := ipc_func (vec_crypto_ipc (msg_in_vec msg)) in
  match signal with
  | PSA_MAC =>
      if decide (f = PSA_MAC_UPDATE) then Some (psa_mac_update (rhandle msg)) else None
  | PSA_HASH =>
      if decide (f = PSA_HASH_UPDATE) then Some (psa_hash_update (rhandle msg)) else None
  | _ => None
  end.

(** Every invocation of the sink reports success. *)
Definition sink_succeeds (env : Env) (sink : Z → engine_call) : Prop :=
  ∀ t n, er_status (crypto_engine env t (sink n)) = PSA_SUCCESS.

(** Every allocation succeeds. *)
Definition allocation_succeeds (env : Env) : Prop :=
  ∀ t n, allocator env t n ≠ NULL.

(** An engine that reports a failure everywhere. *)
Definition failing_engine : list Event → engine_call → engine_result :=
  λ _ _, {| er_status := PSA_ERROR_BAD_STATE; er_out := 0; er_out2 := 0 |}.

(** *** Crypto lifecycle *)

(** The state after the engine, the clone pool and the registry have been
    initialised on the first init request. *)
Definition initialised (w : World) : World :=
  let zeroed := replicate (length (psa_spm_hash_clones w)) zero_clone in
  log (EvAccess access_init)
    (set_access registry_init
       (log (EvClones zeroed) (set_clones zeroed (set_counter 1 w)))).

(** The state after the teardown of [crypto_free_on_call]. *)
Definition torn_down (w : World) : World :=
  let zeroed := replicate (length (psa_spm_hash_clones w)) zero_clone in
  log (EvEngine mbedtls_psa_crypto_free)
    (log (EvAccess access_destroy)
       (set_access registry_destroy
          (log (EvClones zeroed) (set_clones zeroed (set_counter 0 w))))).

(** A state in which no init request is outstanding and one clone slot is
    live. *)
Definition world_before_init : World := {|
  psa_spm_init_refence_counter := 0;
  psa_spm_hash_clones :=
    [ {| partition_id := 5; source_operation := 77; ref_count := 1 |}; zero_clone ];
  access_control := registry_init;
  trace := []
|}.

(** *** The dispatch loop *)

(** A channel on which the MAC and the hash signals are asserted, a hash
    message is pending on channel 1, and [psa_get] finds no MAC message. *)
Definition mac_get_fails_env : Env :=
  with_channel
    (λ _, [PSA_MAC; PSA_HASH])
    (λ _ s, match s with
            | PSA_HASH => Some (test_call PSA_HASH_ABORT 77 [12] [])
            | _ => None
            end)
    nominal_env.

(** The same channel, with a MAC message pending on channel 1 as well. *)
Definition mac_get_succeeds_env : Env :=
  with_channel
    (λ _, [PSA_MAC; PSA_HASH])
    (λ _ s, match s with
            | PSA_HASH => Some (test_call PSA_HASH_ABORT 77 [12] [])
            | PSA_MAC => Some (test_call PSA_MAC_ABORT 78 [12] [])
            | _ => None
            end)
    nominal_env.

(** *** Connections that own an operation context *)

(** At most one slot of the pool refers to the context [p], and a slot that
    does belongs to the partition [c] that owns the connection of [p]. *)
Definition context_slot_unique (p c : Z) (clones : hash_clones) : Prop :=
  (∀ i j s s', clones !! i = Some s → clones !! j = Some s' →
     source_operation s = p → source_operation s' = p → i = j) ∧
  Forall (λ s, source_operation s = p → partition_id s = c) clones.

(** No slot of the pool refers to the context [p]. *)
Definition context_unreferenced (p : Z) (clones : hash_clones) : Prop :=
  Forall (λ s, source_operation s ≠ p) clones.

(** The service kinds whose connections own an operation context. *)
Definition context_kind (signal : psa_signal_t) : Prop :=
  signal = PSA_MAC ∨ signal = PSA_HASH ∨ signal = PSA_SYMMETRIC.

(** The size of the context of the kind. *)
Definition sizeof_context (env : Env) (signal : psa_signal_t) : Z :=
  match signal with
  | PSA_MAC => sizeof_psa_mac_operation_t env
  | PSA_HASH => sizeof_psa_hash_operation_t env
  | _ => sizeof_psa_cipher_operation_t env
  end.

(** The abort operation of the kind. *)
Definition abort_call (signal : psa_signal_t) (p : Z) : engine_call :=
  match signal with
  | PSA_MAC => psa_mac_abort p
  | PSA_HASH => psa_hash_abort p
  | _ => psa_cipher_abort p
  end.

(** What the Disconnect of the kind logs between the abort and the release
    of the context: for a hash connection, the clearing of the slot of the
    pool, with the pool that it leaves. *)
Definition pool_cleared (signal : psa_signal_t) (clones : hash_clones) : list Event :=
  match signal with
  | PSA_HASH => [EvClones clones]
  | _ => []
  end.

(** The messages of a connection, served one after the other. *)
Fixpoint serve_all (env : Env) (signal : psa_signal_t) (msgs : list psa_msg_t) : M unit :=
  match msgs with
  | [] => ret tt
  | msg :: msgs' => serve env signal msg ;;; serve_all env signal msgs'
  end.

(** A Call on the connection that owns the context [p], made by the
    partition [c]. *)
Definition call_on (p c : Z) (msg : psa_msg_t) : Prop :=
  msg_type msg = PSA_IPC_CALL ∧ rhandle msg = p ∧ client_id msg = c.

(** The log grew by [seg], and whatever was released in [seg] had been
    allocated in [seg]. *)
Definition scratch_only (t t' : list Event) : Prop :=
  ∃ seg, t' = seg ++ t ∧ ∀ q, q ∈ frees seg → q ∈ callocs seg.

(** The events logged between the state [w] and the later state [w']. *)
Definition logged_since (w w' : World) : list Event :=
  take (length (trace w') - length (trace w)) (trace w').

(** The releases of the address [p] in a stretch of the log. *)
Definition releases_of (p : Z) (seg : list Event) : list Z :=
  filter (λ q, q = p) (frees seg).

(** The state in which a Connect that obtained the context [p] leaves [w]. *)
Definition connected (env : Env) (signal : psa_signal_t) (conn : psa_msg_t) (p : Z)
    (w : World) : World :=
  log (EvReply (msg_handle conn) PSA_SUCCESS)
    (log (EvSetRhandle (msg_handle conn) p)
       (log (EvCalloc (sizeof_context env signal) p) w)).

(** A Connect and a Disconnect on channel 1 from partition 5. *)
Definition test_connect : psa_msg_t := {|
  msg_type := PSA_IPC_CONNECT; msg_handle := 1; client_id := 5; rhandle := NULL;
  msg_in_size := []; msg_out_size := []; msg_in_vec := zero_invec
|}.

Definition test_disconnect (rh : Z) : psa_msg_t := {|
  msg_type := PSA_IPC_DISCONNECT; msg_handle := 1; client_id := 5; rhandle := rh;
  msg_in_size := []; msg_out_size := []; msg_in_vec := zero_invec
|}.

(** The Calls of a hash connection whose context is at 4096: two clone
    reservations around an update of 1000 bytes, then a finish. *)
Definition test_hash_calls : list psa_msg_t :=
  [ test_call PSA_HASH_CLONE_BEGIN 4096 [12] [4];
    test_call PSA_HASH_UPDATE 4096 [12; 1000] [];
    test_call PSA_HASH_CLONE_BEGIN 4096 [12] [4];
    test_call (PSA_SEC_FUNCTION_UNKNOWN 99) 4096 [12] [];
    test_call PSA_HASH_CLONE_BEGIN 4096 [12] [4] ].

(** The state after those Calls. *)
Definition test_hash_called : World :=
  match serve_all nominal_env PSA_HASH test_hash_calls
          (connected nominal_env PSA_HASH test_connect 4096 initial_world) with
  | Done _ w => w
  | _ => initial_world
  end.

(** ** Further code and vocabulary *)

(** *** The composite key identifier (psa_crypto_access_control.h) *)

Definition uint32 (x : Z) : Z := x mod 2 ^ 32.
Definition uint64 (x : Z) : Z := x mod 2 ^ 64.

(** [psa_crypto_access_control_assemble_psa_key_id], on the 64-bit integer
    [psa_key_id_t] that its static assertion requires: [*id <<= 32] in 64-bit
    arithmetic, then [*id |= (uint32_t)partition_id].  The result is the new
    value of [*id]. *)
Definition psa_crypto_access_control_assemble_psa_key_id (id partition_id : Z) : Z :=
  Z.lor (uint64 (Z.shiftl id 32)) (uint32 partition_id).

(** An [int32_t] read back from its 32-bit pattern. *)
Definition int32_of_bits (x : Z) : Z := if decide (x < 2 ^ 31) then x else x - 2 ^ 32.

(** *** More readings of the log *)

(** The polls of the channel: [psa_wait] and [psa_get]. *)
Definition polls (t : list Event) : list Event :=
  omap (λ e, match e with EvGet _ _ | EvWait _ => Some e | _ => None end) t.

(** The signals for which [psa_get] was called, with the outcome. *)
Definition gets (t : list Event) : list (psa_signal_t * bool) :=
  omap (λ e, match e with EvGet s d => Some (s, d) | _ => None end) t.

(** Every buffer allocated in the stretch of the log is released in it, and
    nothing else is released in it but the null pointer. *)
Definition scratch_released (seg : list Event) : Prop :=
  (∀ q, q ∈ callocs seg → q ≠ NULL → q ∈ frees seg) ∧
  (∀ q, q ∈ frees seg → q = NULL ∨ q ∈ callocs seg).

(** The stretch of the log holds no reply and no poll of the channel. *)
Definition quiet (seg : list Event) : Prop :=
  replies seg = [] ∧ polls seg = [].

(** The key handle that the caller supplied for an engine call. *)
Definition key_handle_of (c : engine_call) : option Z :=
  match c with
  | psa_mac_sign_setup _ handle _ | psa_mac_verify_setup _ handle _
  | psa_cipher_encrypt_setup _ handle _ | psa_cipher_decrypt_setup _ handle _
  | psa_asymmetric_sign handle _ _ _ | psa_asymmetric_verify handle _ _ _
  | psa_asymmetric_encrypt handle _ _ _ _ | psa_asymmetric_decrypt handle _ _ _ _
  | psa_aead_encrypt handle _ _ _ _ _ | psa_aead_decrypt handle _ _ _ _ _
  | psa_get_key_lifetime handle | psa_set_key_policy handle | psa_get_key_policy handle
  | psa_import_key handle _ _ | psa_destroy_key handle | psa_get_key_information handle
  | psa_export_key handle _ | psa_export_public_key handle _
  | psa_generate_key handle _ _ _ _ | psa_close_key handle
  | psa_generator_import_key handle _ _ _
  | psa_key_derivation _ handle _ _ _ _ | psa_key_agreement _ handle _ _ => Some handle
  | _ => None
  end.

(** The owner under which an engine call creates or opens a key. *)
Definition key_owner_of (c : engine_call) : option Z :=
  match c with
  | psa_create_key _ owner _ | psa_open_key _ owner _ => Some owner
  | _ => None
  end.

(** The operation context on which an engine call works; for
    [psa_hash_clone], the target. *)
Definition context_of (c : engine_call) : option Z :=
  match c with
  | psa_mac_sign_setup operation _ _ | psa_mac_verify_setup operation _ _
  | psa_mac_update operation _ | psa_mac_sign_finish operation _
  | psa_mac_verify_finish operation _ | psa_mac_abort operation
  | psa_hash_setup operation _ | psa_hash_update operation _
  | psa_hash_finish operation _ | psa_hash_verify operation _
  | psa_hash_abort operation | psa_hash_clone _ operation
  | psa_cipher_encrypt_setup operation _ _ | psa_cipher_decrypt_setup operation _ _
  | psa_cipher_generate_iv operation _ | psa_cipher_set_iv operation _
  | psa_cipher_update operation _ _ | psa_cipher_finish operation _
  | psa_cipher_abort operation
  | psa_get_generator_capacity operation | psa_generator_read operation _
  | psa_generator_import_key _ _ _ operation | psa_generator_abort operation
  | psa_key_derivation operation _ _ _ _ _ | psa_key_agreement operation _ _ _ =>
      Some operation
  | _ => None
  end.

(** Every engine call of the stretch is an invocation of the sink. *)
Definition sink_calls (sink : Z → engine_call) (seg : list Event) : Prop :=
  ∀ c, c ∈ engine_calls seg → ∃ n, c = sink n.

(** When an allocation of the stretch failed, the status is the
    insufficient-memory status, and the stretch holds no engine call and no
    write to the caller. *)
Definition alloc_failure_reported (s : psa_status_t) (seg : list Event) : Prop :=
  NULL ∈ callocs seg →
  s = PSA_ERROR_INSUFFICIENT_MEMORY ∧ engine_calls seg = [] ∧ writes seg = [].

(** The stretch is the traffic of a transfer through a scratch buffer: quiet,
    the buffer released, nothing written to the caller. *)
Definition scratch_traffic (seg : list Event) : Prop :=
  quiet seg ∧ scratch_released seg ∧ writes seg = [].

(** The globals of the partition other than the log. *)
Definition same_counter (w w' : World) : Prop :=
  psa_spm_init_refence_counter w' = psa_spm_init_refence_counter w.
Definition same_clones (w w' : World) : Prop :=
  psa_spm_hash_clones w' = psa_spm_hash_clones w.
Definition same_registry (w w' : World) : Prop :=
  access_control w' = access_control w.

(** The order in which the body of [crypto_main] tests the signals. *)
Definition signal_order : list psa_signal_t :=
  [PSA_CRYPTO_INIT; PSA_MAC; PSA_HASH; PSA_SYMMETRIC; PSA_ASYMMETRIC; PSA_AEAD;
   PSA_KEY_MNG; PSA_RNG; PSA_CRYPTO_FREE; PSA_GENERATOR; PSA_ENTROPY_INJECT].

(** The blocks of the loop body for the signals listed, in that order. *)
Fixpoint signal_blocks (env : Env) (signal : list psa_signal_t)
    (order : list psa_signal_t) : M unit :=
  match order with
  | [] => ret tt
  | s :: order' => on_signal env signal s (signal_blocks env signal order')
  end.

(** The operation codes that the [switch] of each kind names. *)
Definition supported (signal : psa_signal_t) (f : psa_sec_function_t) : bool :=
  match signal, f with
  | PSA_MAC, (PSA_MAC_SIGN_SETUP | PSA_MAC_VERIFY_SETUP | PSA_MAC_UPDATE
              | PSA_MAC_SIGN_FINISH | PSA_MAC_VERIFY_FINISH | PSA_MAC_ABORT) => true
  | PSA_HASH, (PSA_HASH_SETUP | PSA_HASH_UPDATE | PSA_HASH_FINISH | PSA_HASH_VERIFY
               | PSA_HASH_ABORT | PSA_HASH_CLONE_BEGIN | PSA_HASH_CLONE_END) => true
  | PSA_SYMMETRIC, (PSA_CIPHER_ENCRYPT_SETUP | PSA_CIPHER_DECRYPT_SETUP
                    | PSA_CIPHER_GENERATE_IV | PSA_CIPHER_SET_IV | PSA_CIPHER_UPDATE
                    | PSA_CIPHER_FINISH | PSA_CIPHER_ABORT) => true
  | PSA_ASYMMETRIC, (PSA_ASYMMETRIC_SIGN | PSA_ASYMMETRIC_VERIFY
                     | PSA_ASYMMETRIC_ENCRYPT | PSA_ASYMMETRIC_DECRYPT) => true
  | PSA_AEAD, (PSA_AEAD_ENCRYPT | PSA_AEAD_DECRYPT) => true
  | PSA_KEY_MNG, (PSA_GET_KEY_LIFETIME | PSA_SET_KEY_POLICY | PSA_GET_KEY_POLICY
                  | PSA_IMPORT_KEY | PSA_DESTROY_KEY | PSA_GET_KEY_INFORMATION
                  | PSA_EXPORT_KEY | PSA_EXPORT_PUBLIC_KEY | PSA_GENERATE_KEY
                  | PSA_ALLOCATE_KEY | PSA_CREATE_KEY | PSA_OPEN_KEY
                  | PSA_CLOSE_KEY) => true
  | PSA_GENERATOR, (PSA_GET_GENERATOR_CAPACITY | PSA_GENERATOR_READ
                    | PSA_GENERATOR_IMPORT_KEY | PSA_GENERATOR_ABORT
                    | PSA_KEY_DERIVATION | PSA_KEY_AGREEMENT) => true
  | _, _ => false
  end.

(** The key handle in the header of the asymmetric and AEAD kinds, which
    check it before they look at the operation code. *)
Definition early_checked_handle (signal : psa_signal_t) (msg : psa_msg_t) : option Z :=
  match signal with
  | PSA_ASYMMETRIC => Some (asym_handle (vec_asymmetric (msg_in_vec msg)))
  | PSA_AEAD => Some (aead_handle (vec_aead (msg_in_vec msg)))
  | _ => None
  end.

(** What serving a Call comes to: one reply, after a quiet stretch of the log
    that releases its scratch buffers; the globals changed only by the kind
    that owns them, and only on success; output vector 0 written only on
    success, the key information apart; the engine called only with key
    handles that the caller owns, with the caller as the owner of new keys,
    and on the context of the connection; a failed allocation reported. *)
Definition call_outcome (signal : psa_signal_t) (msg : psa_msg_t) (w w' : World) : Prop :=
  ∃ s seg,
    trace w' = EvReply (msg_handle msg) s :: seg ++ trace w ∧
    quiet seg ∧ scratch_released seg ∧
    (signal ≠ PSA_CRYPTO_INIT → signal ≠ PSA_CRYPTO_FREE →
     same_counter w w' ∧
     (signal ≠ PSA_HASH → same_clones w w') ∧
     (signal ≠ PSA_KEY_MNG → same_registry w w')) ∧
    (s ≠ PSA_SUCCESS →
     same_counter w w' ∧ same_registry w w' ∧ (signal ≠ PSA_HASH → same_clones w w')) ∧
    (call_func signal msg ≠ Some PSA_GET_KEY_INFORMATION →
     ∀ d n, (0%nat, d, n) ∈ writes seg → s = PSA_SUCCESS) ∧
    (∀ c kh, c ∈ engine_calls seg → key_handle_of c = Some kh →
             is_handle_permitted kh (client_id msg) (access_control w) = true) ∧
    (∀ c o, c ∈ engine_calls seg → key_owner_of c = Some o → o = client_id msg) ∧
    (∀ c p, c ∈ engine_calls seg → context_of c = Some p → p = rhandle msg) ∧
    alloc_failure_reported s seg.

(** The state in which serving the message leaves [w], when it returns. *)
Definition served (env : Env) (signal : psa_signal_t) (msg : psa_msg_t) (w : World) : World :=
  match serve env signal msg w with
  | Done _ w' => w'
  | _ => w
  end.

(** A message on channel 1 from partition 5 whose type is not one of the
    three that the partition knows. *)
Definition test_other : psa_msg_t := {|
  msg_type := PSA_IPC_OTHER 9; msg_handle := 1; client_id := 5; rhandle := NULL;
  msg_in_size := []; msg_out_size := []; msg_in_vec := zero_invec
|}.

(** The kinds whose Connect allocates an operation context, with its size. *)
Definition connect_context_size (env : Env) (signal : psa_signal_t) : option Z :=
  match signal with
  | PSA_MAC => Some (sizeof_psa_mac_operation_t env)
  | PSA_HASH => Some (sizeof_psa_hash_operation_t env)
  | PSA_SYMMETRIC => Some (sizeof_psa_cipher_operation_t env)
  | PSA_GENERATOR => Some (sizeof_psa_crypto_generator_t env)
  | _ => None
  end.

(** The environment with another allocator. *)
Definition with_allocator (f : list Event → Z → Z) (env : Env) : Env := {|
  sizeof_size_t := sizeof_size_t env;
  sizeof_psa_key_type_t := sizeof_psa_key_type_t env;
  sizeof_psa_key_mng_ipc_t := sizeof_psa_key_mng_ipc_t env;
  sizeof_psa_crypto_derivation_ipc_t := sizeof_psa_crypto_derivation_ipc_t env;
  sizeof_psa_mac_operation_t := sizeof_psa_mac_operation_t env;
  sizeof_psa_hash_operation_t := sizeof_psa_hash_operation_t env;
  sizeof_psa_cipher_operation_t := sizeof_psa_cipher_operation_t env;
  sizeof_psa_crypto_generator_t := sizeof_psa_crypto_generator_t env;
  PSA_KEY_TYPE_RSA_KEYPAIR := PSA_KEY_TYPE_RSA_KEYPAIR env;
  MBEDTLS_ENTROPY_MAX_SEED_SIZE := MBEDTLS_ENTROPY_MAX_SEED_SIZE env;
  entropy_injection_built := entropy_injection_built env;
  indeterminate_status := indeterminate_status env;
  indeterminate_index := indeterminate_index env;
  crypto_engine := crypto_engine env;
  channel_read := channel_read env;
  channel_get := channel_get env;
  channel_wait := channel_wait env;
  allocator := f
|}.

(** An allocator that has no memory left. *)
Definition out_of_memory_env : Env := with_allocator (λ _ _, NULL) nominal_env.

(** The environment with another [psa_read]. *)
Definition with_read (f : list Event → Z → nat → Z → Z) (env : Env) : Env := {|
  sizeof_size_t := sizeof_size_t env;
  sizeof_psa_key_type_t := sizeof_psa_key_type_t env;
  sizeof_psa_key_mng_ipc_t := sizeof_psa_key_mng_ipc_t env;
  sizeof_psa_crypto_derivation_ipc_t := sizeof_psa_crypto_derivation_ipc_t env;
  sizeof_psa_mac_operation_t := sizeof_psa_mac_operation_t env;
  sizeof_psa_hash_operation_t := sizeof_psa_hash_operation_t env;
  sizeof_psa_cipher_operation_t := sizeof_psa_cipher_operation_t env;
  sizeof_psa_crypto_generator_t := sizeof_psa_crypto_generator_t env;
  PSA_KEY_TYPE_RSA_KEYPAIR := PSA_KEY_TYPE_RSA_KEYPAIR env;
  MBEDTLS_ENTROPY_MAX_SEED_SIZE := MBEDTLS_ENTROPY_MAX_SEED_SIZE env;
  entropy_injection_built := entropy_injection_built env;
  indeterminate_status := indeterminate_status env;
  indeterminate_index := indeterminate_index env;
  crypto_engine := crypto_engine env;
  channel_read := f;
  channel_get := channel_get env;
  channel_wait := channel_wait env;
  allocator := allocator env
|}.

(** A channel that delivers one byte less than is asked for. *)
Definition short_read_env : Env := with_read (λ _ _ _ size, size - 1) nominal_env.

(** *** Generator connections *)

(** The state in which a generator Connect that obtained the context [p]
    leaves [w]. *)
Definition generator_connected (env : Env) (conn : psa_msg_t) (p : Z) (w : World) : World :=
  log (EvReply (msg_handle conn) PSA_SUCCESS)
    (log (EvSetRhandle (msg_handle conn) p)
       (log (EvCalloc (sizeof_psa_crypto_generator_t env) p) w)).

(** The state in which a generator Disconnect leaves [w]. *)
Definition generator_disconnected (disc : psa_msg_t) (w : World) : World :=
  log (EvReply (msg_handle disc) PSA_SUCCESS)
    (log (EvFree (rhandle disc))
       (log (EvEngine (psa_generator_abort (rhandle disc))) w)).

(** The Calls of a generator connection whose context is at 4096, made by
    the owner of key handle 7: a key derivation, a read of 32 bytes, an
    abort. *)
Definition test_generator_calls : list psa_msg_t :=
  [ test_call PSA_KEY_DERIVATION 4096 [16; 8; 8] [];
    test_call PSA_GENERATOR_READ 4096 [16] [32];
    test_call PSA_GENERATOR_ABORT 4096 [16] [] ].

(** The state after those Calls. *)
Definition test_generator_called : World :=
  match serve_all nominal_env PSA_GENERATOR test_generator_calls
          (generator_connected nominal_env test_connect 4096 world_with_key) with
  | Done _ w => w
  | _ => world_with_key
  end.

(** *** Hash clones *)

(** The reference count of every slot is below the largest value of its
    8-bit type. *)
Definition counts_below_wrap (clones : hash_clones) : Prop :=
  Forall (λ c, 0 <= ref_count c < 255) clones.

(** The hash Calls that end the operation of their connection. *)
Definition hash_completion (f : psa_sec_function_t) : Prop :=
  f = PSA_HASH_FINISH ∨ f = PSA_HASH_VERIFY ∨ f = PSA_HASH_ABORT.

(** A Call of the hash kind with the operation code [f]. *)
Definition hash_call (f : psa_sec_function_t) (msg : psa_msg_t) : Prop :=
  msg_type msg = PSA_IPC_CALL ∧ ipc_func (vec_crypto_ipc (msg_in_vec msg)) = f.

(** A hash Call on channel 2 from partition 5 with context [rh] and
    operation code [f], whose input vector 1 holds the word [word]. *)
Definition test_hash_call (f : psa_sec_function_t) (rh word : Z) (ins outs : list Z)
  : psa_msg_t := {|
  msg_type := PSA_IPC_CALL;
  msg_handle := 2;
  client_id := 5;
  rhandle := rh;
  msg_in_size := ins;
  msg_out_size := outs;
  msg_in_vec := {|
    vec_crypto_ipc := {| ipc_func := f; ipc_handle := 0; ipc_alg := 0 |};
    vec_asymmetric := vec_asymmetric zero_invec;
    vec_aead := vec_aead zero_invec;
    vec_key_mng := vec_key_mng zero_invec;
    vec_derivation := vec_derivation zero_invec;
    vec_word := λ _, word
  |}
|}.

(** A pool of two slots of which slot 0 is reserved twice by partition 5 for
    the context at 4096. *)
Definition world_with_clone : World := {|
  psa_spm_init_refence_counter := 1;
  psa_spm_hash_clones :=
    [ {| partition_id := 5; source_operation := 4096; ref_count := 2 |}; zero_clone ];
  access_control := registry_init;
  trace := []
|}.

(** *** Updates, entropy, lifecycle and dispatch *)

(** The size of the first chunk of an update Call. *)
Definition first_chunk (msg : psa_msg_t) : Z :=
  MIN (in_size msg 1) MAX_DATA_CHUNK_SIZE_IN_BYTES.

(** An environment in which entropy injection is built in. *)
Definition entropy_env : Env := {|
  sizeof_size_t := sizeof_size_t nominal_env;
  sizeof_psa_key_type_t := sizeof_psa_key_type_t nominal_env;
  sizeof_psa_key_mng_ipc_t := sizeof_psa_key_mng_ipc_t nominal_env;
  sizeof_psa_crypto_derivation_ipc_t := sizeof_psa_crypto_derivation_ipc_t nominal_env;
  sizeof_psa_mac_operation_t := sizeof_psa_mac_operation_t nominal_env;
  sizeof_psa_hash_operation_t := sizeof_psa_hash_operation_t nominal_env;
  sizeof_psa_cipher_operation_t := sizeof_psa_cipher_operation_t nominal_env;
  sizeof_psa_crypto_generator_t := sizeof_psa_crypto_generator_t nominal_env;
  PSA_KEY_TYPE_RSA_KEYPAIR := PSA_KEY_TYPE_RSA_KEYPAIR nominal_env;
  MBEDTLS_ENTROPY_MAX_SEED_SIZE := MBEDTLS_ENTROPY_MAX_SEED_SIZE nominal_env;
  entropy_injection_built := true;
  indeterminate_status := indeterminate_status nominal_env;
  indeterminate_index := indeterminate_index nominal_env;
  crypto_engine := crypto_engine nominal_env;
  channel_read := channel_read nominal_env;
  channel_get := channel_get nominal_env;
  channel_wait := channel_wait nominal_env;
  allocator := allocator nominal_env
|}.

(** The calls to the access control module in a stretch of the log. *)
Definition access_calls (t : list Event) : list access_call :=
  omap (λ e, match e with EvAccess a => Some a | _ => None end) t.

(** The engine reports success for every [psa_crypto_init]. *)
Definition init_succeeds (env : Env) : Prop :=
  ∀ t, er_status (crypto_engine env t psa_crypto_init) = PSA_SUCCESS.

(** Every message of the list is a Call. *)
Definition all_calls (msgs : list psa_msg_t) : Prop :=
  Forall (λ m, msg_type m = PSA_IPC_CALL) msgs.

(** The signals that are asserted, in the order in which the loop body
    tests them. *)
Definition asserted (signal : list psa_signal_t) : list psa_signal_t :=
  filter (λ s, s ∈ signal) signal_order.

(** [k] retrievals that deliver a message, followed by one that fails when
    a signal is left. *)
Definition retrievals (k : nat) (l : list psa_signal_t) : list (psa_signal_t * bool) :=
  ((λ s, (s, true)) <$> take k l) ++ ((λ s, (s, false)) <$> take 1 (drop k l)).

(** A channel on which the MAC, the hash and the cipher signals are
    asserted, a hash and a MAC message are pending, and [psa_get] finds no
    cipher message. *)
Definition cipher_get_fails_env : Env :=
  with_channel
    (λ _, [PSA_HASH; PSA_SYMMETRIC; PSA_MAC])
    (λ _ s, match s with
            | PSA_HASH => Some (test_call PSA_HASH_ABORT 77 [12] [])
            | PSA_MAC => Some (test_call PSA_MAC_ABORT 78 [12] [])
            | _ => None
            end)
    nominal_env.

(** The state in which one iteration of the loop leaves [w], when it
    returns. *)
Definition iterated (env : Env) (w : World) : World :=
  match crypto_main_iteration env w with
  | Done _ w' => w'
  | _ => w
  end.

(** *** What the engine reported *)

(** The statuses that the engine reported for its calls in the stretch [seg]
    of the log, which follows [t]; the newest first.  The engine answers each
    call from the log before the call. *)
Fixpoint reported (env : Env) (seg t : list Event) : list psa_status_t :=
  match seg with
  | [] => []
  | EvEngine c :: seg' => er_status (crypto_engine env (seg' ++ t) c) :: reported env seg' t
  | _ :: seg' => reported env seg' t
  end.

(** The loop of an update of [L] bytes that started after the log [t] and
    left the log [t']: it logged the stretch [seg], in which it invoked the
    sink [k] times, on the first [k] chunks; every invocation before the last
    reported success; it stopped short of the last chunk only on an invocation
    that reported a failure; and its status [s] is that of the last
    invocation, or the value [status] of the local before the loop when there
    was none. *)
Definition transfer_log (env : Env) (sink : Z → engine_call) (L : Z)
    (status : psa_status_t) (t t' seg : list Event) (k : nat) (s : psa_status_t) : Prop :=
  t' = seg ++ t ∧
  (k ≤ chunk_count L)%nat ∧
  engine_calls seg = rev (sink <$> take k (chunks (chunk_count L) L)) ∧
  replies seg = [] ∧
  length (reported env seg t) = k ∧
  Forall (λ x, x = PSA_SUCCESS) (tail (reported env seg t)) ∧
  ((k < chunk_count L)%nat →
   ∃ x, head (reported env seg t) = Some x ∧ x ≠ PSA_SUCCESS) ∧
  s = default status (head (reported env seg t)).

(** The log of an update Call that got its scratch buffer: the header read,
    the allocation, the loop, the release, the reply with the status of the
    loop. *)
Definition update_call_log (env : Env) (sink : Z → engine_call) (msg : psa_msg_t)
    (t t' : list Event) (k : nat) : Prop :=
  ∃ seg s p,
    let before :=
      [EvCalloc (first_chunk msg) p;
       EvRead (msg_handle msg) 0 (in_size msg 0) (in_size msg 0)] ++ t in
    t' = [EvReply (msg_handle msg) s; EvFree p] ++ seg ++ before ∧
    transfer_log env sink (in_size msg 1) (indeterminate_status env)
      before (seg ++ before) seg k s.

(** * Properties *)

(** ** The hash clone slot pool *)

Section Pool.

Implicit Types (clones : hash_clones) (c : psa_spm_hash_clone_t).

Lemma reserve_hash_clone_fresh pid src clones i clones1 :
  Forall clone_inv clones →
  Forall (λ c, ¬ clone_holds pid src c) clones →
  reserve_hash_clone pid src clones = (PSA_SUCCESS, i, clones1) →
  (i < length clones)%nat ∧
  clones1 = <[i := {| partition_id := pid; source_operation := src; ref_count := 1 |}]> clones.
Proof.
  intros Hinv Hnot. unfold reserve_hash_clone.
  assert (list_find (λ c, partition_id c = pid ∧ source_operation c = src) clones = None)
    as -> by (by apply list_find_None).
  destruct (list_find _ clones) as [[j c]|] eqn:Hfree; [|discriminate].
  intros [= <- <-].
  apply list_find_Some in Hfree as (Hj & Hc & _).
  split; [by eapply lookup_lt_Some|].
  assert (ref_count c = 0) as -> by (by apply (Forall_lookup_1 _ _ _ _ Hinv Hj)).
  reflexivity.
Qed.

Lemma reserve_hash_clone_again pid src clones i n :
  (i < length clones)%nat →
  (∀ j c, clones !! j = Some c → (j < i)%nat → ¬ clone_holds pid src c) →
  clones !! i = Some {| partition_id := pid; source_operation := src; ref_count := n |} →
  reserve_hash_clone pid src clones =
    (PSA_SUCCESS, i,
     <[i := {| partition_id := pid; source_operation := src; ref_count := uint8 (n + 1) |}]> clones).
Proof.
  intros Hi Hbefore Hat. unfold reserve_hash_clone.
  assert (list_find (λ c, partition_id c = pid ∧ source_operation c = src) clones
          = Some (i, {| partition_id := pid; source_operation := src; ref_count := n |}))
    as ->; [|reflexivity].
  apply list_find_Some. split; [done|]. split; [by split|exact Hbefore].
Qed.

Lemma reserve_hash_clone_full pid src clones :
  Forall clone_inv clones →
  Forall clone_live clones →
  Forall (λ c, ¬ clone_holds pid src c) clones →
  reserve_hash_clone pid src clones = (PSA_ERROR_BAD_STATE, length clones, clones).
Proof.
  intros Hinv Hlive Hnot. unfold reserve_hash_clone.
  assert (list_find (λ c, partition_id c = pid ∧ source_operation c = src) clones = None)
    as -> by (by apply list_find_None).
  assert (list_find (λ c, partition_id c = 0 ∧ source_operation c = NULL) clones = None)
    as ->; [|reflexivity].
  apply list_find_None, Forall_lookup. intros j c Hj Hfree.
  pose proof (Forall_lookup_1 _ _ _ _ Hinv Hj) as Hc.
  pose proof (Forall_lookup_1 _ _ _ _ Hlive Hj) as Hl.
  unfold clone_inv, clone_free, clone_live in *. apply Hc in Hfree. lia.
Qed.

(** C4. In a pool of capacity N whose slots satisfy the count-zero-iff-free
    invariant and do not yet hold the pair (caller identity, source
    operation): when a reservation of the pair succeeds at index [i], a second
    reservation of the same pair succeeds at the same index and leaves its
    reference count at 2; resolving that slot for the caller succeeds and
    leaves the count at 1 with the slot still holding the pair; and when all N
    slots are live, the reservation fails with the bad-state status and the
    pool is unchanged. *)
Theorem hash_clone_pool_reserve_twice_resolve_exhaust pid src clones :
  Forall clone_inv clones →
  Forall (λ c, ¬ clone_holds pid src c) clones →
  src ≠ NULL →
  (∀ i clones1,
     reserve_hash_clone pid src clones = (PSA_SUCCESS, i, clones1) →
     ∃ clones2,
       reserve_hash_clone pid src clones1 = (PSA_SUCCESS, i, clones2) ∧
       clones2 !! i =
         Some {| partition_id := pid; source_operation := src; ref_count := 2 |} ∧
       get_hash_clone (Z.of_nat i) pid clones2 = (PSA_SUCCESS, Some i) ∧
       release_hash_clone i clones2 !! i =
         Some {| partition_id := pid; source_operation := src; ref_count := 1 |} ∧
       clone_live {| partition_id := pid; source_operation := src; ref_count := 1 |}) ∧
  (Forall clone_live clones →
     reserve_hash_clone pid src clones = (PSA_ERROR_BAD_STATE, length clones, clones)).
Proof.
  intros Hinv Hnot Hsrc. split; [|intros Hlive; by apply reserve_hash_clone_full].
  intros i clones1 Hfirst.
  destruct (reserve_hash_clone_fresh _ _ _ _ _ Hinv Hnot Hfirst) as [Hi ->].
  eexists. split_and!.
  - apply reserve_hash_clone_again.
    + by rewrite length_insert.
    + intros j c Hj Hlt. rewrite list_lookup_insert_ne in Hj by lia.
      by apply (Forall_lookup_1 _ _ _ _ Hnot Hj).
    + by apply list_lookup_insert_eq.
  - rewrite list_lookup_insert_eq; [reflexivity|by rewrite length_insert].
  - unfold get_hash_clone. rewrite !length_insert.
    destruct (decide _) as [?|_]; [lia|].
    rewrite Nat2Z.id, list_lookup_insert_eq by (by rewrite length_insert). simpl.
    destruct (decide (pid ≠ pid)) as [?|_]; [done|].
    by destruct (decide (src = NULL)).
  - unfold release_hash_clone. rewrite list_lookup_alter_eq.
    rewrite list_lookup_insert_eq by (by rewrite length_insert). reflexivity.
  - unfold clone_live. simpl. lia.
Qed.

Lemma hash_clone_pool_reserve_twice_resolve_exhaust_witness :
  (∃ clones2,
     reserve_hash_clone 1 100
       (reserve_hash_clone 1 100 (replicate 2 zero_clone)).2 = (PSA_SUCCESS, 0%nat, clones2) ∧
     clones2 !! 0%nat =
       Some {| partition_id := 1; source_operation := 100; ref_count := 2 |} ∧
     get_hash_clone 0 1 clones2 = (PSA_SUCCESS, Some 0%nat) ∧
     release_hash_clone 0 clones2 !! 0%nat =
       Some {| partition_id := 1; source_operation := 100; ref_count := 1 |} ∧
     clone_live {| partition_id := 1; source_operation := 100; ref_count := 1 |}) ∧
  reserve_hash_clone 3 300 two_live_clones = (PSA_ERROR_BAD_STATE, 2%nat, two_live_clones).
Proof.
  split.
  - apply (proj1 (hash_clone_pool_reserve_twice_resolve_exhaust 1 100
                    (replicate 2 zero_clone) ltac:(compute_done) ltac:(compute_done)
                    ltac:(compute_done)) 0%nat).
    reflexivity.
  - apply (proj2 (hash_clone_pool_reserve_twice_resolve_exhaust 3 300
                    two_live_clones ltac:(compute_done) ltac:(compute_done)
                    ltac:(compute_done))).
    compute_done.
Defined.

(** *** The invariant of the pool *)

Lemma zero_clone_inv : clone_inv zero_clone.
Proof. cbv zeta. split_and!; compute_done. Qed.

Lemma reserve_hash_clone_inv pid src clones :
  pid ≠ 0 → src ≠ NULL →
  Forall clone_inv clones →
  Forall (λ c, 0 <= ref_count c < 255) clones →
  Forall clone_inv (reserve_hash_clone pid src clones).2.
Proof.
  intros Hpid Hsrc Hinv Hrange. unfold reserve_hash_clone.
  destruct (list_find _ clones) as [[i c]|] eqn:Hfind.
  - apply list_find_Some in Hfind as (Hi & [Hp Hs] & _). simpl.
    apply Forall_insert; [done|]. unfold clone_inv, clone_free. simpl.
    pose proof (Forall_lookup_1 _ _ _ _ Hrange Hi) as Hr. simpl in Hr.
    unfold uint8. rewrite Z.mod_small by lia. split; [intros ?; lia|intros [? ?]; congruence].
  - destruct (list_find (λ c, partition_id c = 0 ∧ _) clones) as [[i c]|] eqn:Hfree;
      simpl; [|done].
    apply list_find_Some in Hfree as (Hi & Hc & _).
    apply Forall_insert; [done|].
    assert (ref_count c = 0) as -> by (by apply (Forall_lookup_1 _ _ _ _ Hinv Hi)).
    unfold clone_inv, clone_free; simpl. split; [done|]. intros [? ?]; done.
Qed.

Lemma release_slot_inv c : source_operation c ≠ NULL → clone_inv (release_slot c).
Proof.
  intros Hsrc. unfold release_slot. destruct (decide _) as [?|Hr]; [apply zero_clone_inv|].
  unfold clone_inv, clone_free; simpl. split; [done|]. intros [? ?]; done.
Qed.

Lemma get_hash_clone_Some index pid clones hash_clone :
  get_hash_clone index pid clones = (PSA_SUCCESS, Some hash_clone) →
  ∃ c, clones !! hash_clone = Some c ∧ partition_id c = pid ∧ source_operation c ≠ NULL.
Proof.
  unfold get_hash_clone. destruct (decide _); [discriminate|].
  destruct (clones !! Z.to_nat index) as [c|] eqn:Hc; [|discriminate].
  destruct (decide (partition_id c ≠ pid)) as [?|Hp]; [discriminate|].
  destruct (decide (source_operation c = NULL)); [discriminate|].
  intros [= <-]. exists c. split_and!; [done| |done].
  destruct (decide (partition_id c = pid)); done.
Qed.

(** Resolving a slot ([get_hash_clone] then [release_hash_clone]) keeps the
    invariant. *)
Lemma release_hash_clone_inv index pid clones hash_clone :
  Forall clone_inv clones →
  get_hash_clone index pid clones = (PSA_SUCCESS, Some hash_clone) →
  Forall clone_inv (release_hash_clone hash_clone clones).
Proof.
  intros Hinv (c & Hc & _ & Hsrc)%get_hash_clone_Some.
  unfold release_hash_clone. apply Forall_alter; [done|].
  intros c' Hc' _. rewrite Hc in Hc'. injection Hc' as <-. by apply release_slot_inv.
Qed.

Lemma destroy_hash_clone_inv src clones :
  Forall clone_inv clones → Forall clone_inv (destroy_hash_clone src clones).
Proof.
  intros Hinv. unfold destroy_hash_clone.
  destruct (list_find _ clones) as [[i c]|]; [|done].
  apply Forall_insert; [done|apply zero_clone_inv].
Qed.

(** C9. The invariant "reference count 0 iff partition id 0 and null source
    operation" is lost by [reserve_hash_clone]: after 255 reservations of the
    pair (1, 100) in an empty pool of two slots the invariant holds and slot 0
    has reference count 255; the next reservation, made with a non-zero caller
    identity and a non-null source operation, wraps the 8-bit count to 0 and
    leaves the slot claimed, so its count has reached 0 and the slot is not
    the free-slot sentinel. *)
Theorem reserve_hash_clone_ref_count_wraps :
  let clones := reserve_times 255 1 100 (replicate 2 zero_clone) in
  Forall clone_inv clones ∧
  clones !! 0%nat = Some {| partition_id := 1; source_operation := 100; ref_count := 255 |} ∧
  reserve_hash_clone 1 100 clones =
    (PSA_SUCCESS, 0%nat,
     [ {| partition_id := 1; source_operation := 100; ref_count := 0 |}; zero_clone ]) ∧
  ¬ Forall clone_inv (reserve_hash_clone 1 100 clones).2.
Proof. cbv zeta. split_and!; compute_done. Qed.

(** *** Slots that refer to an operation context *)

Lemma context_unreferenced_unique p pid clones :
  context_unreferenced p clones → context_slot_unique p pid clones.
Proof.
  intros Hno. split.
  - intros i j s s' Hi _ Hs _. by destruct (Forall_lookup_1 _ _ _ _ Hno Hi).
  - eapply Forall_impl; [exact Hno|]. intros s Hs ?. by destruct Hs.
Qed.

(** A slot update that keeps the pair of the slot, or leaves a slot that does
    not refer to [p], keeps the uniqueness. *)
Lemma context_slot_unique_alter p pid clones f k :
  (∀ s, clones !! k = Some s →
        source_operation (f s) ≠ p ∨
        (source_operation (f s) = source_operation s ∧
         partition_id (f s) = partition_id s)) →
  context_slot_unique p pid clones → context_slot_unique p pid (alter f k clones).
Proof.
  intros Hf [Huniq Hown].
  assert (∀ i s, alter f k clones !! i = Some s → source_operation s = p →
            ∃ s0, clones !! i = Some s0 ∧ source_operation s0 = p ∧
                  partition_id s0 = partition_id s) as Hback.
  { intros i s Hi Hs. destruct (decide (k = i)) as [->|Hne].
    - rewrite list_lookup_alter_eq in Hi.
      destruct (clones !! i) as [s0|] eqn:Hs0; [|discriminate].
      injection Hi as <-. exists s0. split; [done|].
      destruct (Hf s0 eq_refl) as [?|[? ?]]; [done|]. split; congruence.
    - rewrite list_lookup_alter_ne in Hi by done. by exists s. }
  split.
  - intros i j s s' Hi Hj Hs Hs'.
    destruct (Hback _ _ Hi Hs) as (s0 & Hi0 & Hs0 & _).
    destruct (Hback _ _ Hj Hs') as (s0' & Hj0 & Hs0' & _).
    by apply (Huniq i j s0 s0').
  - apply Forall_lookup. intros i s Hi Hs.
    destruct (Hback _ _ Hi Hs) as (s0 & Hi0 & Hs0 & <-).
    by apply (Forall_lookup_1 _ _ _ _ Hown Hi0).
Qed.

Lemma context_slot_unique_reserve p pid clones :
  context_slot_unique p pid clones →
  context_slot_unique p pid (reserve_hash_clone pid p clones).2.
Proof.
  intros HJ. unfold reserve_hash_clone.
  destruct (list_find _ clones) as [[i s]|] eqn:Hfind.
  - simpl. apply list_find_Some in Hfind as (Hi & _ & _).
    rewrite list_insert_alter.
    apply context_slot_unique_alter; [|done]. intros s0 Hs0.
    rewrite Hi in Hs0. injection Hs0 as <-. by right.
  - destruct (list_find (λ c, partition_id c = 0 ∧ _) clones) as [[i s]|] eqn:Hfree;
      simpl; [|done].
    apply list_find_Some in Hfree as (Hi & _ & _).
    apply list_find_None in Hfind.
    destruct HJ as [Huniq Hown].
    assert (context_unreferenced p clones) as Hno.
    { apply Forall_lookup. intros j s' Hj Hs'.
      apply (Forall_lookup_1 _ _ _ _ Hfind Hj). split; [|done].
      by apply (Forall_lookup_1 _ _ _ _ Hown Hj). }
    pose proof (lookup_lt_Some _ _ _ Hi) as Hlt.
    split.
    + intros j k s1 s2 Hj Hk Hs1 Hs2.
      destruct (decide (i = j)) as [<-|Hij], (decide (i = k)) as [<-|Hik]; [done|..].
      * rewrite list_lookup_insert_ne in Hk by done.
        by destruct (Forall_lookup_1 _ _ _ _ Hno Hk).
      * rewrite list_lookup_insert_ne in Hj by done.
        by destruct (Forall_lookup_1 _ _ _ _ Hno Hj).
      * rewrite list_lookup_insert_ne in Hj by done.
        by destruct (Forall_lookup_1 _ _ _ _ Hno Hj).
    + apply Forall_insert; [done|]. done.
Qed.

Lemma context_slot_unique_release p pid clones hash_clone :
  p ≠ NULL →
  context_slot_unique p pid clones →
  context_slot_unique p pid (release_hash_clone hash_clone clones).
Proof.
  intros Hp. apply context_slot_unique_alter. intros s _. unfold release_slot.
  destruct (decide _); [left; simpl; congruence|by right].
Qed.

Lemma context_slot_unique_destroy p pid src clones :
  p ≠ NULL →
  context_slot_unique p pid clones →
  context_slot_unique p pid (destroy_hash_clone src clones).
Proof.
  intros Hp HJ. unfold destroy_hash_clone.
  destruct (list_find _ clones) as [[i s]|]; [|done].
  rewrite list_insert_alter. apply context_slot_unique_alter; [|done].
  intros s0 _. left. simpl. congruence.
Qed.

(** Once the only slot that refers to [p] is destroyed, none does. *)
Lemma context_unreferenced_destroy p pid clones :
  p ≠ NULL →
  context_slot_unique p pid clones →
  context_unreferenced p (destroy_hash_clone p clones).
Proof.
  intros Hp [Huniq _]. unfold destroy_hash_clone.
  destruct (list_find _ clones) as [[i s]|] eqn:Hfind.
  - apply list_find_Some in Hfind as (Hi & Hs & _).
    apply Forall_lookup. intros j s' Hj Hs'.
    destruct (decide (i = j)) as [<-|Hne].
    + rewrite list_lookup_insert_eq in Hj by (by eapply lookup_lt_Some).
      injection Hj as <-. simpl in Hs'. congruence.
    + rewrite list_lookup_insert_ne in Hj by done.
      apply Hne. by apply (Huniq i j s s').
  - by apply list_find_None in Hfind.
Qed.

End Pool.

(** ** Running the handlers *)

(** Unfolds the code of the partition and the accessors of its data, and
    nothing of the arithmetic or of the collaborators. *)
Ltac mcbv :=
  cbv [serve message_handler run_handler psa_key_management_operation
       psa_crypto_generator_operations key_management_call generator_call
       crypto_init_on_call crypto_free_on_call
       mac_on_connect mac_on_call mac_on_disconnect
       hash_on_connect hash_on_call hash_on_disconnect
       symmetric_on_connect symmetric_on_call symmetric_on_disconnect
       asymmetric_on_call aead_on_call entropy_on_call rng_on_call
       read_message_param read_size_t
       emit engine engine_status psa_read psa_write psa_reply psa_set_rhandle
       psa_wait psa_get mbedtls_calloc mbedtls_free
       psa_crypto_access_control_init psa_crypto_access_control_destroy
       psa_crypto_access_control_register_handle
       psa_crypto_access_control_unregister_handle
       psa_crypto_access_control_is_handle_permitted
       get_clones put_clones get_counter put_counter memset_hash_clones
       do_destroy_hash_clone SPM_PANIC
       bind ret log set_clones set_counter set_access
       psa_spm_init_refence_counter psa_spm_hash_clones access_control trace
       msg_type msg_handle client_id rhandle msg_in_size msg_out_size msg_in_vec
       vec_crypto_ipc vec_asymmetric vec_aead vec_key_mng vec_derivation vec_word
       ipc_func ipc_handle ipc_alg
       asym_func asym_handle asym_alg asym_input_length asym_salt_length
       aead_func aead_handle aead_alg aead_nonce_size aead_additional_data_length
       aead_input_length
       mng_func mng_handle mng_lifetime mng_type
       drv_func drv_handle drv_alg drv_capacity
       in_size out_size negb
       caller_handle call_func checked_header_size header_accepted
       engine_calls replies writes frees callocs omap list_omap app] in *.

(** Splits every record of a message and of the state into its fields. *)
Ltac open_msg msg :=
  destruct msg as [ty h cid rh ins outs
                     [[f1 kh1 alg1] [f2 kh2 alg2 il2 sl2] [f3 kh3 alg3 ns3 al3 il3]
                      [f4 kh4 lt4 ty4] [f5 kh5 alg5 cap5] words]].

Ltac open_world w := destruct w as [cnt clones reg t].

(** Decides the tests on which the code is stuck, from the hypotheses. *)
Ltac decide_refl :=
  repeat match goal with
    | |- context [decide (?x ≠ ?x)] => destruct (decide (x ≠ x)) as [?|_]; [done|]
    | |- context [decide (?x = ?x)] => destruct (decide (x = x)) as [_|?]; [|done]
    end.

(** Runs the code as far as the tests that a reliable channel settles. *)
Ltac crunch Hrel := repeat (progress (mcbv; rewrite ?Hrel; decide_refl)).

(** Splits on the status that an engine call reported. *)
Ltac case_status :=
  match goal with
  | |- context [decide (er_status ?r = PSA_SUCCESS)] =>
      destruct (decide (er_status r = PSA_SUCCESS)) as [Hs|Hs]
  end.

(** Closes [∃ w' seg, Done tt w = Done tt w' ∧ trace w' = e :: seg ++ t ∧ ...]
    once the left-hand side is a value. *)
Ltac close_seg tac :=
  first [ eexists _, []; split; [reflexivity|]; mcbv; split; [reflexivity|]; by tac
        | eexists _, [_]; split; [reflexivity|]; mcbv; split; [reflexivity|]; by tac
        | eexists _, [_; _]; split; [reflexivity|]; mcbv; split; [reflexivity|]; by tac
        | eexists _, [_; _; _]; split; [reflexivity|]; mcbv; split; [reflexivity|]; by tac
        | eexists _, [_; _; _; _]; split; [reflexivity|]; mcbv; split; [reflexivity|];
          by tac ].

(** The stretch that a run added to the log. *)
Lemma logged_since_app w w' seg :
  trace w' = seg ++ trace w → logged_since w w' = seg.
Proof.
  intros Htr. unfold logged_since. rewrite Htr, length_app.
  replace (length seg + length (trace w) - length (trace w))%nat with (length seg) by lia.
  by rewrite take_app_length.
Qed.

Lemma engine_calls_app t1 t2 : engine_calls (t1 ++ t2) = engine_calls t1 ++ engine_calls t2.
Proof. apply omap_app. Qed.

Lemma replies_app t1 t2 : replies (t1 ++ t2) = replies t1 ++ replies t2.
Proof. apply omap_app. Qed.

Lemma writes_app t1 t2 : writes (t1 ++ t2) = writes t1 ++ writes t2.
Proof. apply omap_app. Qed.

Lemma frees_app t1 t2 : frees (t1 ++ t2) = frees t1 ++ frees t2.
Proof. apply omap_app. Qed.

Lemma callocs_app t1 t2 : callocs (t1 ++ t2) = callocs t1 ++ callocs t2.
Proof. apply omap_app. Qed.

(** ** Calls with a key handle that the caller does not own *)

Section Rejection.

Context (env : Env).

(** The handle check fails: what [serve] does on a Call of a sub-operation
    that takes a key handle. *)
Lemma rejected_call signal msg w key_handle :
  msg_type msg = PSA_IPC_CALL →
  caller_handle signal msg = Some key_handle →
  header_accepted env signal msg →
  channel_read env (trace w) (msg_handle msg) 0 (in_size msg 0) = in_size msg 0 →
  is_handle_permitted key_handle (client_id msg) (access_control w) = false →
  ∃ w' seg,
    serve env signal msg w = Done tt w' ∧
    trace w' = EvReply (msg_handle msg) PSA_ERROR_INVALID_HANDLE :: seg ++ trace w ∧
    engine_calls seg = [] ∧ replies seg = [] ∧
    writes seg = rejected_writes env signal msg.
Proof.
  open_msg msg. open_world w. intros Hty Hh Hsz Hread Hperm.
  unfold rejected_writes. mcbv. subst ty.
  destruct signal; try discriminate Hh.
  - destruct f1; try discriminate Hh; injection Hh as ->;
      mcbv; rewrite Hread; decide_refl; mcbv; rewrite Hperm; mcbv;
      close_seg ltac:(case_decide).
  - destruct f1; try discriminate Hh; injection Hh as ->;
      mcbv; rewrite Hread; decide_refl; mcbv; rewrite Hperm; mcbv;
      close_seg ltac:(case_decide).
  - destruct f2; try discriminate Hh; injection Hh as ->;
      mcbv; rewrite Hread; decide_refl; mcbv; rewrite Hperm; mcbv;
      close_seg ltac:(case_decide).
  - destruct f3; try discriminate Hh; injection Hh as ->;
      mcbv; rewrite Hread; decide_refl; mcbv; rewrite Hperm; mcbv;
      close_seg ltac:(case_decide).
  - specialize (Hsz _ eq_refl). rewrite Hsz in *.
    destruct f4; try discriminate Hh; injection Hh as ->;
      mcbv; decide_refl; mcbv; rewrite Hread; decide_refl; mcbv; rewrite Hperm; mcbv;
      try close_seg ltac:(case_decide).
    decide_refl.
    destruct (decide (nth 0 outs 0 >= _)), (decide (nth 1 outs 0 >= _)); mcbv;
      close_seg ltac:(idtac).
  - specialize (Hsz _ eq_refl). rewrite Hsz in *.
    destruct f5; try discriminate Hh; injection Hh as ->;
      mcbv; decide_refl; mcbv; rewrite Hread; decide_refl; mcbv; rewrite Hperm; mcbv;
      close_seg ltac:(case_decide).
Qed.

(** C1. A Call of a sub-operation that takes a caller-supplied key handle,
    with a handle that the registry does not bind to the caller, is answered
    with exactly one reply, carrying the invalid-handle status, and adds no
    Crypto Engine call to the log.  (The header of the Call has reached the
    partition: its declared length passes the size check of the kinds that
    have one, and the channel delivers it.) *)
Theorem unregistered_handle_rejected_without_engine_call signal msg w key_handle :
  msg_type msg = PSA_IPC_CALL →
  caller_handle signal msg = Some key_handle →
  header_accepted env signal msg →
  channel_read env (trace w) (msg_handle msg) 0 (in_size msg 0) = in_size msg 0 →
  is_handle_permitted key_handle (client_id msg) (access_control w) = false →
  ∃ w',
    serve env signal msg w = Done tt w' ∧
    replies (trace w') = (msg_handle msg, PSA_ERROR_INVALID_HANDLE) :: replies (trace w) ∧
    engine_calls (trace w') = engine_calls (trace w).
Proof.
  intros Hty Hh Hsz Hread Hperm.
  destruct (rejected_call _ _ _ _ Hty Hh Hsz Hread Hperm)
    as (w' & seg & Hrun & Htrace & Heng & Hrep & _).
  exists w'. split; [done|]. rewrite Htrace.
  change (EvReply ?h ?s :: seg ++ trace w) with ([EvReply h s] ++ seg ++ trace w).
  rewrite !replies_app, !engine_calls_app, Heng, Hrep. done.
Qed.

(** C10. A [PSA_GET_KEY_INFORMATION] Call whose handle fails the access
    control check writes the zero key type to output vector 0 and the zero bit
    size to output vector 1, each when the declared capacity of the vector is
    at least the size of the field, and then replies invalid-handle; every
    other sub-operation that checks a handle writes to no output vector when
    the check fails. *)
Theorem rejected_get_key_information_writes_zeroes signal msg w key_handle :
  msg_type msg = PSA_IPC_CALL →
  caller_handle signal msg = Some key_handle →
  header_accepted env signal msg →
  channel_read env (trace w) (msg_handle msg) 0 (in_size msg 0) = in_size msg 0 →
  is_handle_permitted key_handle (client_id msg) (access_control w) = false →
  ∃ w' seg,
    serve env signal msg w = Done tt w' ∧
    trace w' = EvReply (msg_handle msg) PSA_ERROR_INVALID_HANDLE :: seg ++ trace w ∧
    writes seg =
      if decide (call_func signal msg = Some PSA_GET_KEY_INFORMATION) then
        (if decide (out_size msg 1 >= sizeof_size_t env)
         then [(1%nat, WValue 0, sizeof_size_t env)] else []) ++
        (if decide (out_size msg 0 >= sizeof_psa_key_type_t env)
         then [(0%nat, WValue 0, sizeof_psa_key_type_t env)] else [])
      else [].
Proof.
  intros Hty Hh Hsz Hread Hperm.
  destruct (rejected_call _ _ _ _ Hty Hh Hsz Hread Hperm)
    as (w' & seg & Hrun & Htrace & _ & _ & Hwr).
  by exists w', seg.
Qed.

End Rejection.

Lemma unregistered_handle_rejected_without_engine_call_witness :
  ∃ w',
    serve nominal_env PSA_KEY_MNG (test_call PSA_DESTROY_KEY 0 [16] []) initial_world
      = Done tt w' ∧
    replies (trace w') = [(1, PSA_ERROR_INVALID_HANDLE)] ∧
    engine_calls (trace w') = [].
Proof.
  apply (unregistered_handle_rejected_without_engine_call nominal_env PSA_KEY_MNG
           (test_call PSA_DESTROY_KEY 0 [16] []) initial_world 7).
  - reflexivity.
  - reflexivity.
  - intros n [= <-]. reflexivity.
  - reflexivity.
  - vm_compute. reflexivity.
Defined.

Lemma rejected_get_key_information_writes_zeroes_witness :
  ∃ w' seg,
    serve nominal_env PSA_KEY_MNG (test_call PSA_GET_KEY_INFORMATION 0 [16] [4; 4])
      initial_world = Done tt w' ∧
    trace w' = EvReply 1 PSA_ERROR_INVALID_HANDLE :: seg ++ [] ∧
    writes seg = [(1%nat, WValue 0, 4); (0%nat, WValue 0, 4)].
Proof.
  apply (rejected_get_key_information_writes_zeroes nominal_env PSA_KEY_MNG
           (test_call PSA_GET_KEY_INFORMATION 0 [16] [4; 4]) initial_world 7).
  - reflexivity.
  - reflexivity.
  - intros n [= <-]. reflexivity.
  - reflexivity.
  - vm_compute. reflexivity.
Defined.


(** ** Handles enter and leave the registry with the engine's success *)

Section KeyHandles.

Context (env : Env).

Lemma is_handle_permitted_register key_handle pid reg :
  is_handle_permitted key_handle pid (register_handle key_handle pid reg) = true.
Proof.
  unfold is_handle_permitted, register_handle.
  apply bool_decide_eq_true. apply lookup_insert_eq.
Qed.

Lemma is_handle_permitted_unregister key_handle pid reg :
  is_handle_permitted key_handle pid (unregister_handle key_handle reg) = false.
Proof.
  unfold is_handle_permitted, unregister_handle.
  apply bool_decide_eq_false. by rewrite lookup_delete_eq.
Qed.

(** C2. Key management Calls whose header is accepted, over a channel that
    delivers what is asked.  Allocate, create and open (the last two with the
    4 bytes of the client's key identifier in input vector 1) call the engine
    once;
    when it reports success, the handle it produced is registered to the
    caller, then written to the caller, then the success reply is sent, and
    the registry permits the caller on that handle.  Destroy and close of a
    handle registered to the caller call the engine once; the handle is
    unregistered when the engine reports success, and the registry is
    unchanged, the handle still registered, when it reports anything else. *)
Theorem key_handles_registered_and_unregistered_on_engine_success msg w :
  msg_type msg = PSA_IPC_CALL →
  in_size msg 0 = sizeof_psa_key_mng_ipc_t env →
  reliable_channel env →
  (∀ c, acquire_call msg = Some c → key_id_accepted msg →
     ∃ w' t,
       psa_key_management_operation env msg w = Done tt w' ∧
       engine_calls (trace w') = c :: engine_calls (trace w) ∧
       let r := crypto_engine env t c in
       replies (trace w') = (msg_handle msg, er_status r) :: replies (trace w) ∧
       (er_status r = PSA_SUCCESS →
          trace w' =
            EvReply (msg_handle msg) PSA_SUCCESS
            :: EvWrite (msg_handle msg) 0 (WValue (er_out r)) sizeof_psa_key_handle_t
            :: EvAccess (access_register (er_out r) (client_id msg))
            :: EvEngine c :: t ∧
          access_control w' =
            register_handle (er_out r) (client_id msg) (access_control w) ∧
          is_handle_permitted (er_out r) (client_id msg) (access_control w') = true)) ∧
  (∀ c, retire_call msg = Some c →
     let key_handle := mng_handle (vec_key_mng (msg_in_vec msg)) in
     is_handle_permitted key_handle (client_id msg) (access_control w) = true →
     ∃ w' t,
       psa_key_management_operation env msg w = Done tt w' ∧
       engine_calls (trace w') = c :: engine_calls (trace w) ∧
       let r := crypto_engine env t c in
       replies (trace w') = (msg_handle msg, er_status r) :: replies (trace w) ∧
       (er_status r = PSA_SUCCESS →
          access_control w' = unregister_handle key_handle (access_control w) ∧
          is_handle_permitted key_handle (client_id msg) (access_control w') = false) ∧
       (er_status r ≠ PSA_SUCCESS →
          access_control w' = access_control w ∧
          is_handle_permitted key_handle (client_id msg) (access_control w') = true)).
Proof.
  open_msg msg. open_world w. intros Hty Hsz Hrel. unfold key_id_accepted, acquire_call,
    retire_call. mcbv. subst ty. rewrite Hsz. split.
  - intros c Hc Hid.
    destruct f4; try discriminate Hc; injection Hc as <-.
    + crunch Hrel. case_status; mcbv.
      * eexists _, _. split; [reflexivity|]. mcbv. split; [reflexivity|].
        split; [reflexivity|]. intros _. rewrite Hs. split_and!; try reflexivity.
        apply is_handle_permitted_register.
      * eexists _, _. split; [reflexivity|]. mcbv. split; [reflexivity|].
        split; [reflexivity|]. intros ?. done.
    + destruct Hid as [?|Hid]; [discriminate|].
      mcbv. rewrite Hid. crunch Hrel. case_status; mcbv.
      * eexists _, _. split; [reflexivity|]. mcbv. split; [reflexivity|].
        split; [reflexivity|]. intros _. rewrite Hs. split_and!; try reflexivity.
        apply is_handle_permitted_register.
      * eexists _, _. split; [reflexivity|]. mcbv. split; [reflexivity|].
        split; [reflexivity|]. intros ?. done.
    + destruct Hid as [?|Hid]; [discriminate|].
      mcbv. rewrite Hid. crunch Hrel. case_status; mcbv.
      * eexists _, _. split; [reflexivity|]. mcbv. split; [reflexivity|].
        split; [reflexivity|]. intros _. rewrite Hs. split_and!; try reflexivity.
        apply is_handle_permitted_register.
      * eexists _, _. split; [reflexivity|]. mcbv. split; [reflexivity|].
        split; [reflexivity|]. intros ?. done.
  - intros c Hc Hperm.
    destruct f4; try discriminate Hc; injection Hc as <-.
    + crunch Hrel. rewrite Hperm. mcbv.
      case_status; mcbv.
      * eexists _, _. split; [reflexivity|]. mcbv. split; [reflexivity|].
        split; [reflexivity|]. split; [|done]. intros _. split; [reflexivity|].
        apply is_handle_permitted_unregister.
      * eexists _, _. split; [reflexivity|]. mcbv. split; [reflexivity|].
        split; [reflexivity|]. split; [done|]. intros _. by split.
    + crunch Hrel. rewrite Hperm. mcbv.
      case_status; mcbv.
      * eexists _, _. split; [reflexivity|]. mcbv. split; [reflexivity|].
        split; [reflexivity|]. split; [|done]. intros _. split; [reflexivity|].
        apply is_handle_permitted_unregister.
      * eexists _, _. split; [reflexivity|]. mcbv. split; [reflexivity|].
        split; [reflexivity|]. split; [done|]. intros _. by split.
Qed.

End KeyHandles.

Lemma key_handles_registered_and_unregistered_on_engine_success_witness :
  (∃ w' t,
     psa_key_management_operation nominal_env (test_call PSA_ALLOCATE_KEY 0 [16] [2])
       initial_world = Done tt w' ∧
     engine_calls (trace w') = [psa_allocate_key] ∧
     let r := crypto_engine nominal_env t psa_allocate_key in
     replies (trace w') = [(1, er_status r)] ∧
     (er_status r = PSA_SUCCESS →
        trace w' =
          EvReply 1 PSA_SUCCESS
          :: EvWrite 1 0 (WValue (er_out r)) sizeof_psa_key_handle_t
          :: EvAccess (access_register (er_out r) 5)
          :: EvEngine psa_allocate_key :: t ∧
        access_control w' = register_handle (er_out r) 5 registry_init ∧
        is_handle_permitted (er_out r) 5 (access_control w') = true)) ∧
  (∃ w' t,
     psa_key_management_operation nominal_env (test_call PSA_DESTROY_KEY 0 [16] [])
       world_with_key = Done tt w' ∧
     engine_calls (trace w') = [psa_destroy_key 7] ∧
     let r := crypto_engine nominal_env t (psa_destroy_key 7) in
     replies (trace w') = [(1, er_status r)] ∧
     (er_status r = PSA_SUCCESS →
        access_control w' = unregister_handle 7 (access_control world_with_key) ∧
        is_handle_permitted 7 5 (access_control w') = false) ∧
     (er_status r ≠ PSA_SUCCESS →
        access_control w' = access_control world_with_key ∧
        is_handle_permitted 7 5 (access_control w') = true)).
Proof.
  split.
  - apply (proj1 (key_handles_registered_and_unregistered_on_engine_success nominal_env
                    (test_call PSA_ALLOCATE_KEY 0 [16] [2]) initial_world
                    eq_refl eq_refl (λ _ _ _ _, eq_refl)) psa_allocate_key eq_refl).
    left. reflexivity.
  - apply (proj2 (key_handles_registered_and_unregistered_on_engine_success nominal_env
                    (test_call PSA_DESTROY_KEY 0 [16] []) world_with_key
                    eq_refl eq_refl (λ _ _ _ _, eq_refl)) (psa_destroy_key 7) eq_refl).
    vm_compute. reflexivity.
Defined.

(** ** Chunked transfer to the update sink *)

Section Chunks.

Context (env : Env).

Lemma MIN_chunk remaining :
  0 < remaining →
  0 < MIN remaining MAX_DATA_CHUNK_SIZE_IN_BYTES <= remaining.
Proof.
  intros ?. unfold MIN, MAX_DATA_CHUNK_SIZE_IN_BYTES. case_decide; lia.
Qed.

Lemma chunk_count_0 : chunk_count 0 = 0%nat.
Proof. reflexivity. Qed.

Lemma chunk_count_step remaining :
  0 < remaining →
  chunk_count remaining =
    S (chunk_count (remaining - MIN remaining MAX_DATA_CHUNK_SIZE_IN_BYTES)).
Proof.
  intros Hpos. unfold chunk_count, MIN, MAX_DATA_CHUNK_SIZE_IN_BYTES.
  destruct (decide (remaining < 400));
    (rewrite <- Z2Nat.inj_succ by (apply Z.div_pos; lia)); f_equal.
  - replace (remaining - remaining + (400 - 1)) with 399 by lia.
    change (399 / 400) with 0.
    assert (1 <= (remaining + (400 - 1)) / 400) by (apply Z.div_le_lower_bound; lia).
    assert ((remaining + (400 - 1)) / 400 < 2) by (apply Z.div_lt_upper_bound; lia).
    lia.
  - replace (remaining + (400 - 1)) with (remaining - 400 + (400 - 1) + 1 * 400) by lia.
    rewrite Z.div_add by lia. lia.
Qed.

(** ceil(L / C) chunks of [MIN remaining C] bytes add up to L. *)
Lemma chunks_sum fuel remaining :
  0 <= remaining → (Z.to_nat remaining ≤ fuel)%nat →
  sum_list_Z (chunks (chunk_count remaining) remaining) = remaining.
Proof.
  revert remaining. induction fuel as [|fuel IH]; intros remaining Hge Hfuel.
  - assert (remaining = 0) as -> by lia. reflexivity.
  - destruct (decide (remaining = 0)) as [->|Hne]; [reflexivity|].
    rewrite chunk_count_step by lia. simpl.
    pose proof (MIN_chunk remaining ltac:(lia)).
    rewrite IH by lia. lia.
Qed.

Lemma length_chunks n remaining : length (chunks n remaining) = n.
Proof. revert remaining. induction n; intros; simpl; by rewrite ?IHn. Qed.

(** The loop, when the channel delivers and the sink succeeds. *)
Lemma update_loop_succeeds sink msg :
  reliable_channel env → sink_succeeds env sink →
  ∀ fuel remaining status w,
    0 <= remaining → (Z.to_nat remaining ≤ fuel)%nat →
    ∃ w',
      update_loop env sink msg fuel remaining status w =
        Done (if decide (remaining > 0) then PSA_SUCCESS else status) w' ∧
      engine_calls (trace w') =
        rev (sink <$> chunks (chunk_count remaining) remaining) ++ engine_calls (trace w) ∧
      replies (trace w') = replies (trace w) ∧
      frees (trace w') = frees (trace w).
Proof.
  intros Hrel Hsink. induction fuel as [|fuel IH]; intros remaining status w Hge Hfuel.
  - assert (remaining = 0) as -> by lia. exists w. by simpl.
  - simpl. destruct (decide (remaining > 0)) as [Hpos|Hzero].
    + pose proof (MIN_chunk remaining ltac:(lia)) as Hmin.
      rewrite chunk_count_step by lia. simpl.
      unfold bind at 1. unfold psa_read at 1. rewrite Hrel. decide_refl.
      unfold bind at 1. unfold engine_status at 1, bind at 1, engine at 1, ret at 1.
      rewrite Hsink. decide_refl.
      destruct (IH (remaining - MIN remaining MAX_DATA_CHUNK_SIZE_IN_BYTES) PSA_SUCCESS
                  (log (EvEngine (sink (MIN remaining MAX_DATA_CHUNK_SIZE_IN_BYTES)))
                     (log (EvRead (msg_handle msg) 1
                             (MIN remaining MAX_DATA_CHUNK_SIZE_IN_BYTES)
                             (MIN remaining MAX_DATA_CHUNK_SIZE_IN_BYTES)) w)))
        as (w' & Hrun & Heng & Hrep & Hfree); [lia|lia|].
      exists w'. split.
      * rewrite Hrun. by case_decide.
      * rewrite Heng. split; [|done]. simpl. by rewrite <- app_assoc.
    + assert (remaining = 0) as -> by lia. exists w. by simpl.
Qed.

Lemma reported_app seg1 seg2 t :
  reported env (seg1 ++ seg2) t = reported env seg1 (seg2 ++ t) ++ reported env seg2 t.
Proof.
  induction seg1 as [|e seg1 IH]; [done|].
  destruct e; simpl; rewrite IH, <- ?app_assoc; reflexivity.
Qed.

(** A sink that always succeeds is reported to have succeeded. *)
Lemma reported_sink_succeeds sink seg t :
  sink_succeeds env sink →
  (∀ c, c ∈ engine_calls seg → ∃ n, c = sink n) →
  Forall (λ x, x = PSA_SUCCESS) (reported env seg t).
Proof.
  intros Hok. induction seg as [|e seg IH]; intros Hsink; [constructor|].
  destruct e; simpl in *; try (by apply IH).
  constructor.
  - destruct (Hsink c) as [n ->]; [by left|]. apply Hok.
  - apply IH. intros c' Hc'. apply Hsink. by right.
Qed.

(** The loop, when the channel delivers: it goes through the chunks in order
    until an invocation of the sink reports a failure. *)
Lemma update_loop_runs sink msg :
  reliable_channel env →
  ∀ fuel remaining status w,
    0 <= remaining → (Z.to_nat remaining ≤ fuel)%nat →
    ∃ w' s seg k,
      update_loop env sink msg fuel remaining status w = Done s w' ∧
      transfer_log env sink remaining status (trace w) (trace w') seg k s.
Proof.
  intros Hrel. unfold transfer_log.
  induction fuel as [|fuel IH]; intros remaining status w Hge Hfuel.
  - assert (remaining = 0) as -> by lia. exists w, status, [], 0%nat.
    simpl. split_and!; try done. intros Hlt. rewrite chunk_count_0 in Hlt. lia.
  - simpl. destruct (decide (remaining > 0)) as [Hpos|Hzero]; last first.
    { assert (remaining = 0) as -> by lia. exists w, status, [], 0%nat.
      simpl. split_and!; try done. intros Hlt. rewrite chunk_count_0 in Hlt. lia. }
    pose proof (MIN_chunk remaining ltac:(lia)) as Hmin.
    rewrite chunk_count_step by lia.
    set (size := MIN remaining MAX_DATA_CHUNK_SIZE_IN_BYTES) in *.
    unfold bind at 1. unfold psa_read at 1. rewrite Hrel. decide_refl.
    unfold bind at 1. unfold engine_status at 1, bind at 1, engine at 1, ret at 1.
    set (w1 := log (EvEngine (sink size)) (log (EvRead (msg_handle msg) 1 size size) w)).
    set (st := er_status _).
    destruct (decide (st ≠ PSA_SUCCESS)) as [Hfail|Hok].
    + exists w1, st, [EvEngine (sink size); EvRead (msg_handle msg) 1 size size], 1%nat.
      split; [reflexivity|]. simpl. split_and!; try done; [lia|eauto].
    + assert (st = PSA_SUCCESS) as Hst by (by destruct (decide (st = PSA_SUCCESS))).
      destruct (IH (remaining - size) st w1)
        as (w' & s & seg & k & Hrun & Htr & Hk & Heng & Hrep & Hlen & Htail & Hearly & Hs);
        [lia|lia|].
      exists w', s, (seg ++ [EvEngine (sink size); EvRead (msg_handle msg) 1 size size]),
        (S k).
      split; [exact Hrun|].
      assert (reported env
                (seg ++ [EvEngine (sink size); EvRead (msg_handle msg) 1 size size])
                (trace w) = reported env seg (trace w1) ++ [st]) as Hsts
        by (rewrite reported_app; reflexivity).
      rewrite Hsts, engine_calls_app, replies_app, Heng, Hrep.
      split; [by rewrite Htr, <- app_assoc|].
      split; [lia|]. split; [simpl; reflexivity|]. split; [done|].
      split; [rewrite length_app, Hlen; simpl; lia|].
      destruct (reported env seg (trace w1)) as [|x sts]; simpl in *.
      * split; [constructor|]. split; [|by rewrite Hs].
        intros Hlt. destruct Hearly as (? & ? & _); [lia|done].
      * split; [apply Forall_app; split; [done|by constructor]|].
        split; [|done]. intros Hlt. apply Hearly. lia.
Qed.

(** An update Call that gets its scratch buffer. *)
Lemma update_call_runs signal msg w sink :
  msg_type msg = PSA_IPC_CALL →
  update_sink signal msg = Some sink →
  reliable_channel env → allocation_succeeds env →
  0 <= in_size msg 1 →
  ∃ w' k,
    serve env signal msg w = Done tt w' ∧
    update_call_log env sink msg (trace w) (trace w') k.
Proof.
  open_msg msg. open_world w. intros Hty Hsink Hrel Halloc Hge.
  unfold update_sink in Hsink. mcbv. subst ty.
  destruct signal; try discriminate Hsink;
    (destruct (decide _) as [->|]; [injection Hsink as <-|discriminate Hsink]).
  all: crunch Hrel; unfold chunked_update; crunch Hrel.
  all: match goal with
       | |- context [decide (allocator ?e ?t ?n = NULL)] =>
           destruct (decide (allocator e t n = NULL)) as [Hnull|_];
           [by apply Halloc in Hnull|]
       end.
  all: match goal with
       | |- context [update_loop env ?s ?m ?f ?r ?st ?w] =>
           destruct (update_loop_runs s m Hrel f r st w Hge (le_n _))
             as (w' & s' & seg & k & -> & Hlog)
       end.
  all: destruct w' as [cnt' clones' reg' t']; mcbv.
  all: pose proof Hlog as (Htr & _).
  all: eexists _, k; split; [reflexivity|].
  all: unfold update_call_log, first_chunk, in_size; exists seg, s'; eexists; simpl.
  all: rewrite Htr in Hlog |- *; split; [reflexivity|exact Hlog].
Qed.

(** C3 (amended). For every declared input length L >= 0 and the chunk size
    C = 400, when the scratch buffer is allocated and the channel delivers
    what is asked, a hash-update or MAC-update Call invokes the sink on the
    chunks of min(remaining, C) bytes, in order, until an invocation reports
    a failure: there are ceil(L/C) chunks and their sizes add up to L; [k] of
    them are fed to the sink; every invocation before the last reported
    success, so that an invocation that reports a failure ends the transfer
    at that chunk; the transfer stops short of the last chunk only on such a
    failure; and the reply is the status of the last invocation.  When every
    invocation of the sink reports success the sink is invoked exactly
    ceil(L/C) times and for L > 0 the Call is answered with success.  For
    L = 0 the sink is not invoked. *)
Theorem chunked_update_feeds_sink_in_chunks signal msg w sink :
  msg_type msg = PSA_IPC_CALL →
  update_sink signal msg = Some sink →
  reliable_channel env → allocation_succeeds env →
  0 <= in_size msg 1 →
  let L := in_size msg 1 in
  ∃ w' k,
    serve env signal msg w = Done tt w' ∧
    (k ≤ chunk_count L)%nat ∧
    engine_calls (logged_since w w') = rev (sink <$> take k (chunks (chunk_count L) L)) ∧
    length (chunks (chunk_count L) L) = chunk_count L ∧
    sum_list_Z (chunks (chunk_count L) L) = L ∧
    length (reported env (logged_since w w') (trace w)) = k ∧
    Forall (λ s, s = PSA_SUCCESS) (tail (reported env (logged_since w w') (trace w))) ∧
    ((k < chunk_count L)%nat →
     ∃ s, head (reported env (logged_since w w') (trace w)) = Some s ∧ s ≠ PSA_SUCCESS) ∧
    (∀ s, head (reported env (logged_since w w') (trace w)) = Some s →
          replies (logged_since w w') = [(msg_handle msg, s)]) ∧
    (sink_succeeds env sink →
     k = chunk_count L ∧
     (0 < L → replies (logged_since w w') = [(msg_handle msg, PSA_SUCCESS)])) ∧
    (L = 0 → engine_calls (logged_since w w') = []).
Proof.
  intros Hty Hsink Hrel Halloc Hge L.
  destruct (update_call_runs signal msg w sink Hty Hsink Hrel Halloc Hge)
    as (w' & k & Hserve & seg & s & p & Htr & _ & Hk & Heng & Hrep & Hlen & Htail &
        Hearly & Hs).
  fold L in Hk, Heng, Hearly.
  set (before := [EvCalloc (first_chunk msg) p;
                  EvRead (msg_handle msg) 0 (in_size msg 0) (in_size msg 0)]) in *.
  set (sts := reported env seg (before ++ trace w)) in *.
  exists w', k.
  rewrite (logged_since_app w w'
             ([EvReply (msg_handle msg) s; EvFree p] ++ seg ++ before))
    by (by rewrite Htr, <- !app_assoc).
  assert (reported env (([EvReply (msg_handle msg) s; EvFree p] ++ seg) ++ before)
            (trace w) = sts) as Hsts.
  { rewrite reported_app. change (reported env before (trace w)) with (@nil psa_status_t).
    by rewrite app_nil_r. }
  rewrite (app_assoc _ seg before), Hsts.
  rewrite !engine_calls_app, !replies_app, Heng, Hrep. simpl. rewrite !app_nil_r.
  assert (∀ x, head sts = Some x → s = x) as Hhead by (intros x Hx; by rewrite Hs, Hx).
  split_and!; try done.
  - apply length_chunks.
  - by apply (chunks_sum (Z.to_nat L)).
  - intros x Hx. by rewrite (Hhead x Hx).
  - intros Hok.
    assert (Forall (λ x, x = PSA_SUCCESS) sts) as Hall.
    { apply reported_sink_succeeds with sink; [done|].
      intros c. rewrite Heng, list_elem_of_In, <- in_rev, <- list_elem_of_In,
        list_elem_of_fmap.
      intros (n & -> & _). eauto. }
    assert (k = chunk_count L) as Hfull.
    { destruct (decide (k < chunk_count L)%nat) as [Hlt|]; [|lia].
      destruct (Hearly Hlt) as (x & Hx & Hne). destruct sts as [|y sts']; [done|].
      injection Hx as ->. by apply Forall_cons_1 in Hall as [? _]. }
    split; [done|]. intros Hpos.
    assert (chunk_count L ≠ 0%nat) by (rewrite chunk_count_step by lia; lia).
    destruct sts as [|y sts']; [simpl in Hlen; lia|].
    apply Forall_cons_1 in Hall as [-> _]. by rewrite (Hhead PSA_SUCCESS eq_refl).
  - intros Hz. rewrite Hz, chunk_count_0 in Hk. by replace k with 0%nat by lia.
Qed.

End Chunks.

Lemma chunked_update_feeds_sink_in_chunks_witness :
  ∃ w' k,
    serve nominal_env PSA_HASH (test_call PSA_HASH_UPDATE 77 [12; 1000] []) initial_world
      = Done tt w' ∧
    (k ≤ chunk_count 1000)%nat ∧
    engine_calls (logged_since initial_world w') =
      rev (psa_hash_update 77 <$> take k (chunks (chunk_count 1000) 1000)) ∧
    length (chunks (chunk_count 1000) 1000) = chunk_count 1000 ∧
    sum_list_Z (chunks (chunk_count 1000) 1000) = 1000 ∧
    length (reported nominal_env (logged_since initial_world w') []) = k ∧
    Forall (λ s, s = PSA_SUCCESS)
      (tail (reported nominal_env (logged_since initial_world w') [])) ∧
    ((k < chunk_count 1000)%nat →
     ∃ s, head (reported nominal_env (logged_since initial_world w') []) = Some s ∧
          s ≠ PSA_SUCCESS) ∧
    (∀ s, head (reported nominal_env (logged_since initial_world w') []) = Some s →
          replies (logged_since initial_world w') = [(1, s)]) ∧
    (sink_succeeds nominal_env (psa_hash_update 77) →
     k = chunk_count 1000 ∧
     (0 < 1000 → replies (logged_since initial_world w') = [(1, PSA_SUCCESS)])) ∧
    (1000 = 0 → engine_calls (logged_since initial_world w') = []).
Proof.
  apply (chunked_update_feeds_sink_in_chunks nominal_env PSA_HASH
           (test_call PSA_HASH_UPDATE 77 [12; 1000] []) initial_world
           (psa_hash_update 77)).
  - reflexivity.
  - reflexivity.
  - intros t h i n. reflexivity.
  - intros t n. simpl. unfold NULL. lia.
  - vm_compute. discriminate.
Defined.

(** C3, as stated, fails: the loop stops at the first chunk that the sink
    refuses.  With a sink that reports a failure, an update of 1000 bytes
    invokes the sink once, on 400 bytes, where ceil(1000/400) = 3. *)
Lemma chunked_update_stops_at_failing_sink :
  ∃ w',
    serve (with_engine failing_engine nominal_env) PSA_HASH
      (test_call PSA_HASH_UPDATE 77 [12; 1000] []) initial_world = Done tt w' ∧
    engine_calls (trace w') = [psa_hash_update 77 400] ∧
    length (engine_calls (trace w')) ≠ chunk_count 1000 ∧
    replies (trace w') = [(1, PSA_ERROR_BAD_STATE)].
Proof. eexists. split; [vm_compute; reflexivity|]. vm_compute. by split_and!. Qed.

(** With no input at all the loop body never runs and the status local is
    returned as it was before its first assignment. *)
Lemma chunked_update_of_nothing_returns_indeterminate_status env signal msg w sink :
  msg_type msg = PSA_IPC_CALL →
  update_sink signal msg = Some sink →
  reliable_channel env → allocation_succeeds env →
  in_size msg 1 = 0 →
  ∃ w',
    serve env signal msg w = Done tt w' ∧
    engine_calls (trace w') = engine_calls (trace w) ∧
    replies (trace w') = (msg_handle msg, indeterminate_status env) :: replies (trace w).
Proof.
  open_msg msg. open_world w. intros Hty Hsink Hrel Halloc Hz.
  unfold update_sink in Hsink. mcbv. subst ty.
  destruct signal; try discriminate Hsink;
    (destruct (decide _) as [->|]; [injection Hsink as <-|discriminate Hsink]).
  all: crunch Hrel; unfold chunked_update; crunch Hrel.
  all: match goal with
       | |- context [decide (allocator ?e ?t ?n = NULL)] =>
           destruct (decide (allocator e t n = NULL)) as [Hnull|_];
           [by apply Halloc in Hnull|]
       end.
  all: rewrite Hz; simpl; mcbv.
  all: by eexists.
Qed.

(** ** The crypto subsystem reference count *)

(** Below [INT_MAX] the increment of [int] is the increment. *)
Lemma int_wrap_small x : - 2 ^ 31 <= x <= INT_MAX → int_wrap x = x.
Proof.
  unfold int_wrap, INT_MAX. intros Hx. rewrite Z.mod_small by lia. lia.
Qed.

(** C5 (amended). With a reference counter c >= 0: an init request made
    while the counter is below [INT_MAX] calls the engine's init entry point
    every time and, when that reports success, raises the counter by one,
    initialising the clone pool and the registry only on the transition from
    0 to 1; when it reports a failure nothing else changes.  A free request
    lowers a positive counter and tears down the clone pool, the registry and
    the engine exactly when the counter is then 0, that is on the transition
    from 1 to 0 and on a request made while the counter is already 0; at any
    counter above 1 it changes the counter only. *)
Theorem crypto_lifecycle_reference_count env msg w :
  let c := psa_spm_init_refence_counter w in
  0 <= c →
  (c < INT_MAX →
   crypto_init_on_call env msg w =
     (let status := er_status (crypto_engine env (trace w) psa_crypto_init) in
      let w1 := log (EvEngine psa_crypto_init) w in
      Done status
        (if decide (status = PSA_SUCCESS) then
           if decide (c = 0) then initialised w1 else set_counter (c + 1) w1
         else w1))) ∧
  crypto_free_on_call env msg w =
    Done PSA_SUCCESS (if decide (c <= 1) then torn_down w else set_counter (c - 1) w).
Proof.
  open_world w. unfold initialised, torn_down. mcbv. intros Hc. split.
  - intros Hmax. case_status; mcbv; [|reflexivity].
    rewrite !int_wrap_small by (unfold INT_MAX in *; lia).
    destruct (decide (cnt + 1 = 1)), (decide (cnt = 0)); try lia; subst; reflexivity.
  - destruct (decide (cnt > 0)); mcbv.
    + destruct (decide (cnt - 1 = 0)), (decide (cnt <= 1)); try lia; mcbv; [|reflexivity].
      by replace cnt with 1 by lia.
    + destruct (decide (cnt = 0)), (decide (cnt <= 1)); try lia; mcbv. by subst.
Qed.

Lemma crypto_lifecycle_reference_count_witness :
  crypto_init_on_call nominal_env (test_call (PSA_SEC_FUNCTION_UNKNOWN 0) 0 [] [])
    initial_world =
    Done PSA_SUCCESS (initialised (log (EvEngine psa_crypto_init) initial_world)) ∧
  crypto_free_on_call nominal_env (test_call (PSA_SEC_FUNCTION_UNKNOWN 0) 0 [] [])
    initial_world = Done PSA_SUCCESS (torn_down initial_world).
Proof.
  destruct (crypto_lifecycle_reference_count nominal_env
              (test_call (PSA_SEC_FUNCTION_UNKNOWN 0) 0 [] []) initial_world)
    as [Hinit Hfree].
  - vm_compute. discriminate.
  - split; [apply Hinit; reflexivity|exact Hfree].
Defined.

(** C5, as stated, fails.  A free request made while the counter is 0 tears
    down: the counter stays at 0, the live clone slot is wiped and the
    engine's free entry point is called.  An init request made while the
    counter is 1 calls the engine's init entry point. *)
Lemma crypto_free_at_zero_tears_down :
  (∃ w',
     crypto_free_on_call nominal_env (test_call (PSA_SEC_FUNCTION_UNKNOWN 0) 0 [] [])
       world_before_init = Done PSA_SUCCESS w' ∧
     psa_spm_init_refence_counter world_before_init = 0 ∧
     psa_spm_init_refence_counter w' = 0 ∧
     psa_spm_hash_clones w' = replicate 2 zero_clone ∧
     psa_spm_hash_clones w' ≠ psa_spm_hash_clones world_before_init ∧
     trace w' = [EvEngine mbedtls_psa_crypto_free; EvAccess access_destroy;
                 EvClones (replicate 2 zero_clone)]) ∧
  (∃ w',
     crypto_init_on_call nominal_env (test_call (PSA_SEC_FUNCTION_UNKNOWN 0) 0 [] [])
       world_with_key = Done PSA_SUCCESS w' ∧
     psa_spm_init_refence_counter world_with_key = 1 ∧
     psa_spm_init_refence_counter w' = 2 ∧
     engine_calls (trace w') = [psa_crypto_init]).
Proof.
  split; (eexists; split; [vm_compute; reflexivity|]); vm_compute; by split_and!.
Qed.

(** ** The operation context of a connection *)

Section Connection.

Context (env : Env).

Lemma Done_inj {A} (a a' : A) w w' : Done a w = Done a' w' → a = a' ∧ w = w'.
Proof. by intros [= -> ->]. Qed.

(** The update loop allocates nothing, releases nothing and leaves the pool
    alone. *)
Lemma update_loop_frame sink msg fuel :
  ∀ remaining status w s w',
    update_loop env sink msg fuel remaining status w = Done s w' →
    ∃ seg, trace w' = seg ++ trace w ∧ frees seg = [] ∧ callocs seg = [] ∧
           psa_spm_hash_clones w' = psa_spm_hash_clones w.
Proof.
  induction fuel as [|fuel IH]; intros remaining status w s w'; simpl.
  - destruct (decide _); [discriminate|]. intros [= <- <-]. by exists [].
  - destruct (decide (remaining > 0));
      [|intros Heq; injection Heq as Hs Hw; subst; by exists []].
    unfold bind at 1. unfold psa_read at 1.
    destruct (decide _); [discriminate|].
    unfold bind at 1. unfold engine_status at 1, bind at 1, engine at 1, ret at 1.
    destruct (decide _).
    + intros [= <- <-]. eexists [_; _]. simpl. split; [reflexivity|done].
    + intros (seg & -> & Hf & Hc & ->)%IH.
      eexists (seg ++ [_; _]). rewrite <- app_assoc. split; [reflexivity|].
      rewrite frees_app, callocs_app, Hf, Hc. done.
Qed.

Lemma scratch_only_refl t : scratch_only t t.
Proof. exists []. split; [done|]. intros q Hq. by apply elem_of_nil in Hq. Qed.

Lemma scratch_only_trans t1 t2 t3 :
  scratch_only t1 t2 → scratch_only t2 t3 → scratch_only t1 t3.
Proof.
  intros (seg1 & -> & H1) (seg2 & -> & H2). exists (seg2 ++ seg1).
  split; [by rewrite app_assoc|]. intros q.
  rewrite frees_app, callocs_app, !elem_of_app.
  intros [Hq|Hq]; [left; by apply H2|right; by apply H1].
Qed.

(** The chunked update releases the scratch buffer that it allocated. *)
Lemma chunked_update_frame sink msg w s w' :
  chunked_update env sink msg w = Done s w' →
  scratch_only (trace w) (trace w') ∧
  psa_spm_hash_clones w' = psa_spm_hash_clones w.
Proof.
  unfold chunked_update. unfold bind at 1. unfold mbedtls_calloc at 1.
  destruct (decide _).
  - intros [= <- <-]. split; [|done]. eexists [_]. simpl. split; [reflexivity|].
    intros q Hq. by apply elem_of_nil in Hq.
  - unfold bind at 1.
    destruct (update_loop _ _ _ _ _ _ _) as [s0 w0| |] eqn:Hloop; try discriminate.
    apply update_loop_frame in Hloop as (seg & Htr & Hf & Hc & Hpool).
    intros [= <- <-]. simpl. split; [|done]. rewrite Htr. simpl.
    eexists (EvFree _ :: seg ++ [EvCalloc _ _]).
    split; [simpl; rewrite <- app_assoc; reflexivity|]. intros q.
    change (EvFree ?x :: ?l) with ([EvFree x] ++ l).
    rewrite !frees_app, !callocs_app, Hf, Hc. simpl. set_solver.
Qed.

(** Evaluates the handler in [H] down to its outcomes. *)
Ltac eval_in H :=
  repeat (mcbv;
    match type of H with
    | context [decide ?P] => destruct (decide P)
    | context [chunked_update ?e ?s ?m ?w] =>
        let Hupd := fresh "Hupd" in
        destruct (chunked_update e s m w) as [? [? ? ? ?]| ? | ] eqn:Hupd;
        [apply chunked_update_frame in Hupd|..]
    | context [reserve_hash_clone ?a ?b ?c] =>
        let Hres := fresh "Hres" in
        pose proof (context_slot_unique_reserve b a c) as Hres;
        destruct (reserve_hash_clone a b c) as [[[] ?] ?]
    | context [get_hash_clone ?a ?b ?c] =>
        destruct (get_hash_clone a b c) as [[] [?|]]
    | context [is_handle_permitted ?a ?b ?c] => destruct (is_handle_permitted a b c)
    end);
  try discriminate H.

(** The log grew by the events listed, with every release matched. *)
Ltac close_scratch :=
  unfold scratch_only;
  first [ eexists []; split; [reflexivity|]
        | eexists [_]; split; [reflexivity|]
        | eexists [_; _]; split; [reflexivity|]
        | eexists [_; _; _]; split; [reflexivity|]
        | eexists [_; _; _; _]; split; [reflexivity|]
        | eexists [_; _; _; _; _]; split; [reflexivity|]
        | eexists [_; _; _; _; _; _]; split; [reflexivity|]
        | eexists [_; _; _; _; _; _; _]; split; [reflexivity|]
        | eexists [_; _; _; _; _; _; _; _]; split; [reflexivity|]
        | eexists [_; _; _; _; _; _; _; _; _]; split; [reflexivity|]
        | eexists [_; _; _; _; _; _; _; _; _; _]; split; [reflexivity|] ];
  unfold frees, callocs; simpl; intros ?; rewrite ?elem_of_cons, ?elem_of_nil; tauto.

(** The pool keeps at most one slot for the context. *)
Ltac close_unique :=
  let HJ := fresh "HJ" in
  intros HJ;
  first [ exact HJ
        | by apply context_slot_unique_destroy
        | by apply context_slot_unique_release
        | match goal with Hres : _ → context_slot_unique _ _ _ |- _ =>
            exact (Hres HJ) end ].

(** The outcome of a Call that went through [chunked_update]. *)
Ltac close_update H :=
  match goal with
  | Hupd : scratch_only _ _ ∧ _ |- _ =>
      let Hs := fresh "Hs" in
      let Hpool := fresh "Hpool" in
      destruct Hupd as [Hs Hpool]; apply Done_inj in H as [_ <-]; mcbv; split;
      [ eapply scratch_only_trans; [|eapply scratch_only_trans; [exact Hs|]];
        close_scratch
      | rewrite Hpool; by intros ? ]
  end.

(** A Call on a connection that owns the context [p] releases nothing but
    its own scratch buffers, and a hash Call leaves at most one slot of the
    pool on [p]. *)
Lemma call_frame signal msg w w' p c :
  context_kind signal → p ≠ NULL → call_on p c msg →
  serve env signal msg w = Done tt w' →
  scratch_only (trace w) (trace w') ∧
  (context_slot_unique p c (psa_spm_hash_clones w) →
   context_slot_unique p c (psa_spm_hash_clones w')).
Proof.
  open_msg msg. open_world w. unfold call_on.
  intros [->|[->| ->]] Hp (Hty & Hrh & Hc) H.
  all: mcbv; subst ty rh cid; destruct f1; eval_in H.
  all: try close_update H.
  all: apply Done_inj in H as [_ <-]; mcbv; split; [close_scratch|close_unique].
Qed.

Lemma serve_all_frame signal p c calls :
  context_kind signal → p ≠ NULL → Forall (call_on p c) calls →
  ∀ w w',
    serve_all env signal calls w = Done tt w' →
    scratch_only (trace w) (trace w') ∧
    (context_slot_unique p c (psa_spm_hash_clones w) →
     context_slot_unique p c (psa_spm_hash_clones w')).
Proof.
  intros Hkind Hp. induction 1 as [|msg calls Hmsg _ IH]; intros w w'; simpl.
  - intros [= <-]. split; [apply scratch_only_refl|done].
  - unfold bind. destruct (serve env signal msg w) as [[] w1| |] eqn:Hserve; try discriminate.
    intros Hrest.
    destruct (call_frame _ _ _ _ _ _ Hkind Hp Hmsg Hserve) as [Hs1 HJ1].
    destruct (IH _ _ Hrest) as [Hs2 HJ2].
    split; [by eapply scratch_only_trans|auto].
Qed.

Lemma releases_of_absent p seg : p ∉ frees seg → releases_of p seg = [].
Proof.
  unfold releases_of. induction (frees seg) as [|q l IH]; [done|].
  intros Hq. apply not_elem_of_cons in Hq as [Hne Hq].
  rewrite filter_cons_False by congruence. auto.
Qed.

(** C6. A connection of the hash, MAC or cipher kind whose Connect obtained
    the context [p], in a state where no slot of the clone pool refers to
    [p]; any Calls on the connection that all return, during which the
    allocator does not hand out the address [p] again; then the Disconnect.
    The Calls do not release [p].  The Disconnect does, in this order and
    nothing else: it calls the abort operation of the kind on [p]; for a
    hash connection it clears the slot of the pool that refers to [p], which
    leaves a pool in which no slot refers to [p]; it releases [p]; it
    replies.  Over the whole connection [p] is released exactly once. *)
Theorem context_released_once_at_disconnect signal conn calls disc w p w2 :
  context_kind signal →
  msg_type conn = PSA_IPC_CONNECT →
  allocator env (trace w) (sizeof_context env signal) = p → p ≠ NULL →
  context_unreferenced p (psa_spm_hash_clones w) →
  Forall (call_on p (client_id conn)) calls →
  msg_type disc = PSA_IPC_DISCONNECT → rhandle disc = p →
  serve_all env signal calls (connected env signal conn p w) = Done tt w2 →
  p ∉ callocs (logged_since (connected env signal conn p w) w2) →
  ∃ w',
    serve env signal conn w = Done tt (connected env signal conn p w) ∧
    (p ∉ frees (logged_since (connected env signal conn p w) w2)) ∧
    serve env signal disc w2 = Done tt w' ∧
    logged_since w2 w' =
      [EvReply (msg_handle disc) PSA_SUCCESS; EvFree p] ++
      pool_cleared signal (psa_spm_hash_clones w') ++
      [EvEngine (abort_call signal p)] ∧
    (signal = PSA_HASH →
     psa_spm_hash_clones w' = destroy_hash_clone p (psa_spm_hash_clones w2) ∧
     context_unreferenced p (psa_spm_hash_clones w')) ∧
    releases_of p (logged_since w w') = [p].
Proof.
  intros Hkind Hconn Halloc Hp Hfresh Hcalls Hdisc Hrh.
  set (w1 := connected env signal conn p w). intros Hrun Hnew.
  destruct (serve_all_frame _ _ _ _ Hkind Hp Hcalls _ _ Hrun) as [(seg & Hseg & Hsub) HJ].
  rewrite (logged_since_app _ _ _ Hseg) in *.
  assert (p ∉ frees seg) as Hnot by (intros Hin; by apply Hnew, Hsub).
  assert (context_slot_unique p (client_id conn) (psa_spm_hash_clones w2)) as HJ2
    by (by apply HJ, context_unreferenced_unique).
  assert (serve env signal conn w = Done tt w1) as Hstart.
  { subst w1. unfold connected. clear -Hkind Hconn Halloc Hp.
    open_msg conn. open_world w. mcbv. subst ty.
    destruct Hkind as [->|[->| ->]]; unfold sizeof_context in *; mcbv; rewrite Halloc;
      (destruct (decide (p = NULL)); [done|reflexivity]). }
  assert (∃ w',
            serve env signal disc w2 = Done tt w' ∧
            trace w' =
              ([EvReply (msg_handle disc) PSA_SUCCESS; EvFree p] ++
               pool_cleared signal (psa_spm_hash_clones w') ++
               [EvEngine (abort_call signal p)]) ++ trace w2 ∧
            (signal = PSA_HASH →
             psa_spm_hash_clones w' = destroy_hash_clone p (psa_spm_hash_clones w2) ∧
             context_unreferenced p (psa_spm_hash_clones w')))
    as (w' & Hend & Htr & Hpool).
  { clear -Hkind Hdisc Hrh Hp HJ2.
    open_msg disc. destruct w2 as [cnt2 clones2 reg2 t2]. mcbv. subst ty rh.
    destruct Hkind as [->|[->| ->]]; unfold abort_call, pool_cleared; mcbv;
      (destruct (decide (p ≠ NULL)); [|done]); mcbv.
    - eexists. split; [reflexivity|]. simpl. split; [reflexivity|done].
    - eexists. split; [reflexivity|]. simpl. split; [reflexivity|].
      intros _. split; [reflexivity|]. by eapply context_unreferenced_destroy.
    - eexists. split; [reflexivity|]. simpl. split; [reflexivity|done]. }
  exists w'. split_and!; try done.
  - by apply logged_since_app.
  - rewrite (logged_since_app w w'
               (([EvReply (msg_handle disc) PSA_SUCCESS; EvFree p] ++
                 pool_cleared signal (psa_spm_hash_clones w') ++
                 [EvEngine (abort_call signal p)]) ++
                seg ++
                [EvReply (msg_handle conn) PSA_SUCCESS; EvSetRhandle (msg_handle conn) p;
                 EvCalloc (sizeof_context env signal) p])).
    2: { rewrite Htr, Hseg. subst w1. unfold connected. simpl trace.
         by rewrite <- !app_assoc. }
    unfold releases_of. rewrite !frees_app.
    assert (frees (pool_cleared signal (psa_spm_hash_clones w')) = []) as ->
      by (by destruct signal).
    simpl. rewrite filter_cons_True by done. rewrite filter_app.
    fold (releases_of p seg). rewrite releases_of_absent by done. reflexivity.
Qed.

End Connection.

Lemma context_released_once_at_disconnect_witness :
  ∃ w',
    serve nominal_env PSA_HASH test_connect initial_world =
      Done tt (connected nominal_env PSA_HASH test_connect 4096 initial_world) ∧
    (4096 ∉ frees (logged_since
                     (connected nominal_env PSA_HASH test_connect 4096 initial_world)
                     test_hash_called)) ∧
    serve nominal_env PSA_HASH (test_disconnect 4096) test_hash_called = Done tt w' ∧
    logged_since test_hash_called w' =
      [EvReply 1 PSA_SUCCESS; EvFree 4096] ++
      pool_cleared PSA_HASH (psa_spm_hash_clones w') ++
      [EvEngine (psa_hash_abort 4096)] ∧
    (PSA_HASH = PSA_HASH →
     psa_spm_hash_clones w' =
       destroy_hash_clone 4096 (psa_spm_hash_clones test_hash_called) ∧
     context_unreferenced 4096 (psa_spm_hash_clones w')) ∧
    releases_of 4096 (logged_since initial_world w') = [4096].
Proof.
  apply (context_released_once_at_disconnect nominal_env PSA_HASH test_connect
           test_hash_calls (test_disconnect 4096) initial_world 4096 test_hash_called).
  - right. left. reflexivity.
  - reflexivity.
  - reflexivity.
  - discriminate.
  - unfold context_unreferenced. compute_done.
  - repeat constructor.
  - reflexivity.
  - reflexivity.
  - vm_compute. reflexivity.
  - compute_done.
Defined.

(** ** The declared length of the fixed header *)

(** The key management and generator kinds compare the declared length of
    input vector 0 with the size of their header and answer a mismatch with
    the communication-failure status, without reading the vector. *)
Lemma checked_header_length_mismatch env signal msg w n :
  msg_type msg = PSA_IPC_CALL →
  checked_header_size env signal = Some n →
  in_size msg 0 ≠ n →
  serve env signal msg w =
    Done tt (log (EvReply (msg_handle msg) PSA_ERROR_COMMUNICATION_FAILURE) w).
Proof.
  open_msg msg. open_world w. intros Hty Hsz Hne. mcbv. subst ty.
  destruct signal; try discriminate Hsz; injection Hsz as <-; mcbv.
  all: by destruct (decide _).
Qed.

(** The hash, MAC, cipher, asymmetric and AEAD kinds read input vector 0 at
    whatever length is declared and go on to the sub-operation. *)
Lemma unchecked_header_length_reaches_sub_operation env n w :
  reliable_channel env →
  ∃ w',
    serve env PSA_MAC (test_call PSA_MAC_ABORT 77 [n] []) w = Done tt w' ∧
    engine_calls (trace w') = psa_mac_abort 77 :: engine_calls (trace w) ∧
    replies (trace w') =
      (1, er_status (crypto_engine env (EvRead 1 0 n n :: trace w) (psa_mac_abort 77)))
      :: replies (trace w).
Proof.
  open_world w. intros Hrel. unfold test_call. crunch Hrel. by eexists.
Qed.

(** C7. A MAC Call and a hash Call that declare 4 bytes for input vector 0,
    which is not the size of the three-field header [psa_crypto_ipc_t], are
    not answered with the communication-failure status: the abort
    sub-operation is reached, the engine is called and its status is the
    reply. *)
Theorem mac_call_with_short_header_reaches_engine :
  (∃ w',
     serve nominal_env PSA_MAC (test_call PSA_MAC_ABORT 77 [4] []) initial_world
       = Done tt w' ∧
     engine_calls (trace w') = [psa_mac_abort 77] ∧
     replies (trace w') = [(1, PSA_SUCCESS)]) ∧
  (∃ w',
     serve nominal_env PSA_HASH (test_call PSA_HASH_ABORT 77 [4] []) initial_world
       = Done tt w' ∧
     engine_calls (trace w') = [psa_hash_abort 77] ∧
     replies (trace w') = [(1, PSA_SUCCESS)]).
Proof.
  split; (eexists; split; [vm_compute; reflexivity|]); vm_compute; by split_and!.
Qed.

(** ** One iteration of the dispatch loop *)

(** A failed [psa_get] leaves the loop body: whatever follows the block of
    the signal in the body is not run. *)
Lemma on_signal_get_fails env signal s rest w :
  s ∈ signal →
  channel_get env (trace w) s = None →
  on_signal env signal s rest w = Done tt (log (EvGet s false) w).
Proof.
  intros Hin Hget. unfold on_signal. destruct (decide (s ∈ signal)); [|done].
  unfold bind, psa_get. by rewrite Hget.
Qed.

(** C8. The MAC and the hash signals are asserted and a hash message is
    pending; [psa_get] fails for the MAC signal.  The iteration ends there:
    the hash message is not retrieved, its handlers do not run and no reply
    is sent. *)
Theorem failed_retrieval_skips_later_signals :
  ∃ w',
    crypto_main_iteration mac_get_fails_env initial_world = Done tt w' ∧
    trace w' = [EvGet PSA_MAC false; EvWait [PSA_MAC; PSA_HASH]] ∧
    engine_calls (trace w') = [] ∧
    replies (trace w') = [].
Proof. eexists. split; [vm_compute; reflexivity|]. vm_compute. by split_and!. Qed.

(** When the MAC message is delivered, both messages are served in the same
    iteration, each with one reply. *)
Lemma delivered_messages_are_served :
  ∃ w',
    crypto_main_iteration mac_get_succeeds_env initial_world = Done tt w' ∧
    engine_calls (trace w') = [psa_hash_abort 77; psa_mac_abort 78] ∧
    replies (trace w') = [(1, PSA_SUCCESS); (1, PSA_SUCCESS)].
Proof. eexists. split; [vm_compute; reflexivity|]. vm_compute. by split_and!. Qed.

(** * Further properties *)

(** ** The composite key identifier *)

Lemma assemble_psa_key_id_parts id partition_id :
  0 <= id < 2 ^ 32 →
  Z.shiftr (psa_crypto_access_control_assemble_psa_key_id id partition_id) 32 = id ∧
  Z.land (psa_crypto_access_control_assemble_psa_key_id id partition_id) (Z.ones 32)
    = uint32 partition_id.
Proof.
  intros Hid. unfold psa_crypto_access_control_assemble_psa_key_id, uint64, uint32.
  rewrite Z.shiftl_mul_pow2 by lia.
  rewrite (Z.mod_small (id * 2 ^ 32)) by lia.
  pose proof (Z.mod_pos_bound partition_id (2 ^ 32) ltac:(lia)) as Hlow.
  split.
  - rewrite Z.shiftr_lor, !Z.shiftr_div_pow2 by lia.
    rewrite Z.div_mul by lia. rewrite Z.div_small by lia. apply Z.lor_0_r.
  - rewrite Z.land_lor_distr_l, !Z.land_ones by lia.
    rewrite Z.mod_mul by lia. rewrite Z.mod_mod by lia. apply Z.lor_0_l.
Qed.

Lemma assemble_psa_key_id_fields id partition_id :
  0 <= id < 2 ^ 32 →
  - 2 ^ 31 <= partition_id < 2 ^ 31 →
  let key := psa_crypto_access_control_assemble_psa_key_id id partition_id in
  0 <= key < 2 ^ 64 ∧
  Z.shiftr key 32 = id ∧
  int32_of_bits (Z.land key (Z.ones 32)) = partition_id.
Proof.
  intros Hid Hpid key.
  destruct (assemble_psa_key_id_parts id partition_id Hid) as [Hhi Hlo].
  fold key in Hhi, Hlo. split_and!; [| |done|].
  - unfold key, psa_crypto_access_control_assemble_psa_key_id.
    apply Z.lor_nonneg. unfold uint64, uint32.
    split; apply Z.mod_pos_bound; lia.
  - assert (0 <= key) as Hnn.
    { unfold key, psa_crypto_access_control_assemble_psa_key_id.
      apply Z.lor_nonneg. unfold uint64, uint32. split; apply Z.mod_pos_bound; lia. }
    assert (Z.shiftr key 32 < 2 ^ 32) as Hlt by lia.
    rewrite Z.shiftr_div_pow2 in Hlt by lia.
    pose proof (Z.div_mod key (2 ^ 32) ltac:(lia)) as Hdm.
    pose proof (Z.mod_pos_bound key (2 ^ 32) ltac:(lia)) as Hm.
    change (2 ^ 64) with (2 ^ 32 * 2 ^ 32). nia.
  - rewrite Hlo. unfold int32_of_bits, uint32.
    destruct (decide (0 <= partition_id)).
    + rewrite Z.mod_small by lia. case_decide; lia.
    + replace (partition_id mod 2 ^ 32) with (partition_id + 2 ^ 32).
      * case_decide; lia.
      * apply Z.mod_unique with (q := -1); lia.
Qed.

(** X1. A 32-bit client key identifier and the partition identifier are both read
    back from the assembled identifier: the key identifier from its upper 32
    bits, the partition identifier from its lower 32 bits. *)
Theorem assemble_psa_key_id_round_trip id partition_id :
  0 <= id < 2 ^ 32 →
  - 2 ^ 31 <= partition_id < 2 ^ 31 →
  let key := psa_crypto_access_control_assemble_psa_key_id id partition_id in
  0 <= key < 2 ^ 64 ∧
  Z.shiftr key 32 = id ∧
  int32_of_bits (Z.land key (Z.ones 32)) = partition_id.
Proof. apply assemble_psa_key_id_fields. Qed.

Lemma assemble_psa_key_id_round_trip_witness :
  let key := psa_crypto_access_control_assemble_psa_key_id 305419896 (-1) in
  0 <= key < 2 ^ 64 ∧
  Z.shiftr key 32 = 305419896 ∧
  int32_of_bits (Z.land key (Z.ones 32)) = -1.
Proof.
  apply (assemble_psa_key_id_round_trip 305419896 (-1)); lia.
Defined.

(** X2. Two callers never obtain the same assembled identifier, whatever 32-bit
    key identifiers they name, and one caller obtains different assembled
    identifiers for different key identifiers. *)
Theorem assemble_psa_key_id_injective id1 pid1 id2 pid2 :
  0 <= id1 < 2 ^ 32 → 0 <= id2 < 2 ^ 32 →
  - 2 ^ 31 <= pid1 < 2 ^ 31 → - 2 ^ 31 <= pid2 < 2 ^ 31 →
  id1 ≠ id2 ∨ pid1 ≠ pid2 →
  psa_crypto_access_control_assemble_psa_key_id id1 pid1 ≠
    psa_crypto_access_control_assemble_psa_key_id id2 pid2.
Proof.
  intros H1 H2 Hp1 Hp2 Hne Heq.
  destruct (assemble_psa_key_id_fields id1 pid1 H1 Hp1) as (_ & Hi1 & Hl1).
  destruct (assemble_psa_key_id_fields id2 pid2 H2 Hp2) as (_ & Hi2 & Hl2).
  rewrite Heq in Hi1, Hl1. destruct Hne as [Hne|Hne]; apply Hne; congruence.
Qed.

Lemma assemble_psa_key_id_injective_witness :
  psa_crypto_access_control_assemble_psa_key_id 1 5 ≠
    psa_crypto_access_control_assemble_psa_key_id 1 (-5).
Proof.
  apply (assemble_psa_key_id_injective 1 5 1 (-5)); try lia.
Defined.

(** ** What serving a message adds to the log and leaves of the state *)

Lemma polls_app t1 t2 : polls (t1 ++ t2) = polls t1 ++ polls t2.
Proof. apply omap_app. Qed.

Lemma gets_app t1 t2 : gets (t1 ++ t2) = gets t1 ++ gets t2.
Proof. apply omap_app. Qed.

Lemma scratch_released_app seg1 seg2 :
  scratch_released seg1 → scratch_released seg2 → scratch_released (seg2 ++ seg1).
Proof.
  intros [Ha1 Hf1] [Ha2 Hf2]. split; intros q;
    rewrite frees_app, callocs_app, !elem_of_app.
  - intros [Hq|Hq] Hne; [left; by apply Ha2|right; by apply Ha1].
  - intros [Hq|Hq]; [destruct (Hf2 q Hq)|destruct (Hf1 q Hq)]; auto.
Qed.

Lemma quiet_app seg1 seg2 : quiet seg1 → quiet seg2 → quiet (seg2 ++ seg1).
Proof.
  intros [Hr1 Hp1] [Hr2 Hp2]. split.
  - by rewrite replies_app, Hr1, Hr2.
  - by rewrite polls_app, Hp1, Hp2.
Qed.

Lemma alloc_failure_reported_app s seg seg0 :
  callocs seg0 = [] → engine_calls seg0 = [] → writes seg0 = [] →
  alloc_failure_reported s seg → alloc_failure_reported s (seg ++ seg0).
Proof.
  unfold alloc_failure_reported. intros Hc He Hw.
  by rewrite callocs_app, engine_calls_app, writes_app, Hc, He, Hw, !app_nil_r.
Qed.

Section Frame.

Context (env : Env).

(** The update loop only reads the channel and calls the sink. *)
Lemma update_loop_only_reads_and_calls sink msg fuel :
  ∀ remaining status w s w',
    update_loop env sink msg fuel remaining status w = Done s w' →
    ∃ seg, trace w' = seg ++ trace w ∧ quiet seg ∧ writes seg = [] ∧
           callocs seg = [] ∧ frees seg = [] ∧ sink_calls sink seg ∧
           same_counter w w' ∧ same_clones w w' ∧ same_registry w w'.
Proof.
  assert (sink_calls sink []) as Hnil
    by (intros c Hc; by apply elem_of_nil in Hc).
  induction fuel as [|fuel IH]; intros remaining status w s w'; simpl.
  - destruct (decide _); [discriminate|]. intros Heq; injection Heq as _ <-.
    by exists [].
  - destruct (decide (remaining > 0));
      [|intros Heq; injection Heq as _ <-; by exists []].
    unfold bind at 1. unfold psa_read at 1.
    destruct (decide _); [discriminate|].
    unfold bind at 1. unfold engine_status at 1, bind at 1, engine at 1, ret at 1.
    destruct (decide _).
    + intros Heq; injection Heq as _ <-. eexists [_; _]. simpl.
      split_and!; try done. intros c Hc. apply list_elem_of_singleton in Hc. eauto.
    + intros (seg & -> & [Hr Hp] & Hw & Hc & Hf & Hs & ? & ? & ?)%IH.
      eexists (seg ++ [_; _]). rewrite <- app_assoc. split; [reflexivity|].
      unfold quiet. rewrite replies_app, polls_app, writes_app, callocs_app, frees_app.
      rewrite Hr, Hp, Hw, Hc, Hf. split_and!; try done.
      intros c. rewrite engine_calls_app, elem_of_app. intros [Hin|Hin]; [by apply Hs|].
      apply list_elem_of_singleton in Hin. eauto.
Qed.

(** The chunked update releases the scratch buffer on every path that
    returns, writes nothing to the caller and touches none of the globals. *)
Lemma chunked_update_released sink msg w s w' :
  chunked_update env sink msg w = Done s w' →
  ∃ seg, trace w' = seg ++ trace w ∧ scratch_traffic seg ∧ sink_calls sink seg ∧
         alloc_failure_reported s seg ∧
         same_counter w w' ∧ same_clones w w' ∧ same_registry w w'.
Proof.
  unfold scratch_traffic, alloc_failure_reported, chunked_update. unfold bind at 1. unfold mbedtls_calloc at 1.
  destruct (decide _) as [Hnull|Hnn].
  - intros Heq; injection Heq as <- <-. eexists [_]. simpl.
    split_and!; try done; [|intros c Hc; by apply elem_of_nil in Hc].
    split; intros q Hq.
    + intros Hne. apply list_elem_of_singleton in Hq. congruence.
    + by apply elem_of_nil in Hq.
  - unfold bind at 1.
    destruct (update_loop _ _ _ _ _ _ _) as [s0 w0| |] eqn:Hloop; try discriminate.
    apply update_loop_only_reads_and_calls in Hloop
      as (seg & Htr & [Hr Hp] & Hw & Hc & Hf & Hs & Hcnt & Hcl & Hreg).
    intros Heq; injection Heq as _ <-. simpl. simpl in Htr. rewrite Htr.
    eexists (EvFree _ :: seg ++ [EvCalloc _ _]).
    split; [simpl; rewrite <- app_assoc; reflexivity|].
    change (EvFree ?x :: ?l) with ([EvFree x] ++ l).
    unfold quiet, scratch_released, sink_calls.
    rewrite !replies_app, !polls_app, !writes_app, !frees_app, !callocs_app,
      !engine_calls_app.
    rewrite Hr, Hp, Hw, Hc, Hf. simpl. rewrite app_nil_r.
    split_and!; try done; try (intros q; rewrite ?elem_of_cons, ?elem_of_nil; tauto).
    intros Hin. apply list_elem_of_singleton in Hin. congruence.
Qed.

End Frame.

(** Evaluates the handler in [H] down to its outcomes. *)
Ltac eval_all H :=
  repeat (mcbv;
    match type of H with
    | context [decide ?P] => destruct (decide P)
    | context [chunked_update ?e ?s ?m ?w] =>
        let Hupd := fresh "Hupd" in
        let t0 := fresh "t0" in
        let seg := fresh "seg_u" in
        let Htr := fresh "Htr" in
        destruct (chunked_update e s m w) as [? [? ? ? t0]| ? | ] eqn:Hupd;
        [apply chunked_update_released in Hupd as (seg & Htr & Hupd);
         simpl in Htr; subst t0|..]
    | context [reserve_hash_clone ?a ?b ?c] =>
        destruct (reserve_hash_clone a b c) as [[[] ?] ?]
    | context [get_hash_clone ?a ?b ?c] =>
        destruct (get_hash_clone a b c) as [[] [?|]]
    | context [is_handle_permitted ?a ?b ?c] => destruct (is_handle_permitted a b c) eqn:?
    | context [entropy_injection_built ?e] => destruct (entropy_injection_built e)
    end);
  try discriminate H.

(** Membership goals over the addresses allocated and released. *)
Ltac split_elem Hq :=
  first [ destruct Hq as [Hq|Hq]; [|split_elem Hq] | idtac ].

Ltac close_addresses :=
  let q := fresh "q" in
  let Hq := fresh "Hq" in
  intros q Hq; rewrite ?elem_of_cons, ?elem_of_nil in Hq; split_elem Hq;
  (try (destruct Hq; fail)); subst q; rewrite ?elem_of_cons, ?elem_of_nil;
  intros; first [ exfalso; congruence | auto 12 ].

(** [quiet] and [scratch_released] for a stretch whose events are listed. *)
Ltac close_quiet := unfold quiet, replies, polls; simpl; by split.

Ltac close_released :=
  unfold scratch_released, frees, callocs; simpl; split; close_addresses.

(** The globals are as before, or the hypotheses exclude the case. *)
Ltac close_state :=
  unfold same_counter, same_clones, same_registry; simpl; intros;
  repeat split; intros; first [ done | congruence ].

(** A write to output vector 0 was made after a success. *)
Ltac close_writes :=
  let Hne := fresh "Hne" in
  let d := fresh "d" in
  let n := fresh "n" in
  let Hin := fresh "Hin" in
  intros Hne d n Hin;
  first [ by destruct Hne
        | unfold writes in Hin; simpl in Hin;
          rewrite ?elem_of_cons, ?elem_of_nil in Hin; split_elem Hin;
          (try (destruct Hin; fail)); first [ discriminate Hin | congruence ] ].

(** An engine call of the stretch has the argument that is asked for. *)
Ltac close_engine :=
  let c := fresh "c" in
  let Hin := fresh "Hin" in
  let Hk := fresh "Hk" in
  intros c ? Hin Hk; unfold engine_calls in Hin; simpl in Hin;
  rewrite ?elem_of_cons, ?elem_of_nil in Hin; split_elem Hin;
  (try (destruct Hin; fail)); subst c; simpl in Hk;
  first [ discriminate Hk
        | injection Hk as <-; first [ reflexivity | assumption | congruence ] ].

(** The same when the engine calls are those of a transfer. *)
Ltac close_sink Hsink :=
  let c := fresh "c" in
  let Hin := fresh "Hin" in
  let Hk := fresh "Hk" in
  intros c ? Hin Hk; rewrite engine_calls_app in Hin; simpl in Hin;
  rewrite app_nil_r in Hin; destruct (Hsink c Hin) as [? ->]; simpl in Hk;
  first [ discriminate Hk | injection Hk as <-; reflexivity ].

(** No allocation of the stretch failed, or the failure is reported. *)
Ltac close_alloc :=
  let Hin := fresh "Hin" in
  unfold alloc_failure_reported, callocs, engine_calls, writes; simpl;
  intros Hin; rewrite ?elem_of_cons, ?elem_of_nil in Hin; split_elem Hin;
  (try (destruct Hin; fail)); first [ by split_and! | exfalso; congruence ].

(** The outcome of a Call whose log is listed. *)
Ltac close_call :=
  first [ eexists _, []; split; [reflexivity|]
        | eexists _, [_]; split; [reflexivity|]
        | eexists _, [_; _]; split; [reflexivity|]
        | eexists _, [_; _; _]; split; [reflexivity|]
        | eexists _, [_; _; _; _]; split; [reflexivity|]
        | eexists _, [_; _; _; _; _]; split; [reflexivity|]
        | eexists _, [_; _; _; _; _; _]; split; [reflexivity|]
        | eexists _, [_; _; _; _; _; _; _]; split; [reflexivity|]
        | eexists _, [_; _; _; _; _; _; _; _]; split; [reflexivity|]
        | eexists _, [_; _; _; _; _; _; _; _; _]; split; [reflexivity|] ];
  split; [close_quiet|]; split; [close_released|];
  split; [close_state|]; split; [close_state|]; split; [close_writes|];
  split; [close_engine|]; split; [close_engine|]; split; [close_engine|close_alloc].

Section Served.

Context (env : Env).

(** What serving a Call comes to, whatever its kind. *)
Lemma call_served signal msg w w' :
  msg_type msg = PSA_IPC_CALL →
  serve env signal msg w = Done tt w' →
  call_outcome signal msg w w'.
Proof.
  open_msg msg. open_world w. intros Hty H. mcbv. subst ty.
  destruct signal;
    [ | destruct f1 | destruct f1 | destruct f1 | destruct f2 | destruct f3
      | destruct f4 | | | destruct f5 | ];
    eval_all H.
  all: apply Done_inj in H as [_ <-]; unfold call_outcome; simpl.
  all: try match goal with
       | Hupd : scratch_traffic _ ∧ _ |- _ =>
           destruct Hupd as ((Hq & Hrel & Hwr) & Hsink & Hfail & Hcnt & Hcl & Hreg);
           eexists _, (_ ++ [_]); split; [rewrite <- app_assoc; reflexivity|];
           split; [apply quiet_app; [close_quiet|exact Hq]|];
           split; [apply scratch_released_app; [close_released|exact Hrel]|];
           split; [revert Hcnt Hcl Hreg; close_state|];
           split; [revert Hcnt Hcl Hreg; close_state|];
           split; [intros _ ? ? Hin; rewrite writes_app, Hwr in Hin;
                   by apply elem_of_nil in Hin|];
           split; [close_sink Hsink|]; split; [close_sink Hsink|];
           split; [close_sink Hsink|];
           by apply alloc_failure_reported_app
       end.
  all: close_call.
Qed.

End Served.

(** ** Every message, whatever its kind *)

Lemma gets_quiet seg : polls seg = [] → gets seg = [].
Proof.
  unfold polls, gets. induction seg as [|e seg IH]; [done|].
  destruct e; simpl; try discriminate; auto.
Qed.

Lemma msg_type_call_or_not msg :
  msg_type msg = PSA_IPC_CALL ∨ msg_type msg ≠ PSA_IPC_CALL.
Proof. destruct (msg_type msg); auto. Qed.

Section Messages.

Context (env : Env).

(** What serving a Connect or a Disconnect comes to. *)
Lemma session_served signal msg w w' :
  msg_type msg ≠ PSA_IPC_CALL →
  serve env signal msg w = Done tt w' →
  ∃ s seg,
    trace w' = EvReply (msg_handle msg) s :: seg ++ trace w ∧
    quiet seg ∧ writes seg = [] ∧
    same_counter w w' ∧ same_registry w w' ∧ (signal ≠ PSA_HASH → same_clones w w') ∧
    (∀ c p, c ∈ engine_calls seg → context_of c = Some p → p = rhandle msg).
Proof.
  open_msg msg. open_world w. intros Hty H. mcbv.
  destruct ty; [|done| |]; destruct signal; eval_all H.
  all: apply Done_inj in H as [_ <-]; simpl.
  all: first [ eexists _, []; split; [reflexivity|]
             | eexists _, [_]; split; [reflexivity|]
             | eexists _, [_; _]; split; [reflexivity|]
             | eexists _, [_; _; _]; split; [reflexivity|] ].
  all: split; [close_quiet|]; split; [reflexivity|].
  all: split; [close_state|]; split; [close_state|]; split; [close_state|close_engine].
Qed.

(** What serving a message of any type comes to. *)
Lemma message_served signal msg w w' :
  serve env signal msg w = Done tt w' →
  ∃ s seg, trace w' = EvReply (msg_handle msg) s :: seg ++ trace w ∧ quiet seg.
Proof.
  intros H. destruct (msg_type_call_or_not msg) as [Hty|Hty].
  - destruct (call_served env _ _ _ _ Hty H) as (s & seg & ? & ? & _). eauto.
  - destruct (session_served _ _ _ _ Hty H) as (s & seg & ? & ? & _). eauto.
Qed.

(** X3. Whatever the kind and the type of the message, when serving it
    returns, the last thing it did was to reply on the channel of the
    message; it sent no other reply and did not poll the Secure Channel. *)
Theorem served_message_gets_one_reply signal msg w w' :
  serve env signal msg w = Done tt w' →
  ∃ s, head (trace w') = Some (EvReply (msg_handle msg) s) ∧
       replies (logged_since w w') = [(msg_handle msg, s)] ∧
       polls (logged_since w w') = [].
Proof.
  intros (s & seg & Htr & Hr & Hp)%message_served.
  exists s. rewrite (logged_since_app w w' (EvReply (msg_handle msg) s :: seg)) by done.
  rewrite Htr. change (EvReply ?h ?x :: seg) with ([EvReply h x] ++ seg).
  by rewrite replies_app, polls_app, Hr, Hp.
Qed.

(** X4. A message whose type is none of Connect, Call and Disconnect makes
    the partition panic, whatever its kind: nothing is logged, no reply is
    sent and the state is as it was. *)
Theorem unexpected_message_type_panics signal msg w k :
  msg_type msg = PSA_IPC_OTHER k →
  serve env signal msg w = Panicked w.
Proof. open_msg msg. open_world w. mcbv. intros ->. by destruct signal. Qed.

(** X5. While it serves a Call that returns, the partition releases every
    buffer that it allocates, and releases no buffer that it did not
    allocate for that Call. *)
Theorem call_releases_its_scratch_buffers signal msg w w' q :
  msg_type msg = PSA_IPC_CALL →
  serve env signal msg w = Done tt w' →
  q ≠ NULL →
  q ∈ callocs (logged_since w w') ↔ q ∈ frees (logged_since w w').
Proof.
  intros Hty H Hq.
  destruct (call_served env _ _ _ _ Hty H) as (s & seg & Htr & _ & [Ha Hf] & _).
  rewrite (logged_since_app w w' (EvReply (msg_handle msg) s :: seg)) by done.
  change (q ∈ callocs seg ↔ q ∈ frees seg). split; [auto|].
  intros Hin. by destruct (Hf q Hin).
Qed.

(** X6. The reference counter is changed only by the init and the free
    kinds; apart from those two, which reset them, the clone pool is changed
    only by the hash kind and the registry only by the key management kind. *)
Theorem globals_change_only_in_their_kind signal msg w w' :
  serve env signal msg w = Done tt w' →
  signal ≠ PSA_CRYPTO_INIT → signal ≠ PSA_CRYPTO_FREE →
  same_counter w w' ∧
  (signal ≠ PSA_HASH → same_clones w w') ∧
  (signal ≠ PSA_KEY_MNG → same_registry w w').
Proof.
  intros H Hinit Hfree.
  destruct (msg_type_call_or_not msg) as [Hty|Hty].
  - destruct (call_served env _ _ _ _ Hty H) as (s & seg & _ & _ & _ & Hown & _). auto.
  - destruct (session_served _ _ _ _ Hty H) as (s & seg & _ & _ & _ & ? & ? & ? & _). auto.
Qed.

(** X7. A Call that is answered with a failure status leaves the reference
    counter and the registry as they were, and the clone pool as well unless
    it is a hash Call. *)
Theorem failed_call_leaves_counter_and_registry signal msg w w' s :
  msg_type msg = PSA_IPC_CALL →
  serve env signal msg w = Done tt w' →
  head (trace w') = Some (EvReply (msg_handle msg) s) →
  s ≠ PSA_SUCCESS →
  same_counter w w' ∧ same_registry w w' ∧ (signal ≠ PSA_HASH → same_clones w w').
Proof.
  intros Hty H Hhead Hs.
  destruct (call_served env _ _ _ _ Hty H) as (s' & seg & Htr & _ & _ & _ & Hfail & _).
  rewrite Htr in Hhead. injection Hhead as <-. auto.
Qed.

(** X8. Output vector 0, which carries the result of the operation, is
    written only by a Call that is answered with success; the exception is
    the key information Call. *)
Theorem payload_written_only_on_success signal msg w w' d n :
  msg_type msg = PSA_IPC_CALL →
  serve env signal msg w = Done tt w' →
  call_func signal msg ≠ Some PSA_GET_KEY_INFORMATION →
  (0%nat, d, n) ∈ writes (logged_since w w') →
  head (trace w') = Some (EvReply (msg_handle msg) PSA_SUCCESS).
Proof.
  intros Hty H Hf Hin.
  destruct (call_served env _ _ _ _ Hty H) as (s & seg & Htr & _ & _ & _ & _ & Hw & _).
  rewrite (logged_since_app w w' (EvReply (msg_handle msg) s :: seg)) in Hin by done.
  rewrite Htr. simpl. by rewrite (Hw Hf d n Hin).
Qed.

(** X22. Whatever the kind of the Call, every key handle that the partition
    passes to the engine on behalf of the caller is a handle that the
    registry, as it was when the Call arrived, binds to the caller. *)
Theorem engine_key_handles_are_permitted signal msg w w' c kh :
  msg_type msg = PSA_IPC_CALL →
  serve env signal msg w = Done tt w' →
  c ∈ engine_calls (logged_since w w') →
  key_handle_of c = Some kh →
  is_handle_permitted kh (client_id msg) (access_control w) = true.
Proof.
  intros Hty H Hin Hk.
  destruct (call_served env _ _ _ _ Hty H)
    as (s & seg & Htr & _ & _ & _ & _ & _ & Hperm & _).
  rewrite (logged_since_app w w' (EvReply (msg_handle msg) s :: seg)) in Hin by done.
  by apply (Hperm c kh).
Qed.

(** X23. Whatever the kind of the Call, a key that the partition has the
    engine create or open is created or opened with the caller as its owner:
    the owner field of the key identifier is the identity of the caller, not
    a value taken from the message. *)
Theorem new_keys_are_owned_by_caller signal msg w w' c owner :
  msg_type msg = PSA_IPC_CALL →
  serve env signal msg w = Done tt w' →
  c ∈ engine_calls (logged_since w w') →
  key_owner_of c = Some owner →
  owner = client_id msg.
Proof.
  intros Hty H Hin Hk.
  destruct (call_served env _ _ _ _ Hty H)
    as (s & seg & Htr & _ & _ & _ & _ & _ & _ & Hown & _).
  rewrite (logged_since_app w w' (EvReply (msg_handle msg) s :: seg)) in Hin by done.
  by apply (Hown c owner).
Qed.

(** X24. Whatever the kind and the type of the message, every engine call
    that works on an operation context works on the context of the
    connection on which the message arrived; for [psa_hash_clone] that is the
    target of the clone. *)
Theorem engine_works_on_context_of_connection signal msg w w' c p :
  serve env signal msg w = Done tt w' →
  c ∈ engine_calls (logged_since w w') →
  context_of c = Some p →
  p = rhandle msg.
Proof.
  intros H Hin Hk.
  destruct (msg_type_call_or_not msg) as [Hty|Hty].
  - destruct (call_served env _ _ _ _ Hty H)
      as (s & seg & Htr & _ & _ & _ & _ & _ & _ & _ & Hctx & _).
    rewrite (logged_since_app w w' (EvReply (msg_handle msg) s :: seg)) in Hin by done.
    by apply (Hctx c p).
  - destruct (session_served _ _ _ _ Hty H) as (s & seg & Htr & _ & _ & _ & _ & _ & Hctx).
    rewrite (logged_since_app w w' (EvReply (msg_handle msg) s :: seg)) in Hin by done.
    by apply (Hctx c p).
Qed.

(** X25. Whatever the kind of the Call, when an allocation that the
    partition makes for it fails, the Call is answered with the
    insufficient-memory status, the engine is not called and nothing is
    written to the caller. *)
Theorem allocation_failure_reported_without_engine_call signal msg w w' :
  msg_type msg = PSA_IPC_CALL →
  serve env signal msg w = Done tt w' →
  NULL ∈ callocs (logged_since w w') →
  head (trace w') = Some (EvReply (msg_handle msg) PSA_ERROR_INSUFFICIENT_MEMORY) ∧
  engine_calls (logged_since w w') = [] ∧
  writes (logged_since w w') = [].
Proof.
  intros Hty H Hin.
  destruct (call_served env _ _ _ _ Hty H)
    as (s & seg & Htr & _ & _ & _ & _ & _ & _ & _ & _ & Hfail).
  rewrite (logged_since_app w w' (EvReply (msg_handle msg) s :: seg)) in * by done.
  destruct (Hfail Hin) as (-> & He & Hw). by rewrite Htr.
Qed.

(** X9. A Call whose header is delivered and whose operation code is none
    of those that the kind names is answered with the not-supported status:
    the engine is not called, nothing is allocated or written, and the
    globals are as they were.  The asymmetric and the AEAD kinds look at the
    key handle first, so there the handle is one the caller owns. *)
Theorem unknown_operation_code_not_supported signal msg f w :
  msg_type msg = PSA_IPC_CALL →
  call_func signal msg = Some f →
  supported signal f = false →
  header_accepted env signal msg →
  channel_read env (trace w) (msg_handle msg) 0 (in_size msg 0) = in_size msg 0 →
  (∀ kh, early_checked_handle signal msg = Some kh →
         is_handle_permitted kh (client_id msg) (access_control w) = true) →
  serve env signal msg w =
    Done tt (log (EvReply (msg_handle msg) PSA_ERROR_NOT_SUPPORTED)
               (log (EvRead (msg_handle msg) 0 (in_size msg 0) (in_size msg 0)) w)).
Proof.
  open_msg msg. open_world w. unfold early_checked_handle. mcbv.
  intros -> Hf Hsup Hhdr Hread Hperm.
  destruct signal; try discriminate Hf; injection Hf as ->;
    destruct f; try discriminate Hsup; mcbv.
  all: try (rewrite (Hhdr _ eq_refl) in *; mcbv).
  all: repeat (first [ rewrite Hread
                     | rewrite (Hperm _ eq_refl)
                     | match goal with
                       | |- context [decide ?P] => destruct (decide P); try done
                       end ]; mcbv).
  all: reflexivity.
Qed.

(** X10. When the Secure Channel delivers another number of bytes for the
    header of a Call than the message declares, the partition panics right
    after the read: no engine call, no write, no reply. *)
Theorem short_header_read_panics signal msg w :
  msg_type msg = PSA_IPC_CALL →
  call_func signal msg ≠ None →
  header_accepted env signal msg →
  channel_read env (trace w) (msg_handle msg) 0 (in_size msg 0) ≠ in_size msg 0 →
  serve env signal msg w =
    Panicked (log (EvRead (msg_handle msg) 0 (in_size msg 0)
                     (channel_read env (trace w) (msg_handle msg) 0 (in_size msg 0))) w).
Proof.
  open_msg msg. open_world w. mcbv.
  intros -> Hf Hhdr Hread.
  destruct signal; try done; mcbv.
  all: try (rewrite (Hhdr _ eq_refl) in *; mcbv).
  all: repeat match goal with
         | |- context [decide ?P] => destruct (decide P); try done
         end.
Qed.

(** X11. A Connect of a kind that keeps an operation context allocates the
    context and nothing else: when the allocator has no memory the reply is
    the insufficient-memory status and no context is attached to the
    connection; otherwise the context is attached and the reply is success.
    A Connect of any other kind is answered with success and does nothing.
    No Connect calls the engine or changes the globals. *)
Theorem connect_attaches_context_or_reports_memory signal msg w :
  msg_type msg = PSA_IPC_CONNECT →
  serve env signal msg w =
    Done tt
      match connect_context_size env signal with
      | None => log (EvReply (msg_handle msg) PSA_SUCCESS) w
      | Some size =>
          let p := allocator env (trace w) size in
          if decide (p = NULL) then
            log (EvReply (msg_handle msg) PSA_ERROR_INSUFFICIENT_MEMORY)
              (log (EvCalloc size NULL) w)
          else
            log (EvReply (msg_handle msg) PSA_SUCCESS)
              (log (EvSetRhandle (msg_handle msg) p) (log (EvCalloc size p) w))
      end.
Proof.
  open_msg msg. open_world w. unfold connect_context_size. mcbv. intros ->.
  destruct signal; mcbv; try reflexivity.
  all: destruct (decide _) as [Hnull|?]; [rewrite Hnull|]; reflexivity.
Qed.

End Messages.

Lemma served_message_gets_one_reply_witness :
  ∃ s, head (trace (served nominal_env PSA_RNG (test_call PSA_HASH_SETUP 0 [] [16])
                      initial_world)) = Some (EvReply 1 s) ∧
       replies (logged_since initial_world
                  (served nominal_env PSA_RNG (test_call PSA_HASH_SETUP 0 [] [16])
                     initial_world)) = [(1, s)] ∧
       polls (logged_since initial_world
                (served nominal_env PSA_RNG (test_call PSA_HASH_SETUP 0 [] [16])
                   initial_world)) = [].
Proof.
  apply (served_message_gets_one_reply nominal_env PSA_RNG
           (test_call PSA_HASH_SETUP 0 [] [16]) initial_world).
  vm_compute. reflexivity.
Defined.

Lemma unexpected_message_type_panics_witness :
  serve nominal_env PSA_KEY_MNG test_other initial_world = Panicked initial_world.
Proof. apply (unexpected_message_type_panics nominal_env PSA_KEY_MNG test_other _ 9). reflexivity. Defined.

Lemma call_releases_its_scratch_buffers_witness :
  4096 ∈ callocs (logged_since initial_world
                    (served nominal_env PSA_RNG (test_call PSA_HASH_SETUP 0 [] [16])
                       initial_world)) ↔
  4096 ∈ frees (logged_since initial_world
                  (served nominal_env PSA_RNG (test_call PSA_HASH_SETUP 0 [] [16])
                     initial_world)).
Proof.
  apply (call_releases_its_scratch_buffers nominal_env PSA_RNG
           (test_call PSA_HASH_SETUP 0 [] [16]) initial_world).
  - reflexivity.
  - vm_compute. reflexivity.
  - discriminate.
Defined.

Lemma globals_change_only_in_their_kind_witness :
  same_counter world_with_key
    (served nominal_env PSA_KEY_MNG (test_call PSA_DESTROY_KEY 0 [16] []) world_with_key) ∧
  (PSA_KEY_MNG ≠ PSA_HASH →
   same_clones world_with_key
     (served nominal_env PSA_KEY_MNG (test_call PSA_DESTROY_KEY 0 [16] []) world_with_key)) ∧
  (PSA_KEY_MNG ≠ PSA_KEY_MNG →
   same_registry world_with_key
     (served nominal_env PSA_KEY_MNG (test_call PSA_DESTROY_KEY 0 [16] []) world_with_key)).
Proof.
  apply (globals_change_only_in_their_kind nominal_env PSA_KEY_MNG
           (test_call PSA_DESTROY_KEY 0 [16] []) world_with_key).
  - vm_compute. reflexivity.
  - discriminate.
  - discriminate.
Defined.

Lemma failed_call_leaves_counter_and_registry_witness :
  same_counter world_with_key
    (served (with_engine failing_engine nominal_env) PSA_KEY_MNG
       (test_call PSA_DESTROY_KEY 0 [16] []) world_with_key) ∧
  same_registry world_with_key
    (served (with_engine failing_engine nominal_env) PSA_KEY_MNG
       (test_call PSA_DESTROY_KEY 0 [16] []) world_with_key) ∧
  (PSA_KEY_MNG ≠ PSA_HASH →
   same_clones world_with_key
     (served (with_engine failing_engine nominal_env) PSA_KEY_MNG
        (test_call PSA_DESTROY_KEY 0 [16] []) world_with_key)).
Proof.
  apply (failed_call_leaves_counter_and_registry (with_engine failing_engine nominal_env)
           PSA_KEY_MNG (test_call PSA_DESTROY_KEY 0 [16] []) world_with_key _
           PSA_ERROR_BAD_STATE).
  - reflexivity.
  - vm_compute. reflexivity.
  - vm_compute. reflexivity.
  - discriminate.
Defined.

Lemma payload_written_only_on_success_witness :
  head (trace (served nominal_env PSA_RNG (test_call PSA_HASH_SETUP 0 [] [16])
                 initial_world)) = Some (EvReply 1 PSA_SUCCESS).
Proof.
  apply (payload_written_only_on_success nominal_env PSA_RNG
           (test_call PSA_HASH_SETUP 0 [] [16]) initial_world _ WBuffer 16).
  - reflexivity.
  - vm_compute. reflexivity.
  - discriminate.
  - assert (writes (logged_since initial_world
                      (served nominal_env PSA_RNG (test_call PSA_HASH_SETUP 0 [] [16])
                         initial_world)) = [(0%nat, WBuffer, 16)]) as ->
      by (vm_compute; reflexivity).
    by apply list_elem_of_singleton.
Defined.

Lemma unknown_operation_code_not_supported_witness :
  serve nominal_env PSA_AEAD (test_call PSA_HASH_SETUP 0 [24] []) world_with_key =
    Done tt (log (EvReply 1 PSA_ERROR_NOT_SUPPORTED)
               (log (EvRead 1 0 24 24) world_with_key)).
Proof.
  apply (unknown_operation_code_not_supported nominal_env PSA_AEAD
           (test_call PSA_HASH_SETUP 0 [24] []) PSA_HASH_SETUP world_with_key).
  - reflexivity.
  - reflexivity.
  - reflexivity.
  - intros n. discriminate.
  - reflexivity.
  - intros kh [= <-]. vm_compute. reflexivity.
Defined.

Lemma short_header_read_panics_witness :
  serve short_read_env PSA_GENERATOR (test_call PSA_GENERATOR_ABORT 0 [16] [])
    initial_world =
    Panicked (log (EvRead 1 0 16 15) initial_world).
Proof.
  apply (short_header_read_panics short_read_env PSA_GENERATOR
           (test_call PSA_GENERATOR_ABORT 0 [16] []) initial_world).
  - reflexivity.
  - discriminate.
  - intros n [= <-]. reflexivity.
  - vm_compute. discriminate.
Defined.

Lemma connect_attaches_context_or_reports_memory_witness :
  serve out_of_memory_env PSA_GENERATOR test_connect initial_world =
    Done tt (log (EvReply 1 PSA_ERROR_INSUFFICIENT_MEMORY)
               (log (EvCalloc 64 NULL) initial_world)).
Proof.
  apply (connect_attaches_context_or_reports_memory out_of_memory_env PSA_GENERATOR
           test_connect initial_world).
  reflexivity.
Defined.

Lemma engine_key_handles_are_permitted_witness :
  is_handle_permitted 7 (client_id (test_call PSA_DESTROY_KEY 0 [16] []))
    (access_control world_with_key) = true.
Proof.
  apply (engine_key_handles_are_permitted nominal_env PSA_KEY_MNG
           (test_call PSA_DESTROY_KEY 0 [16] []) world_with_key
           (served nominal_env PSA_KEY_MNG (test_call PSA_DESTROY_KEY 0 [16] [])
              world_with_key)
           (psa_destroy_key 7)).
  - reflexivity.
  - vm_compute. reflexivity.
  - assert (engine_calls
              (logged_since world_with_key
                 (served nominal_env PSA_KEY_MNG (test_call PSA_DESTROY_KEY 0 [16] [])
                    world_with_key)) = [psa_destroy_key 7]) as ->
      by (vm_compute; reflexivity).
    by apply list_elem_of_singleton.
  - reflexivity.
Defined.

Lemma new_keys_are_owned_by_caller_witness :
  5 = client_id (test_call PSA_CREATE_KEY 0 [16; 4] [2]).
Proof.
  apply (new_keys_are_owned_by_caller nominal_env PSA_KEY_MNG
           (test_call PSA_CREATE_KEY 0 [16; 4] [2]) initial_world
           (served nominal_env PSA_KEY_MNG (test_call PSA_CREATE_KEY 0 [16; 4] [2])
              initial_world)
           (psa_create_key 0 5 0)).
  - reflexivity.
  - vm_compute. reflexivity.
  - assert (engine_calls
              (logged_since initial_world
                 (served nominal_env PSA_KEY_MNG (test_call PSA_CREATE_KEY 0 [16; 4] [2])
                    initial_world)) = [psa_create_key 0 5 0]) as ->
      by (vm_compute; reflexivity).
    by apply list_elem_of_singleton.
  - reflexivity.
Defined.

Lemma engine_works_on_context_of_connection_witness :
  4096 = rhandle (test_disconnect 4096).
Proof.
  apply (engine_works_on_context_of_connection nominal_env PSA_SYMMETRIC
           (test_disconnect 4096) initial_world
           (served nominal_env PSA_SYMMETRIC (test_disconnect 4096) initial_world)
           (psa_cipher_abort 4096)).
  - vm_compute. reflexivity.
  - assert (engine_calls
              (logged_since initial_world
                 (served nominal_env PSA_SYMMETRIC (test_disconnect 4096) initial_world)) =
            [psa_cipher_abort 4096]) as -> by (vm_compute; reflexivity).
    by apply list_elem_of_singleton.
  - reflexivity.
Defined.

Lemma allocation_failure_reported_without_engine_call_witness :
  head (trace (served out_of_memory_env PSA_RNG (test_call PSA_HASH_SETUP 0 [] [16])
                 initial_world)) =
    Some (EvReply 1 PSA_ERROR_INSUFFICIENT_MEMORY) ∧
  engine_calls (logged_since initial_world
                  (served out_of_memory_env PSA_RNG (test_call PSA_HASH_SETUP 0 [] [16])
                     initial_world)) = [] ∧
  writes (logged_since initial_world
            (served out_of_memory_env PSA_RNG (test_call PSA_HASH_SETUP 0 [] [16])
               initial_world)) = [].
Proof.
  apply (allocation_failure_reported_without_engine_call out_of_memory_env PSA_RNG
           (test_call PSA_HASH_SETUP 0 [] [16]) initial_world).
  - reflexivity.
  - vm_compute. reflexivity.
  - assert (callocs
              (logged_since initial_world
                 (served out_of_memory_env PSA_RNG (test_call PSA_HASH_SETUP 0 [] [16])
                    initial_world)) = [NULL]) as -> by (vm_compute; reflexivity).
    by apply list_elem_of_singleton.
Defined.

(** ** Generator connections *)

Section Generator.

Context (env : Env).

(** Calls that return release only what they allocate. *)
Lemma calls_served signal msgs :
  Forall (λ m, msg_type m = PSA_IPC_CALL) msgs →
  ∀ w w', serve_all env signal msgs w = Done tt w' →
  ∃ seg, trace w' = seg ++ trace w ∧
         ∀ q, q ∈ frees seg → q = NULL ∨ q ∈ callocs seg.
Proof.
  induction 1 as [|msg msgs Hmsg _ IH]; intros w w'; simpl.
  - intros Heq; injection Heq as <-. exists []. split; [done|].
    intros q Hq. by apply elem_of_nil in Hq.
  - unfold bind at 1.
    destruct (serve env signal msg w) as [[] w1| |] eqn:Hserve; try discriminate.
    intros (seg2 & Htr2 & Hf2)%IH.
    destruct (call_served env _ _ _ _ Hmsg Hserve) as (s & seg1 & Htr1 & _ & [_ Hf1] & _).
    exists (seg2 ++ EvReply (msg_handle msg) s :: seg1). split.
    + by rewrite Htr2, Htr1, <- app_assoc.
    + intros q. change (EvReply ?h ?x :: seg1) with ([EvReply h x] ++ seg1).
      rewrite !frees_app, !callocs_app, !elem_of_app. simpl.
      rewrite !elem_of_nil. intros [Hq|[[]|Hq]].
      * destruct (Hf2 q Hq); auto.
      * destruct (Hf1 q Hq); auto.
Qed.

(** X12. A generator connection whose Connect obtained the context [p]; any
    Calls on the connection that all return, during which the allocator does
    not hand out the address [p] again; then the Disconnect.  The Connect
    attaches [p] to the connection; the Calls do not release [p]; the
    Disconnect calls [psa_generator_abort] on [p], then releases [p], then
    replies with success; over the whole connection [p] is released exactly
    once. *)
Theorem generator_context_released_once_at_disconnect conn calls disc w p w2 :
  msg_type conn = PSA_IPC_CONNECT →
  allocator env (trace w) (sizeof_psa_crypto_generator_t env) = p → p ≠ NULL →
  Forall (λ m, msg_type m = PSA_IPC_CALL) calls →
  msg_type disc = PSA_IPC_DISCONNECT → rhandle disc = p →
  serve_all env PSA_GENERATOR calls (generator_connected env conn p w) = Done tt w2 →
  p ∉ callocs (logged_since (generator_connected env conn p w) w2) →
  serve env PSA_GENERATOR conn w = Done tt (generator_connected env conn p w) ∧
  (p ∉ frees (logged_since (generator_connected env conn p w) w2)) ∧
  serve env PSA_GENERATOR disc w2 = Done tt (generator_disconnected disc w2) ∧
  releases_of p (logged_since w (generator_disconnected disc w2)) = [p].
Proof.
  intros Hconn Halloc Hp Hcalls Hdisc Hrh.
  set (w1 := generator_connected env conn p w). intros Hrun Hnew.
  destruct (calls_served _ _ Hcalls _ _ Hrun) as (seg & Hseg & Hsub).
  rewrite (logged_since_app _ _ _ Hseg) in *.
  assert (p ∉ frees seg) as Hnot.
  { intros Hin. destruct (Hsub p Hin); [done|by apply Hnew]. }
  split_and!; [| done | |].
  - subst w1. unfold generator_connected. clear -Hconn Halloc Hp.
    open_msg conn. open_world w. mcbv. subst ty. rewrite Halloc.
    destruct (decide (p = NULL)); [done|reflexivity].
  - unfold generator_disconnected. clear -Hdisc Hrh Hp.
    open_msg disc. destruct w2 as [cnt2 clones2 reg2 t2]. mcbv. subst ty rh.
    destruct (decide (p ≠ NULL)); [reflexivity|done].
  - erewrite logged_since_app; last first.
    { unfold generator_disconnected. simpl. rewrite Hseg. subst w1.
      unfold generator_connected. simpl.
      instantiate (1 := [_; _; _] ++ seg ++ [_; _; _]).
      simpl. rewrite <- app_assoc. reflexivity. }
    unfold releases_of. rewrite !frees_app. simpl. rewrite Hrh.
    rewrite filter_cons_True by done. rewrite filter_app.
    fold (releases_of p seg). rewrite releases_of_absent by done. reflexivity.
Qed.

End Generator.

Lemma generator_context_released_once_at_disconnect_witness :
  serve nominal_env PSA_GENERATOR test_connect world_with_key =
    Done tt (generator_connected nominal_env test_connect 4096 world_with_key) ∧
  (4096 ∉ frees (logged_since
                   (generator_connected nominal_env test_connect 4096 world_with_key)
                   test_generator_called)) ∧
  serve nominal_env PSA_GENERATOR (test_disconnect 4096) test_generator_called =
    Done tt (generator_disconnected (test_disconnect 4096) test_generator_called) ∧
  releases_of 4096
    (logged_since world_with_key
       (generator_disconnected (test_disconnect 4096) test_generator_called)) = [4096].
Proof.
  apply (generator_context_released_once_at_disconnect nominal_env test_connect
           test_generator_calls (test_disconnect 4096) world_with_key 4096
           test_generator_called).
  - reflexivity.
  - reflexivity.
  - discriminate.
  - repeat constructor.
  - reflexivity.
  - reflexivity.
  - vm_compute. reflexivity.
  - compute_done.
Defined.

(** ** Hash clones *)

Lemma alter_insert {A} (f : A → A) (l : list A) i x :
  alter f i (<[i := x]> l) = <[i := f x]> l.
Proof.
  apply list_eq. intros j. destruct (decide (i = j)) as [<-|Hne].
  - rewrite list_lookup_alter_eq. destruct (decide (i < length l)%nat).
    + by rewrite !list_lookup_insert_eq.
    + rewrite !lookup_ge_None_2; [done|rewrite length_insert; lia..].
  - rewrite list_lookup_alter_ne by done. by rewrite !list_lookup_insert_ne.
Qed.

Section PoolRoundTrip.

Implicit Types (clones : hash_clones).

Lemma reserve_hash_clone_slot pid src clones i clones1 :
  reserve_hash_clone pid src clones = (PSA_SUCCESS, i, clones1) →
  ∃ n, clones1 !! i = Some {| partition_id := pid; source_operation := src; ref_count := n |}.
Proof.
  unfold reserve_hash_clone.
  destruct (list_find (λ c, partition_id c = pid ∧ _) clones) as [[j c]|] eqn:Hfind.
  - intros [= <- <-]. apply list_find_Some in Hfind as (Hj & [Hp Hs] & _).
    eexists. rewrite list_lookup_insert_eq by (by eapply lookup_lt_Some).
    by rewrite Hp, Hs.
  - destruct (list_find (λ c, partition_id c = 0 ∧ _) clones) as [[j c]|] eqn:Hfree;
      [|discriminate].
    intros [= <- <-]. apply list_find_Some in Hfree as (Hj & _ & _).
    eexists. by rewrite list_lookup_insert_eq by (by eapply lookup_lt_Some).
Qed.

Lemma reserve_then_resolve pid src clones i clones1 :
  src ≠ NULL →
  Forall clone_inv clones →
  counts_below_wrap clones →
  reserve_hash_clone pid src clones = (PSA_SUCCESS, i, clones1) →
  get_hash_clone (Z.of_nat i) pid clones1 = (PSA_SUCCESS, Some i) ∧
  release_hash_clone i clones1 = clones.
Proof.
  intros Hsrc Hinv Hrange. unfold reserve_hash_clone.
  destruct (list_find (λ c, partition_id c = pid ∧ _) clones) as [[j c]|] eqn:Hfind.
  - intros [= <- <-]. apply list_find_Some in Hfind as (Hj & [Hp Hs] & _).
    pose proof (lookup_lt_Some _ _ _ Hj) as Hlt.
    pose proof (Forall_lookup_1 _ _ _ _ Hrange Hj) as Hr. simpl in Hr.
    pose proof (Forall_lookup_1 _ _ _ _ Hinv Hj) as Hc.
    assert (ref_count c ≠ 0) as Hpos.
    { intros H0. apply Hc in H0 as [_ ?]. congruence. }
    split.
    + unfold get_hash_clone. rewrite length_insert.
      destruct (decide _); [lia|].
      rewrite Nat2Z.id, list_lookup_insert_eq by done. simpl.
      destruct (decide _); [done|]. destruct (decide _); [congruence|]. done.
    + unfold release_hash_clone. rewrite alter_insert. unfold release_slot. simpl.
      unfold uint8. rewrite (Z.mod_small (ref_count c + 1)) by lia.
      replace (ref_count c + 1 - 1) with (ref_count c) by lia.
      rewrite Z.mod_small by lia.
      destruct (decide _); [done|]. apply list_insert_id. rewrite Hj. by destruct c.
  - destruct (list_find (λ c, partition_id c = 0 ∧ _) clones) as [[j c]|] eqn:Hfree;
      [|discriminate].
    intros [= <- <-]. apply list_find_Some in Hfree as (Hj & [Hp Hs] & _).
    pose proof (lookup_lt_Some _ _ _ Hj) as Hlt.
    assert (ref_count c = 0) as Hzero
      by (by apply (Forall_lookup_1 _ _ _ _ Hinv Hj)).
    rewrite Hzero. split.
    + unfold get_hash_clone. rewrite length_insert.
      destruct (decide _); [lia|].
      rewrite Nat2Z.id, list_lookup_insert_eq by done. simpl.
      destruct (decide _); [done|]. destruct (decide _); [congruence|]. done.
    + unfold release_hash_clone. rewrite alter_insert.
      apply list_insert_id. rewrite Hj. destruct c; simpl in *. by subst.
Qed.

(** X13. Below the wrap of the reference count, a reservation that succeeds
    is undone by resolving the slot: [get_hash_clone] with the index that
    [reserve_hash_clone] returned and the same caller finds the slot, and
    releasing it leaves the pool exactly as it was before the reservation. *)
Theorem reserve_then_resolve_restores_pool pid src clones i clones1 :
  src ≠ NULL →
  Forall clone_inv clones →
  counts_below_wrap clones →
  reserve_hash_clone pid src clones = (PSA_SUCCESS, i, clones1) →
  get_hash_clone (Z.of_nat i) pid clones1 = (PSA_SUCCESS, Some i) ∧
  release_hash_clone i clones1 = clones.
Proof. apply reserve_then_resolve. Qed.

End PoolRoundTrip.

Lemma reserve_then_resolve_restores_pool_witness :
  get_hash_clone (Z.of_nat 0) 5
    [ {| partition_id := 5; source_operation := 4096; ref_count := 3 |}; zero_clone ] =
    (PSA_SUCCESS, Some 0%nat) ∧
  release_hash_clone 0
    [ {| partition_id := 5; source_operation := 4096; ref_count := 3 |}; zero_clone ] =
    psa_spm_hash_clones world_with_clone.
Proof.
  apply (reserve_then_resolve_restores_pool 5 4096 (psa_spm_hash_clones world_with_clone)).
  - discriminate.
  - compute_done.
  - unfold counts_below_wrap. compute_done.
  - vm_compute. reflexivity.
Defined.

Section HashCalls.

Context (env : Env).

(** X14. A clone-end Call whose input vector 1 has the size of the index,
    and names a slot which is out of range, belongs to another partition or
    holds no source operation, is answered with the bad-state status: the
    engine is not called and the pool is as it was. *)
Theorem clone_end_rejects_foreign_or_dead_slot msg w :
  reliable_channel env →
  hash_call PSA_HASH_CLONE_END msg →
  in_size msg 1 = sizeof_size_t env →
  (∀ c, psa_spm_hash_clones w !! Z.to_nat (vec_word (msg_in_vec msg) 1) = Some c →
        partition_id c ≠ client_id msg ∨ source_operation c = NULL) →
  ∃ w', serve env PSA_HASH msg w = Done tt w' ∧
        head (trace w') = Some (EvReply (msg_handle msg) PSA_ERROR_BAD_STATE) ∧
        engine_calls (logged_since w w') = [] ∧
        same_clones w w'.
Proof.
  intros Hrel [Hty Hf]. revert Hty Hf.
  open_msg msg. open_world w. mcbv. intros -> -> Hsz Hslot. crunch Hrel.
  destruct (decide (nth 1 ins 0 = sizeof_size_t env)); [|done].
  assert (get_hash_clone (words 1%nat) cid clones = (PSA_ERROR_BAD_STATE, None)) as ->.
  { unfold get_hash_clone. destruct (decide _); [done|].
    destruct (clones !! Z.to_nat (words 1%nat)) as [c|] eqn:Hc; [|done].
    destruct (decide _); [done|]. destruct (decide _); [done|].
    destruct (Hslot c eq_refl); done. }
  mcbv. eexists. split; [reflexivity|]. split; [reflexivity|].
  split; [|reflexivity].
  erewrite logged_since_app; [|simpl; by instantiate (1 := [_; _; _])]. reflexivity.
Qed.

(** X15. Below the wrap of the reference count: a clone-begin Call on the
    connection whose context is [p] writes the index of the reserved slot to
    the caller; a clone-end Call of the same caller whose input vector 1 has
    the size of the index and names that index calls [psa_hash_clone] from
    [p] to the context of its own connection, and the pool is then exactly as
    it was before the clone-begin. *)
Theorem clone_begin_then_end_restores_pool begin fin w p i clones1 :
  reliable_channel env →
  hash_call PSA_HASH_CLONE_BEGIN begin → rhandle begin = p → p ≠ NULL →
  hash_call PSA_HASH_CLONE_END fin → client_id fin = client_id begin →
  in_size fin 1 = sizeof_size_t env →
  Forall clone_inv (psa_spm_hash_clones w) →
  counts_below_wrap (psa_spm_hash_clones w) →
  reserve_hash_clone (client_id begin) p (psa_spm_hash_clones w) = (PSA_SUCCESS, i, clones1) →
  vec_word (msg_in_vec fin) 1 = Z.of_nat i →
  ∃ w1 w2,
    serve env PSA_HASH begin w = Done tt w1 ∧
    writes (logged_since w w1) = [(0%nat, WValue (Z.of_nat i), sizeof_size_t env)] ∧
    serve env PSA_HASH fin w1 = Done tt w2 ∧
    engine_calls (logged_since w w2) = [psa_hash_clone p (rhandle fin)] ∧
    same_clones w w2.
Proof.
  intros Hrel [Hty1 Hf1] Hrh Hp [Hty2 Hf2] Hcid Hsz Hinv Hrange Hres Hidx.
  destruct (reserve_then_resolve _ _ _ _ _ Hp Hinv Hrange Hres) as [Hget Hback].
  destruct (reserve_hash_clone_slot _ _ _ _ _ Hres) as [n Hslot].
  revert Hty1 Hf1 Hrh Hty2 Hf2 Hcid Hsz Hres Hidx.
  open_msg begin.
  destruct fin as [ty' h' cid' rh' ins' outs'
                     [[f1' kh1' alg1'] ? ? ? ? words']].
  open_world w. mcbv. intros -> -> -> -> -> -> Hsz Hres Hidx.
  set (t1 := EvReply h PSA_SUCCESS
             :: EvWrite h 0 (WValue (Z.of_nat i)) (sizeof_size_t env)
             :: EvClones clones1
             :: EvRead h 0 (nth 0 ins 0) (nth 0 ins 0) :: t).
  set (t2 := EvRead h' 1 (nth 1 ins' 0) (nth 1 ins' 0)
             :: EvRead h' 0 (nth 0 ins' 0) (nth 0 ins' 0) :: t1).
  exists {| psa_spm_init_refence_counter := cnt; psa_spm_hash_clones := clones1;
            access_control := reg; trace := t1 |}.
  exists {| psa_spm_init_refence_counter := cnt; psa_spm_hash_clones := clones;
            access_control := reg;
            trace := EvReply h' (er_status (crypto_engine env t2 (psa_hash_clone p rh')))
                     :: EvClones clones
                     :: EvEngine (psa_hash_clone p rh') :: t2 |}.
  subst t2 t1. split.
  { crunch Hrel. rewrite Hres. mcbv. decide_refl. reflexivity. }
  split.
  { erewrite logged_since_app; [|simpl; by instantiate (1 := [_; _; _; _])].
    reflexivity. }
  split.
  { crunch Hrel. destruct (decide (nth 1 ins' 0 = sizeof_size_t env)); [|done].
    rewrite Hidx. mcbv. simpl in Hget. rewrite Hget. mcbv.
    rewrite Hslot. simpl. simpl in Hback. rewrite Hback. reflexivity. }
  split; [|reflexivity].
  erewrite logged_since_app;
    [|simpl; by instantiate (1 := [_; _; _; _; _; _; _; _; _])].
  reflexivity.
Qed.

(** Serving a hash message keeps the invariant of the pool. *)
Lemma hash_served_inv msg w w' :
  serve env PSA_HASH msg w = Done tt w' →
  Forall clone_inv (psa_spm_hash_clones w) →
  counts_below_wrap (psa_spm_hash_clones w) →
  (hash_call PSA_HASH_CLONE_BEGIN msg → client_id msg ≠ 0 ∧ rhandle msg ≠ NULL) →
  Forall clone_inv (psa_spm_hash_clones w').
Proof.
  unfold hash_call. open_msg msg. open_world w. mcbv. intros H Hinv Hrange Hbegin.
  destruct ty.
  - eval_all H. all: apply Done_inj in H as [_ <-]; exact Hinv.
  - destruct f1.
    all: try (eval_all H;
              try match goal with
                | Hupd : scratch_traffic _ ∧ _ |- _ =>
                    destruct Hupd as (_ & _ & _ & _ & Hcl & _); unfold same_clones in Hcl;
                    simpl in Hcl; subst
                end;
              apply Done_inj in H as [_ <-]; simpl;
              first [ exact Hinv | by apply destroy_hash_clone_inv ]; fail).
    + destruct (Hbegin (conj eq_refl eq_refl)) as [Hcid Hrh].
      pose proof (reserve_hash_clone_inv cid rh clones Hcid Hrh Hinv Hrange) as Hres.
      mcbv. destruct (decide _); [discriminate|]. mcbv.
      destruct (reserve_hash_clone cid rh clones) as [[st i] cl].
      simpl in Hres. eval_all H. all: apply Done_inj in H as [_ <-]; exact Hres.
    + mcbv. destruct (decide _); [discriminate|]. mcbv.
      destruct (decide _); [discriminate|]. mcbv.
      match type of H with
      | context [get_hash_clone ?a ?b ?c] =>
          destruct (get_hash_clone a b c) as [st [hc|]] eqn:Hget
      end.
      * destruct st; eval_all H; apply Done_inj in H as [_ <-]; simpl;
          first [ exact Hinv | by eapply release_hash_clone_inv ].
      * destruct st; eval_all H; apply Done_inj in H as [_ <-]; exact Hinv.
  - eval_all H. all: apply Done_inj in H as [_ <-]; simpl;
      first [ exact Hinv | by apply destroy_hash_clone_inv ].
  - discriminate.
Qed.

(** X16. Below the wrap of the reference count, serving a message of any
    kind and type keeps the invariant of the pool: a slot has reference
    count 0 iff it is the free-slot sentinel.  A clone-begin Call is made by
    a caller whose identity is not 0 on a connection that has a context. *)
Theorem serve_preserves_pool_invariant signal msg w w' :
  serve env signal msg w = Done tt w' →
  Forall clone_inv (psa_spm_hash_clones w) →
  counts_below_wrap (psa_spm_hash_clones w) →
  (signal = PSA_HASH → hash_call PSA_HASH_CLONE_BEGIN msg →
   client_id msg ≠ 0 ∧ rhandle msg ≠ NULL) →
  Forall clone_inv (psa_spm_hash_clones w').
Proof.
  intros H Hinv Hrange Hbegin.
  assert (same_clones w w' → Forall clone_inv (psa_spm_hash_clones w')) as Hsame
    by (unfold same_clones; by intros ->).
  assert (∀ n, Forall clone_inv (replicate n zero_clone)) as Hzero
    by (intros n; apply Forall_replicate, zero_clone_inv).
  destruct (msg_type_call_or_not msg) as [Hty|Hty].
  - destruct (decide (signal = PSA_HASH)) as [->|Hh]; [by eapply hash_served_inv; eauto|].
    destruct (decide (signal = PSA_CRYPTO_INIT)) as [->|Hi];
      [|destruct (decide (signal = PSA_CRYPTO_FREE)) as [->|Hfr]].
    + revert Hty H Hsame. clear -Hinv Hzero. open_msg msg. open_world w. mcbv.
      intros -> H Hsame. eval_all H. all: apply Done_inj in H as [_ <-]; simpl; auto.
    + revert Hty H Hsame. clear -Hinv Hzero. open_msg msg. open_world w. mcbv.
      intros -> H Hsame. eval_all H. all: apply Done_inj in H as [_ <-]; simpl; auto.
    + destruct (call_served env _ _ _ _ Hty H) as (s & seg & _ & _ & _ & Hown & _).
      destruct (Hown Hi Hfr) as (_ & Hcl & _). auto.
  - destruct (decide (signal = PSA_HASH)) as [->|Hh]; [by eapply hash_served_inv; eauto|].
    destruct (session_served env _ _ _ _ Hty H) as (s & seg & _ & _ & _ & _ & _ & Hcl & _).
    auto.
Qed.

(** X18. A hash finish, verify or abort Call that returns, and that got the
    buffer it asked for, clears the slot of the pool that refers to the
    context of its connection, whatever the reference count of the slot:
    when at most one slot referred to the context, none does afterwards. *)
Theorem completed_hash_drops_clone_slot msg f w w' c :
  hash_call f msg → hash_completion f →
  serve env PSA_HASH msg w = Done tt w' →
  (NULL ∉ callocs (logged_since w w')) →
  rhandle msg ≠ NULL →
  context_slot_unique (rhandle msg) c (psa_spm_hash_clones w) →
  psa_spm_hash_clones w' = destroy_hash_clone (rhandle msg) (psa_spm_hash_clones w) ∧
  context_unreferenced (rhandle msg) (psa_spm_hash_clones w').
Proof.
  intros [Hty Hf] Hdone H Hnull Hrh Huniq.
  assert (psa_spm_hash_clones w' = destroy_hash_clone (rhandle msg) (psa_spm_hash_clones w))
    as Hpool; [|split; [done|rewrite Hpool; by eapply context_unreferenced_destroy]].
  clear Huniq Hrh. revert Hty Hf Hdone H Hnull.
  open_msg msg. open_world w. mcbv. intros -> -> Hdone H Hnull.
  destruct Hdone as [->|[->| ->]]; eval_all H.
  all: apply Done_inj in H as [_ <-]; simpl; try reflexivity.
  all: exfalso; apply Hnull.
  all: erewrite logged_since_app;
         [|simpl; first [ by instantiate (1 := [_; _; _])
                        | by instantiate (1 := [_; _; _; _]) ]].
  all: unfold callocs; simpl; rewrite elem_of_cons; left; congruence.
Qed.

End HashCalls.

Lemma clone_end_rejects_foreign_or_dead_slot_witness :
  ∃ w', serve nominal_env PSA_HASH (test_hash_call PSA_HASH_CLONE_END 8192 1 [12; 4] [])
          world_with_clone = Done tt w' ∧
        head (trace w') = Some (EvReply 2 PSA_ERROR_BAD_STATE) ∧
        engine_calls (logged_since world_with_clone w') = [] ∧
        same_clones world_with_clone w'.
Proof.
  apply (clone_end_rejects_foreign_or_dead_slot nominal_env
           (test_hash_call PSA_HASH_CLONE_END 8192 1 [12; 4] []) world_with_clone).
  - intros t h i n. reflexivity.
  - split; reflexivity.
  - reflexivity.
  - intros c [= <-]. right. reflexivity.
Defined.

Lemma clone_begin_then_end_restores_pool_witness :
  ∃ w1 w2,
    serve nominal_env PSA_HASH (test_hash_call PSA_HASH_CLONE_BEGIN 4096 0 [12] [4])
      world_with_clone = Done tt w1 ∧
    writes (logged_since world_with_clone w1) = [(0%nat, WValue (Z.of_nat 0), 4)] ∧
    serve nominal_env PSA_HASH (test_hash_call PSA_HASH_CLONE_END 8192 0 [12; 4] []) w1 =
      Done tt w2 ∧
    engine_calls (logged_since world_with_clone w2) = [psa_hash_clone 4096 8192] ∧
    same_clones world_with_clone w2.
Proof.
  apply (clone_begin_then_end_restores_pool nominal_env
           (test_hash_call PSA_HASH_CLONE_BEGIN 4096 0 [12] [4])
           (test_hash_call PSA_HASH_CLONE_END 8192 0 [12; 4] [])
           world_with_clone 4096 0%nat
           [ {| partition_id := 5; source_operation := 4096; ref_count := 3 |}; zero_clone ]).
  - intros t h i n. reflexivity.
  - split; reflexivity.
  - reflexivity.
  - discriminate.
  - split; reflexivity.
  - reflexivity.
  - reflexivity.
  - compute_done.
  - unfold counts_below_wrap. compute_done.
  - vm_compute. reflexivity.
  - reflexivity.
Defined.

Lemma serve_preserves_pool_invariant_witness :
  Forall clone_inv
    (psa_spm_hash_clones
       (served nominal_env PSA_HASH (test_hash_call PSA_HASH_CLONE_BEGIN 4096 0 [12] [4])
          world_with_clone)).
Proof.
  apply (serve_preserves_pool_invariant nominal_env PSA_HASH
           (test_hash_call PSA_HASH_CLONE_BEGIN 4096 0 [12] [4]) world_with_clone).
  - vm_compute. reflexivity.
  - compute_done.
  - unfold counts_below_wrap. compute_done.
  - intros _ _. split; discriminate.
Defined.

Lemma completed_hash_drops_clone_slot_witness :
  psa_spm_hash_clones
    (served nominal_env PSA_HASH (test_hash_call PSA_HASH_FINISH 4096 32 [12; 4] [32; 4])
       world_with_clone) =
    destroy_hash_clone 4096 (psa_spm_hash_clones world_with_clone) ∧
  context_unreferenced 4096
    (psa_spm_hash_clones
       (served nominal_env PSA_HASH (test_hash_call PSA_HASH_FINISH 4096 32 [12; 4] [32; 4])
          world_with_clone)).
Proof.
  apply (completed_hash_drops_clone_slot nominal_env
           (test_hash_call PSA_HASH_FINISH 4096 32 [12; 4] [32; 4]) PSA_HASH_FINISH
           world_with_clone _ 5).
  - split; reflexivity.
  - left. reflexivity.
  - vm_compute. reflexivity.
  - compute_done.
  - discriminate.
  - split; [|compute_done].
    intros [|[|i]] [|[|j]] s s' Hi Hj Hs Hs'; simpl in *; try done.
    + injection Hj as <-. discriminate.
    + injection Hi as <-. discriminate.
Defined.

(** ** Updates that the engine refuses *)

Section Refused.

Context (env : Env).

(** X17. A hash-update or MAC-update Call with input, whose first chunk the
    sink refuses with the status [s]: the sink is invoked once, on the first
    chunk, the scratch buffer is released, and the Call is answered with
    [s]. *)
Theorem refused_first_chunk_ends_update signal msg w sink s :
  msg_type msg = PSA_IPC_CALL →
  update_sink signal msg = Some sink →
  reliable_channel env → allocation_succeeds env →
  0 < in_size msg 1 →
  (∀ t, er_status (crypto_engine env t (sink (first_chunk msg))) = s) →
  s ≠ PSA_SUCCESS →
  ∃ w', serve env signal msg w = Done tt w' ∧
        engine_calls (logged_since w w') = [sink (first_chunk msg)] ∧
        replies (logged_since w w') = [(msg_handle msg, s)] ∧
        frees (logged_since w w') = callocs (logged_since w w').
Proof.
  unfold first_chunk.
  open_msg msg. open_world w. intros Hty Hsink Hrel Halloc Hpos Hfail Hs.
  unfold update_sink in Hsink. mcbv. subst ty.
  destruct signal; try discriminate Hsink;
    (destruct (decide _) as [->|]; [injection Hsink as <-|discriminate Hsink]).
  all: crunch Hrel; unfold chunked_update; crunch Hrel.
  all: match goal with
       | |- context [decide (allocator ?e ?t ?n = NULL)] =>
           destruct (decide (allocator e t n = NULL)) as [Hnull|_];
           [by apply Halloc in Hnull|]
       end.
  all: destruct (Z.to_nat (nth 1 ins 0)) as [|fuel] eqn:Hfuel; [lia|].
  all: simpl update_loop; destruct (decide (nth 1 ins 0 > 0)); [|lia].
  all: crunch Hrel; rewrite Hfail.
  all: destruct (decide (s ≠ PSA_SUCCESS)); [|done].
  all: mcbv; eexists; split; [reflexivity|].
  all: erewrite logged_since_app;
         [|simpl; by instantiate (1 := [_; _; _; _; _; _])].
  all: by split_and!.
Qed.

End Refused.

Lemma refused_first_chunk_ends_update_witness :
  ∃ w', serve (with_engine failing_engine nominal_env) PSA_MAC
          (test_call PSA_MAC_UPDATE 77 [12; 1000] []) initial_world = Done tt w' ∧
        engine_calls (logged_since initial_world w') = [psa_mac_update 77 400] ∧
        replies (logged_since initial_world w') = [(1, PSA_ERROR_BAD_STATE)] ∧
        frees (logged_since initial_world w') = callocs (logged_since initial_world w').
Proof.
  apply (refused_first_chunk_ends_update (with_engine failing_engine nominal_env) PSA_MAC
           (test_call PSA_MAC_UPDATE 77 [12; 1000] []) initial_world
           (psa_mac_update 77) PSA_ERROR_BAD_STATE).
  - reflexivity.
  - reflexivity.
  - intros t h i n. reflexivity.
  - intros t n. simpl. unfold NULL. lia.
  - reflexivity.
  - intros t. reflexivity.
  - discriminate.
Defined.

(** ** Entropy injection *)

Section Entropy.

Context (env : Env).

(** X20. The engine receives a seed only when entropy injection is built
    in, and never a seed longer than the maximum seed size: the size that
    an entropy Call passes to [mbedtls_psa_inject_entropy] is the declared
    length of input vector 0, and it is within the bound. *)
Theorem injected_seed_within_bound msg w w' n :
  msg_type msg = PSA_IPC_CALL →
  serve env PSA_ENTROPY_INJECT msg w = Done tt w' →
  mbedtls_psa_inject_entropy n ∈ engine_calls (logged_since w w') →
  entropy_injection_built env = true ∧
  n = in_size msg 0 ∧
  n <= MBEDTLS_ENTROPY_MAX_SEED_SIZE env.
Proof.
  open_msg msg. open_world w. mcbv. intros -> H.
  destruct (entropy_injection_built env) eqn:Hbuilt; eval_all H.
  all: apply Done_inj in H as [_ <-].
  all: erewrite logged_since_app;
         [|simpl; first [ by instantiate (1 := [_])
                        | by instantiate (1 := [_; _])
                        | by instantiate (1 := [_; _; _; _; _]) ]].
  all: unfold engine_calls; simpl; rewrite ?elem_of_cons, ?elem_of_nil.
  all: intros Hin; repeat (destruct Hin as [Hin|Hin]); try done.
  injection Hin as ->. split_and!; [done..|lia].
Qed.

End Entropy.

Lemma injected_seed_within_bound_witness :
  entropy_injection_built entropy_env = true ∧
  48 = in_size (test_call PSA_HASH_SETUP 0 [48] []) 0 ∧
  48 <= MBEDTLS_ENTROPY_MAX_SEED_SIZE entropy_env.
Proof.
  apply (injected_seed_within_bound entropy_env (test_call PSA_HASH_SETUP 0 [48] [])
           initial_world
           (served entropy_env PSA_ENTROPY_INJECT (test_call PSA_HASH_SETUP 0 [48] [])
              initial_world)).
  - reflexivity.
  - vm_compute. reflexivity.
  - assert (engine_calls
              (logged_since initial_world
                 (served entropy_env PSA_ENTROPY_INJECT
                    (test_call PSA_HASH_SETUP 0 [48] []) initial_world)) =
            [mbedtls_psa_inject_entropy 48]) as -> by (vm_compute; reflexivity).
    by apply list_elem_of_singleton.
Defined.

(** ** The reference count over a run of init and free requests *)

Lemma access_calls_app t1 t2 : access_calls (t1 ++ t2) = access_calls t1 ++ access_calls t2.
Proof. apply omap_app. Qed.

(** Closes the cases of the tests on the count. *)
Ltac close_count :=
  repeat match goal with H : _ ∧ _ |- _ => destruct H end;
  try done; try lia;
  try (exfalso;
       match goal with
       | n : ¬ (_ ∧ _) |- _ => apply n; split; first [ lia | done ]
       end).

Section Lifecycle.

Context (env : Env).

(** Init requests that the engine accepts, as many as the [int] counter can
    count: each calls the engine and counts; only the first one of a run that
    starts at 0 initialises the registry. *)
Lemma inits_counted msgs :
  init_succeeds env → all_calls msgs →
  ∀ w, 0 <= psa_spm_init_refence_counter w →
  psa_spm_init_refence_counter w + Z.of_nat (length msgs) <= INT_MAX →
  ∃ w' seg,
    serve_all env PSA_CRYPTO_INIT msgs w = Done tt w' ∧
    trace w' = seg ++ trace w ∧
    psa_spm_init_refence_counter w' = psa_spm_init_refence_counter w + Z.of_nat (length msgs) ∧
    engine_calls seg = replicate (length msgs) psa_crypto_init ∧
    access_calls seg =
      (if decide (psa_spm_init_refence_counter w = 0 ∧ msgs ≠ []) then [access_init] else []).
Proof.
  intros Hinit. induction 1 as [|msg msgs Hmsg _ IH]; intros w Hge Hmax.
  - exists w, []. simpl. split_and!; try done; try lia.
    destruct (decide _) as [[_ ?]|]; done.
  - simpl length in Hmax. assert (∃ w1 seg1,
              serve env PSA_CRYPTO_INIT msg w = Done tt w1 ∧
              trace w1 = seg1 ++ trace w ∧
              psa_spm_init_refence_counter w1 = psa_spm_init_refence_counter w + 1 ∧
              engine_calls seg1 = [psa_crypto_init] ∧
              access_calls seg1 =
                (if decide (psa_spm_init_refence_counter w = 0) then [access_init] else []))
      as (w1 & seg1 & Hs1 & Htr1 & Hc1 & He1 & Ha1).
    { clear IH. revert Hmsg Hge Hmax. open_msg msg. open_world w. mcbv.
      intros -> Hge Hmax.
      rewrite Hinit. mcbv. decide_refl.
      rewrite !int_wrap_small by (unfold INT_MAX in *; lia).
      destruct (decide (cnt + 1 = 1)); mcbv.
      - eexists _, [_; _; _; _]. split; [reflexivity|]. simpl.
        destruct (decide (cnt = 0)); [|lia]. by split_and!.
      - eexists _, [_; _]. split; [reflexivity|]. simpl.
        destruct (decide (cnt = 0)); [lia|]. by split_and!. }
    destruct (IH w1) as (w' & seg & Hs & Htr & Hc & He & Ha); [lia..|].
    exists w', (seg ++ seg1). cbn [serve_all length]. unfold bind at 1. rewrite Hs1.
    split; [done|]. split; [by rewrite Htr, Htr1, app_assoc|].
    split; [lia|].
    rewrite engine_calls_app, access_calls_app, He, He1, Ha, Ha1.
    split.
    + change (psa_crypto_init :: replicate (length msgs) psa_crypto_init)
        with (replicate (S (length msgs)) psa_crypto_init).
      by rewrite replicate_S_end.
    + repeat destruct (decide _); close_count.
Qed.

(** Free requests that are covered by the count: each counts down; the one
    that reaches 0 tears the engine and the registry down. *)
Lemma frees_counted msgs :
  all_calls msgs →
  ∀ w, Z.of_nat (length msgs) <= psa_spm_init_refence_counter w →
  ∃ w' seg,
    serve_all env PSA_CRYPTO_FREE msgs w = Done tt w' ∧
    trace w' = seg ++ trace w ∧
    psa_spm_init_refence_counter w' = psa_spm_init_refence_counter w - Z.of_nat (length msgs) ∧
    engine_calls seg =
      (if decide (psa_spm_init_refence_counter w = Z.of_nat (length msgs) ∧ msgs ≠ [])
       then [mbedtls_psa_crypto_free] else []) ∧
    access_calls seg =
      (if decide (psa_spm_init_refence_counter w = Z.of_nat (length msgs) ∧ msgs ≠ [])
       then [access_destroy] else []).
Proof.
  induction 1 as [|msg msgs Hmsg _ IH]; intros w Hge.
  - exists w, []. simpl. split_and!; try done; try lia.
    all: destruct (decide _) as [[_ ?]|]; done.
  - simpl length in *.
    assert (∃ w1 seg1,
              serve env PSA_CRYPTO_FREE msg w = Done tt w1 ∧
              trace w1 = seg1 ++ trace w ∧
              psa_spm_init_refence_counter w1 = psa_spm_init_refence_counter w - 1 ∧
              engine_calls seg1 =
                (if decide (psa_spm_init_refence_counter w = 1)
                 then [mbedtls_psa_crypto_free] else []) ∧
              access_calls seg1 =
                (if decide (psa_spm_init_refence_counter w = 1)
                 then [access_destroy] else []))
      as (w1 & seg1 & Hs1 & Htr1 & Hc1 & He1 & Ha1).
    { clear IH. revert Hmsg Hge. open_msg msg. open_world w. mcbv. intros -> Hge.
      destruct (decide (cnt > 0)); [|lia]. mcbv.
      destruct (decide (cnt - 1 = 0)); mcbv.
      - eexists _, [_; _; _; _]. split; [reflexivity|]. simpl.
        destruct (decide (cnt = 1)); [|lia]. by split_and!.
      - eexists _, [_]. split; [reflexivity|]. simpl.
        destruct (decide (cnt = 1)); [lia|]. by split_and!. }
    destruct (IH w1) as (w' & seg & Hs & Htr & Hc & He & Ha); [lia|].
    exists w', (seg ++ seg1). cbn [serve_all length]. unfold bind at 1. rewrite Hs1.
    split; [done|]. split; [by rewrite Htr, Htr1, app_assoc|].
    split; [lia|].
    rewrite engine_calls_app, access_calls_app, He, He1, Ha, Ha1, Hc1.
    split.
    all: destruct msgs; simpl length in *;
      repeat destruct (decide _); close_count.
Qed.

(** X21. From a reference count of 0, a run of init requests that the
    engine accepts, no more than [INT_MAX] of them, followed by as many free
    requests: the count rises to the
    number of init requests and is back at 0 at the end; the engine is
    initialised at every init request and torn down once, by the last free
    request; the registry is initialised once and destroyed once. *)
Theorem balanced_init_free_tears_down_once inits releases w :
  init_succeeds env →
  all_calls inits → all_calls releases →
  length releases = length inits → inits ≠ [] →
  Z.of_nat (length inits) <= INT_MAX →
  psa_spm_init_refence_counter w = 0 →
  ∃ w1 w2,
    serve_all env PSA_CRYPTO_INIT inits w = Done tt w1 ∧
    psa_spm_init_refence_counter w1 = Z.of_nat (length inits) ∧
    serve_all env PSA_CRYPTO_FREE releases w1 = Done tt w2 ∧
    psa_spm_init_refence_counter w2 = 0 ∧
    engine_calls (logged_since w w2) =
      mbedtls_psa_crypto_free :: replicate (length inits) psa_crypto_init ∧
    access_calls (logged_since w w2) = [access_destroy; access_init].
Proof.
  intros Hinit Hi Hr Hlen Hne Hmax Hzero.
  destruct (inits_counted _ Hinit Hi w) as (w1 & seg1 & Hs1 & Htr1 & Hc1 & He1 & Ha1);
    [lia..|].
  destruct (frees_counted _ Hr w1) as (w2 & seg2 & Hs2 & Htr2 & Hc2 & He2 & Ha2);
    [lia|].
  exists w1, w2. split; [done|]. split; [lia|]. split; [done|]. split; [lia|].
  rewrite (logged_since_app w w2 (seg2 ++ seg1)) by (by rewrite Htr2, Htr1, app_assoc).
  rewrite engine_calls_app, access_calls_app, He1, He2, Ha1, Ha2.
  assert (releases ≠ []) by (destruct releases, inits; done).
  split; repeat destruct (decide _); close_count.
Qed.

End Lifecycle.

Lemma balanced_init_free_tears_down_once_witness :
  ∃ w1 w2,
    serve_all nominal_env PSA_CRYPTO_INIT
      [test_call PSA_HASH_SETUP 0 [] []; test_call PSA_HASH_SETUP 0 [] []]
      world_before_init = Done tt w1 ∧
    psa_spm_init_refence_counter w1 = Z.of_nat 2 ∧
    serve_all nominal_env PSA_CRYPTO_FREE
      [test_call PSA_HASH_SETUP 0 [] []; test_call PSA_HASH_SETUP 0 [] []] w1 = Done tt w2 ∧
    psa_spm_init_refence_counter w2 = 0 ∧
    engine_calls (logged_since world_before_init w2) =
      mbedtls_psa_crypto_free :: replicate 2 psa_crypto_init ∧
    access_calls (logged_since world_before_init w2) = [access_destroy; access_init].
Proof.
  apply (balanced_init_free_tears_down_once nominal_env
           [test_call PSA_HASH_SETUP 0 [] []; test_call PSA_HASH_SETUP 0 [] []]
           [test_call PSA_HASH_SETUP 0 [] []; test_call PSA_HASH_SETUP 0 [] []]
           world_before_init).
  - intros t. reflexivity.
  - repeat constructor.
  - repeat constructor.
  - reflexivity.
  - discriminate.
  - vm_compute. discriminate.
  - reflexivity.
Defined.

(** ** The order of service in one iteration of the loop *)

Lemma retrievals_delivered s k l :
  retrievals (S k) (s :: l) = (s, true) :: retrievals k l.
Proof. reflexivity. Qed.

Section Iteration.

Context (env : Env).

Lemma signal_blocks_run signal order :
  ∀ w w', signal_blocks env signal order w = Done tt w' →
  ∃ seg k,
    trace w' = seg ++ trace w ∧
    (k ≤ length (filter (λ s, s ∈ signal) order))%nat ∧
    reverse (gets seg) = retrievals k (filter (λ s, s ∈ signal) order) ∧
    length (replies seg) = k ∧
    polls seg = (λ g, EvGet g.1 g.2) <$> gets seg.
Proof.
  induction order as [|s order IH]; intros w w'; simpl.
  - intros Heq; injection Heq as <-. by exists [], 0%nat.
  - unfold on_signal. destruct (decide (s ∈ signal)) as [Hin|Hout].
    + rewrite filter_cons_True by done.
      unfold bind at 1, psa_get at 1.
      destruct (channel_get env (trace w) s) as [msg|] eqn:Hget.
      * unfold bind at 1.
        destruct (serve env s msg _) as [[] w1| |] eqn:Hserve; try discriminate.
        intros (seg & k & Htr & Hk & Hg & Hr & Hw)%IH.
        destruct (message_served env _ _ _ _ Hserve) as (st & seg1 & Htr1 & Hr1 & Hp1).
        exists (seg ++ EvReply (msg_handle msg) st :: seg1 ++ [EvGet s true]), (S k).
        split.
        { rewrite Htr, Htr1. simpl. rewrite <- !app_assoc. simpl.
          by rewrite <- !app_assoc. }
        split; [simpl; lia|].
        change (EvReply ?h ?x :: ?l) with ([EvReply h x] ++ l).
        rewrite !gets_app, !polls_app, !replies_app, (gets_quiet _ Hp1), Hp1, Hr1, Hw.
        simpl. rewrite !reverse_app, Hg, retrievals_delivered, length_app, fmap_app.
        simpl. split; [done|]. split; [lia|done].
      * intros Heq; injection Heq as <-. exists [EvGet s false], 0%nat.
        split_and!; try done. simpl; lia.
    + rewrite filter_cons_False by done. apply IH.
Qed.

(** X19. One iteration of the loop of [crypto_main] that returns: the
    partition waits once, at the start, then goes through the asserted
    signals in the fixed order of the loop body and retrieves the message of
    each; every message it retrieves is served with one reply before the next
    signal is looked at; the iteration ends after the last asserted signal or
    at the first retrieval that fails. *)
Theorem iteration_serves_asserted_signals_in_order w w' :
  crypto_main_iteration env w = Done tt w' →
  ∃ k,
    (k ≤ length (asserted (channel_wait env (trace w))))%nat ∧
    polls (logged_since w w') =
      ((λ g, EvGet g.1 g.2) <$> gets (logged_since w w')) ++
      [EvWait (channel_wait env (trace w))] ∧
    reverse (gets (logged_since w w')) =
      retrievals k (asserted (channel_wait env (trace w))) ∧
    length (replies (logged_since w w')) = k.
Proof.
  change (crypto_main_iteration env w)
    with (signal_blocks env (channel_wait env (trace w)) signal_order
            (log (EvWait (channel_wait env (trace w))) w)).
  intros (seg & k & Htr & Hk & Hg & Hr & Hp)%signal_blocks_run.
  exists k. split; [done|].
  rewrite (logged_since_app w w' (seg ++ [EvWait (channel_wait env (trace w))]))
    by (by rewrite Htr, <- app_assoc).
  rewrite polls_app, gets_app, replies_app, length_app, Hp. simpl.
  rewrite app_nil_r. split; [done|]. split; [done|lia].
Qed.

End Iteration.

Lemma iteration_serves_asserted_signals_in_order_witness :
  ∃ k,
    (k ≤ length (asserted (channel_wait cipher_get_fails_env (trace initial_world))))%nat ∧
    polls (logged_since initial_world (iterated cipher_get_fails_env initial_world)) =
      ((λ g, EvGet g.1 g.2) <$>
         gets (logged_since initial_world (iterated cipher_get_fails_env initial_world))) ++
      [EvWait (channel_wait cipher_get_fails_env (trace initial_world))] ∧
    reverse (gets (logged_since initial_world
                     (iterated cipher_get_fails_env initial_world))) =
      retrievals k (asserted (channel_wait cipher_get_fails_env (trace initial_world))) ∧
    length (replies (logged_since initial_world
                       (iterated cipher_get_fails_env initial_world))) = k.
Proof.
  apply (iteration_serves_asserted_signals_in_order cipher_get_fails_env initial_world).
  vm_compute. reflexivity.
Defined.
